(** * Query analyzer: rule engine, text normalizer and orchestrator

    A shallow embedding of the analyzer of the query-optimizer repository
    (analyzer/rules.ts, analyzer/index.ts, analyzer/types.ts), of the
    highlighted view of its findings (components/HighlightedSql.tsx) and
    of the stored theme (theme.ts), and the properties of the rule
    engine and of these.

    Strings are sequences of UTF-16 code units, as the host language has
    them.  The parser is an external library: it is a parameter that
    either returns a tree or throws.  Regular expressions are evaluated by
    a backtracking matcher that follows the matcher semantics of
    ECMAScript (continuation passing, greedy and lazy repetition, word
    boundaries, negative lookahead, captures and backreferences). *)

From Stdlib Require Import String Ascii.
From Stdlib Require Import List NArith Arith Bool Lia ListSet.
From Stdlib Require Decimal.

Set Warnings "-comment-terminator-in-string".
Import ListNotations.

Local Open Scope nat_scope.
Local Open Scope list_scope.

(* ====================================================================== *)
(** ** Strings of code units *)
(* ====================================================================== *)

(** A code unit is a number below 65536; a string is a list of them. *)
Definition jsstr := list N.

Fixpoint bytes (s : string) : list N :=
  match s with
  | EmptyString => []
  | String a r => N_of_ascii a :: bytes r
  end.

(** The literals of the source file are UTF-8; [decode] turns the bytes of a
    literal into code units (one to three bytes per unit: the source has no
    character outside the basic plane). *)
Fixpoint decode (l : list N) : jsstr :=
  match l with
  | [] => []
  | b :: t =>
      if (b <? 128)%N then b :: decode t
      else if (b <? 224)%N then
        match t with
        | b2 :: t2 => ((b - 192) * 64 + (b2 - 128))%N :: decode t2
        | [] => [b]
        end
      else
        match t with
        | b2 :: b3 :: t3 =>
            ((b - 224) * 4096 + (b2 - 128) * 64 + (b3 - 128))%N :: decode t3
        | _ => [b]
        end
  end.

Definition lit (s : string) : jsstr := decode (bytes s).

(** The double quote, which the literals below cannot hold. *)
Definition dq : jsstr := [34%N].

Definition jsstr_eqb (a b : jsstr) : bool :=
  if list_eq_dec N.eq_dec a b then true else false.

(** [s.slice(a, b)] and [s.slice(a)] for indexes within bounds or beyond
    the end (the source passes no negative index). *)
Definition slice (s : jsstr) (a b : nat) : jsstr := firstn (b - a) (skipn a s).
Definition sliceFrom (s : jsstr) (a : nat) : jsstr := skipn a s.

(** WhiteSpace and LineTerminator code units: what [trim] strips and what
    the class \s holds. *)
Definition isSpace (c : N) : bool :=
  ((9 <=? c) && (c <=? 13) || (c =? 32) || (c =? 160) || (c =? 5760)
   || (8192 <=? c) && (c <=? 8202) || (c =? 8232) || (c =? 8233)
   || (c =? 8239) || (c =? 8287) || (c =? 12288) || (c =? 65279))%N.

Fixpoint trimStart (s : jsstr) : jsstr :=
  match s with
  | [] => []
  | c :: t => if isSpace c then trimStart t else s
  end.

Definition trim (s : jsstr) : jsstr := rev (trimStart (rev (trimStart s))).

(** Prefix test and [indexOf]: the first index at which [needle] occurs. *)
Fixpoint startsWith (s needle : jsstr) : bool :=
  match needle, s with
  | [], _ => true
  | _ :: _, [] => false
  | n :: nt, c :: t => (n =? c)%N && startsWith t nt
  end.

Fixpoint indexOfFrom (s needle : jsstr) (i : nat) : option nat :=
  if startsWith s needle then Some i
  else match s with
       | [] => None
       | _ :: t => indexOfFrom t needle (S i)
       end.

Definition indexOf (s needle : jsstr) : option nat := indexOfFrom s needle 0.

Definition includes (s needle : jsstr) : bool :=
  match indexOf s needle with Some _ => true | None => false end.

(** Decimal digits of a count, as a template literal prints a number. *)
Fixpoint digits (u : Decimal.uint) : jsstr :=
  match u with
  | Decimal.Nil => []
  | Decimal.D0 r => 48%N :: digits r
  | Decimal.D1 r => 49%N :: digits r
  | Decimal.D2 r => 50%N :: digits r
  | Decimal.D3 r => 51%N :: digits r
  | Decimal.D4 r => 52%N :: digits r
  | Decimal.D5 r => 53%N :: digits r
  | Decimal.D6 r => 54%N :: digits r
  | Decimal.D7 r => 55%N :: digits r
  | Decimal.D8 r => 56%N :: digits r
  | Decimal.D9 r => 57%N :: digits r
  end.

Definition numToStr (n : nat) : jsstr := digits (Nat.to_uint n).

(** [s.split('.')[0]]: the text before the first occurrence of [c]. *)
Fixpoint beforeFirst (c : N) (s : jsstr) : jsstr :=
  match s with
  | [] => []
  | x :: t => if (x =? c)%N then [] else x :: beforeFirst c t
  end.

(* ====================================================================== *)
(** ** Outcomes: return, throw, or no end *)
(* ====================================================================== *)

(** What a [catch] clause can receive: an instance of Error with its
    message, or any other thrown value. *)
Inductive Thrown : Type :=
| ErrorObject (message : jsstr)
| OtherValue.

(** A call returns a value, throws, or (a loop that makes no progress) does
    not come back. *)
Inductive Outcome (A : Type) : Type :=
| Returns (a : A)
| Throws (e : Thrown)
| Diverges.
Arguments Returns {A} a.
Arguments Throws {A} e.
Arguments Diverges {A}.

Definition bind {A B : Type} (m : Outcome A) (f : A -> Outcome B) : Outcome B :=
  match m with
  | Returns a => f a
  | Throws e => Throws e
  | Diverges => Diverges
  end.

Notation "x <- m ;; k" := (bind m (fun x => k))
  (at level 61, m at next level, right associativity).

(** [try { body } catch (e) { handler e }] *)
Definition tryCatch {A : Type} (body : Outcome A) (handler : Thrown -> Outcome A)
  : Outcome A :=
  match body with
  | Throws e => handler e
  | other => other
  end.

(* ====================================================================== *)
(** ** Regular expressions *)
(* ====================================================================== *)

(** Character classes. *)
Inductive cset : Type :=
| CChar (c : N)                (* a single character *)
| CRange (lo hi : N)           (* a-z *)
| CDigit                       (* \d *)
| CWord                        (* \w *)
| CSpace                       (* \s *)
| CNotSpace                    (* \S *)
| CUnion (a b : cset).

Inductive regex : Type :=
| Eps
| Chr (invert : bool) (cs : cset)   (* a character, a class, a negated class *)
| Dot                               (* . : anything but a line terminator *)
| Seq (a b : regex)
| Alt (a b : regex)
| Star (greedy : bool) (a : regex)  (* a* and a*? *)
| Group (n : nat) (a : regex)       (* the n-th capturing group *)
| Backref (n : nat)                 (* \n *)
| WordB                             (* \b *)
| NegLook (a : regex).              (* (?!a) *)

Definition isDigit (c : N) : bool := ((48 <=? c) && (c <=? 57))%N.
Definition isUpper (c : N) : bool := ((65 <=? c) && (c <=? 90))%N.
Definition isLower (c : N) : bool := ((97 <=? c) && (c <=? 122))%N.
Definition isWordChar (c : N) : bool :=
  isUpper c || isLower c || isDigit c || (c =? 95)%N.
Definition isLineTerminator (c : N) : bool :=
  ((c =? 10) || (c =? 13) || (c =? 8232) || (c =? 8233))%N.

Fixpoint cset_mem (cs : cset) (c : N) : bool :=
  match cs with
  | CChar x => (x =? c)%N
  | CRange lo hi => ((lo <=? c) && (c <=? hi))%N
  | CDigit => isDigit c
  | CWord => isWordChar c
  | CSpace => isSpace c
  | CNotSpace => negb (isSpace c)
  | CUnion a b => cset_mem a c || cset_mem b c
  end.

(** The other-case form of a Basic Latin letter.  Under the flag i two
    characters match when they canonicalize (upper-case, one code unit)
    to the same unit, and a unit outside Basic Latin never canonicalizes
    into it; every class of the catalogue is made of Basic Latin
    characters and of \w, \d, \s, \S, so a character is in a class under i
    exactly when it or its other-case form is. *)
Definition swapCase (c : N) : N :=
  if isUpper c then (c + 32)%N else if isLower c then (c - 32)%N else c.

Definition class_match (ignoreCase invert : bool) (cs : cset) (c : N) : bool :=
  let found := cset_mem cs c || (ignoreCase && cset_mem cs (swapCase c)) in
  if invert then negb found else found.

Definition char_eq (ignoreCase : bool) (a b : N) : bool :=
  (a =? b)%N || (ignoreCase && (swapCase a =? b)%N).

(** The state of a match: the index reached and the captures so far. *)
Record MState : Type := mkMState {
  endIndex : nat;
  captures : list (nat * (nat * nat))
}.

Fixpoint capture (n : nat) (caps : list (nat * (nat * nat))) : option (nat * nat) :=
  match caps with
  | [] => None
  | (m, r) :: t => if Nat.eqb m n then Some r else capture n t
  end.

Definition orElse {A : Type} (a : option A) (b : unit -> option A) : option A :=
  match a with
  | Some x => Some x
  | None => b tt
  end.

Section Matcher.
Variable input : jsstr.
Variable ignoreCase : bool.

Definition wordAt (i : nat) : bool :=
  match nth_error input i with
  | Some c => isWordChar c
  | None => false
  end.

(** IsWordChar(e - 1) differs from IsWordChar(e) *)
Definition atWordBoundary (e : nat) : bool :=
  let a := match e with 0 => false | S p => wordAt p end in
  negb (Bool.eqb a (wordAt e)).

(** Does the text [start, stop) occur again at [i]? *)
Fixpoint sameText (len start i : nat) : bool :=
  match len with
  | 0 => true
  | S len' =>
      match nth_error input start, nth_error input i with
      | Some a, Some b => char_eq ignoreCase a b && sameText len' (S start) (S i)
      | _, _ => false
      end
  end.

(** RepeatMatcher, for a repetition with no upper bound: one more
    iteration of [m] (rejected when it consumes nothing), or the
    continuation; which is tried first is what greedy and lazy mean.  An
    iteration that is kept consumes a character, so there is at most one
    per remaining character: that bound is the fuel. *)
Fixpoint repeatMatcher (m : MState -> (MState -> option MState) -> option MState)
  (greedy : bool) (c : MState -> option MState) (fuel : nat) (x : MState)
  {struct fuel} : option MState :=
  match fuel with
  | 0 => None
  | S fuel' =>
      let again (_ : unit) :=
        m x (fun y =>
          if endIndex y <=? endIndex x then None
          else repeatMatcher m greedy c fuel' y) in
      if greedy then orElse (again tt) (fun _ => c x)
      else orElse (c x) again
  end.

(** [rmatch r x c]: match [r] from state [x], then continue with [c];
    the first success in backtracking order wins. *)
Fixpoint rmatch (r : regex) (x : MState) (c : MState -> option MState)
  {struct r} : option MState :=
  match r with
  | Eps => c x
  | Chr invert cs =>
      match nth_error input (endIndex x) with
      | Some ch =>
          if class_match ignoreCase invert cs ch
          then c (mkMState (S (endIndex x)) (captures x))
          else None
      | None => None
      end
  | Dot =>
      match nth_error input (endIndex x) with
      | Some ch =>
          if isLineTerminator ch then None
          else c (mkMState (S (endIndex x)) (captures x))
      | None => None
      end
  | Seq a b => rmatch a x (fun y => rmatch b y c)
  | Alt a b => orElse (rmatch a x c) (fun _ => rmatch b x c)
  | Star greedy a =>
      repeatMatcher (rmatch a) greedy c (S (List.length input - endIndex x)) x
  | Group n a =>
      rmatch a x (fun y =>
        c (mkMState (endIndex y) ((n, (endIndex x, endIndex y)) :: captures y)))
  | Backref n =>
      match capture n (captures x) with
      | None => c x
      | Some (s, e) =>
          if sameText (e - s) s (endIndex x)
          then c (mkMState (endIndex x + (e - s)) (captures x))
          else None
      end
  | WordB => if atWordBoundary (endIndex x) then c x else None
  | NegLook a =>
      match rmatch a x Some with
      | Some _ => None
      | None => c x
      end
  end.
End Matcher.

(** A regular expression object: the pattern and the flag i (the flag g is
    the caller's way of using it: [exec] from lastIndex). *)
Record RegExp : Type := mkRegExp {
  pattern : regex;
  flag_i : bool
}.

(** The result of [exec]: where the match starts and ends, and its groups. *)
Record MatchResult : Type := mkMatch {
  index : nat;
  matchEnd : nat;
  groups : list (nat * (nat * nat))
}.

Fixpoint search (re : RegExp) (s : jsstr) (n i : nat) : option MatchResult :=
  match n with
  | 0 => None
  | S n' =>
      match rmatch s (flag_i re) (pattern re) (mkMState i []) Some with
      | Some y => Some (mkMatch i (endIndex y) (captures y))
      | None => search re s n' (S i)
      end
  end.

(** [re.exec(s)] with [re.lastIndex = lastIndex]: the first match that
    starts at or after lastIndex, if any. *)
Definition exec (re : RegExp) (s : jsstr) (lastIndex : nat) : option MatchResult :=
  search re s (S (length s) - lastIndex) lastIndex.

(** [re.test(s)] on a fresh expression *)
Definition test (re : RegExp) (s : jsstr) : bool :=
  match exec re s 0 with Some _ => true | None => false end.

Definition matched (s : jsstr) (m : MatchResult) : jsstr :=
  slice s (index m) (matchEnd m).

(** *** Writing patterns *)

Definition ch (s : string) : regex :=
  match bytes s with
  | [c] => Chr false (CChar c)
  | _ => Eps
  end.

(** A literal run of characters. *)
Fixpoint str_of (l : list N) : regex :=
  match l with
  | [] => Eps
  | [c] => Chr false (CChar c)
  | c :: t => Seq (Chr false (CChar c)) (str_of t)
  end.
Definition str (s : string) : regex := str_of (bytes s).

Fixpoint cat (l : list regex) : regex :=
  match l with
  | [] => Eps
  | [r] => r
  | r :: t => Seq r (cat t)
  end.

Fixpoint alt (l : list regex) : regex :=
  match l with
  | [] => Eps
  | [r] => r
  | r :: t => Alt r (alt t)
  end.

Definition star (r : regex) : regex := Star true r.          (* r*  *)
Definition lazy (r : regex) : regex := Star false r.         (* r*? *)
Definition plus (r : regex) : regex := Seq r (Star true r).  (* r+  *)
(** r? for an [r] that cannot match the empty text (every use below) *)
Definition opt (r : regex) : regex := Alt r Eps.
(** r{n,} and r{n}, as n copies (no operand below holds a capturing group) *)
Fixpoint atLeast (n : nat) (r : regex) : regex :=
  match n with
  | 0 => Star true r
  | S n' => Seq r (atLeast n' r)
  end.
Fixpoint times (n : nat) (r : regex) : regex :=
  match n with
  | 0 => Eps
  | 1 => r
  | S n' => Seq r (times n' r)
  end.

Definition sp : regex := Chr false CSpace.                    (* \s *)
Definition w : regex := Chr false CWord.                      (* \w *)
Definition d : regex := Chr false CDigit.                     (* \d *)
Definition anything : regex := Chr false (CUnion CSpace CNotSpace).  (* [\s\S] *)
Definition cc (s : string) : cset :=
  match bytes s with
  | [c] => CChar c
  | _ => CDigit
  end.
Definition notCh (s : string) : regex := Chr true (cc s).     (* [^c] *)
Fixpoint unions (l : list cset) : cset :=
  match l with
  | [] => CRange 1 0
  | [c] => c
  | c :: t => CUnion c (unions t)
  end.
Definition range (a b : string) : cset :=
  match bytes a, bytes b with
  | [x], [y] => CRange x y
  | _, _ => CDigit
  end.

(** [/.../gi] and [/.../i] *)
Definition rei (r : regex) : RegExp := mkRegExp r true.
(** [/.../g] and [/.../] *)
Definition res (r : regex) : RegExp := mkRegExp r false.

(** *** Loops over matches *)

(** [findAll(sql, re)]: [while ((m = global.exec(sql)) !== null) matches.push(m[0])].
    Each call of [exec] starts at the end of the previous match.  A match
    that ends where the search started leaves lastIndex unchanged and the
    loop never ends; otherwise lastIndex grows, and it is at most the
    length of the text, so a run that ends makes at most [length sql + 1]
    calls: running out of that fuel is the loop that does not end. *)
Fixpoint findAll_loop (fuel : nat) (re : RegExp) (sql : jsstr) (lastIndex : nat)
  : Outcome (list jsstr) :=
  match fuel with
  | 0 => Diverges
  | S fuel' =>
      match exec re sql lastIndex with
      | None => Returns []
      | Some m =>
          rest <- findAll_loop fuel' re sql (matchEnd m) ;;
          Returns (matched sql m :: rest)
      end
  end.

Definition findAll (sql : jsstr) (re : RegExp) : Outcome (list jsstr) :=
  findAll_loop (S (List.length sql)) re sql 0.

Definition countMatches (sql : jsstr) (re : RegExp) : Outcome nat :=
  ms <- findAll sql re ;; Returns (List.length ms).

(** After an empty match, [String.prototype.match] and [replace] with a
    global expression step one character forward. *)
Definition advance (m : MatchResult) : nat :=
  if matchEnd m =? index m then S (matchEnd m) else matchEnd m.

(** [(s.match(re) || []).length] for a global [re] *)
Fixpoint matchCount_loop (fuel : nat) (re : RegExp) (s : jsstr) (lastIndex : nat)
  : Outcome nat :=
  match fuel with
  | 0 => Diverges
  | S fuel' =>
      match exec re s lastIndex with
      | None => Returns 0
      | Some m => n <- matchCount_loop fuel' re s (advance m) ;; Returns (S n)
      end
  end.

Definition matchCount (s : jsstr) (re : RegExp) : Outcome nat :=
  matchCount_loop (S (S (List.length s))) re s 0.

(** A replacement text: literal pieces and group references ($1). *)
Inductive Piece : Type :=
| Text (t : jsstr)
| Ref (n : nat).

Definition expand (tmpl : list Piece) (s : jsstr) (m : MatchResult) : jsstr :=
  flat_map (fun p =>
    match p with
    | Text t => t
    | Ref n => match capture n (groups m) with
               | Some (a, b) => slice s a b
               | None => []
               end
    end) tmpl.

(** [s.replace(re, tmpl)] for a global [re] *)
Fixpoint replace_loop (fuel : nat) (re : RegExp) (tmpl : list Piece) (s : jsstr)
  (lastIndex nextSource : nat) : Outcome jsstr :=
  match fuel with
  | 0 => Diverges
  | S fuel' =>
      match exec re s lastIndex with
      | None => Returns (sliceFrom s nextSource)
      | Some m =>
          rest <- replace_loop fuel' re tmpl s (advance m) (matchEnd m) ;;
          Returns (slice s nextSource (index m) ++ expand tmpl s m ++ rest)
      end
  end.

Definition replace (s : jsstr) (re : RegExp) (tmpl : list Piece) : Outcome jsstr :=
  replace_loop (S (S (List.length s))) re tmpl s 0 0.

(* ====================================================================== *)
(** ** Findings (types.ts) *)
(* ====================================================================== *)

Inductive Severity : Type := error | warning | info.

Inductive Category : Type := performance | memory | network | schema | best_practice.

Record Offset : Type := mkOffset { start : nat; stop : nat }.

Record Finding : Type := mkFinding {
  ruleId : string;
  severity : Severity;
  title : jsstr;
  message : jsstr;
  suggestion : jsstr;
  category : Category;
  fragment : option jsstr;
  offset : option Offset
}.

Record AnalysisResult : Type := mkResult {
  findings : list Finding;
  parseError : option jsstr
}.

(** [finding(ruleId, severity, title, message, suggestion, category, fragment?)] *)
Definition finding (id : string) (sev : Severity) (ttl msg sugg : jsstr)
  (cat : Category) (frag : option jsstr) : Finding :=
  mkFinding id sev ttl msg sugg cat frag None.

Definition withOffset (f : Finding) (loc : Offset) : Finding :=
  mkFinding (ruleId f) (severity f) (title f) (message f) (suggestion f)
    (category f) (fragment f) (Some loc).

(* ====================================================================== *)
(** ** The parsed tree *)
(* ====================================================================== *)

(** The tree is the parser's; the rules read it field by field.  A node is
    an object with the fields the rules read, each of them possibly
    absent; a field that holds one node or an array of nodes is a [Multi],
    and [columns] is the string '*', an array, or something else. *)
Inductive Multi (A : Type) : Type :=
| Absent
| Single (a : A)
| Many (l : list A).
Arguments Absent {A}.
Arguments Single {A} a.
Arguments Many {A} l.

Inductive Columns (A : Type) : Type :=
| ColumnsStar
| ColumnsList (l : list A)
| ColumnsOther.
Arguments ColumnsStar {A}.
Arguments ColumnsList {A} l.
Arguments ColumnsOther {A}.

#[warnings="-register-all"]
Inductive Node : Type := mkNode {
  n_type : option jsstr;
  n_columns : Columns Node;
  n_from : Multi Node;
  n_where : option Node;
  n_orderby : option (list Node);
  n_limit : option Node;
  n_expr : Multi Node;
  n_ast : option Node;
  n_left : option Node;
  n_right : option Node;
  n_args : option Node;
  n_join : option jsstr;
  n_on : option Node;
  n_table : option jsstr;
  n_as : option jsstr
}.

(** What [astify] returns: one statement, an array of statements (a hole
    in it is skipped by [runRules]), or nothing. *)
Inductive AstValue : Type :=
| AstNull
| AstNode (n : Node)
| AstArray (l : list (option Node)).

(** One call of the parser: a tree, or a throw. *)
Inductive ParseOutcome : Type :=
| Parsed (v : AstValue)
| ParseThrew (e : Thrown).

Definition isSelect (ast : Node) : bool :=
  match n_type ast with
  | Some t => jsstr_eqb t (lit "select")
  | None => false
  end.

(** A string field is truthy when it is there and not empty. *)
Definition truthy (o : option jsstr) : bool :=
  match o with
  | Some (_ :: _) => true
  | _ => false
  end.

Definition present {A : Type} (m : Multi A) : bool :=
  match m with
  | Absent => false
  | _ => true
  end.

(** [Array.isArray(x) ? x : [x]] for a field that is there *)
Definition asList {A : Type} (m : Multi A) : list A :=
  match m with
  | Absent => []
  | Single a => [a]
  | Many l => l
  end.

(** [item.expr && item.expr.ast], [item.expr?.ast] *)
Definition exprAst (item : Node) : option Node :=
  match n_expr item with
  | Single e => n_ast e
  | _ => None
  end.

(* ====================================================================== *)
(** ** The catalogue of findings (rules.ts) *)
(* ====================================================================== *)

(** Each entry is one call of [finding] of the source, in source order,
    with the values its template interpolates as parameters. *)

(** [parts.join(sep)] *)
Fixpoint joinWith (sep : jsstr) (parts : list jsstr) : jsstr :=
  match parts with
  | [] => []
  | [p] => p
  | p :: rest => p ++ sep ++ joinWith sep rest
  end.

Definition F_select_star : Finding :=
  finding "select-star" warning
    (lit "SELECT * detected")
    (lit "SELECT * reads every column from the table. In columnar engines like DuckDB, this defeats column pruning and transfers unnecessary data — especially costly when reading remote Parquet files.")
    (lit "List only the columns you need: SELECT col1, col2 FROM ... You can also use SELECT * EXCLUDE (col) to drop specific columns.")
    performance (Some (lit "SELECT *")).

Definition F_select_star_item : Finding :=
  finding "select-star" warning
    (lit "SELECT * detected")
    (lit "SELECT * reads every column. In columnar engines, only select the columns you need to take advantage of column pruning.")
    (lit "List only the columns you need, or use EXCLUDE to drop unneeded columns.")
    performance (Some (lit "*")).

Definition F_order_without_limit : Finding :=
  finding "order-without-limit" warning
    (lit "ORDER BY without LIMIT")
    (lit "Sorting the entire result set requires materializing all rows in memory before returning. This is a pipeline breaker that can cause out-of-memory errors on large datasets.")
    (lit "Add a LIMIT clause if you only need a subset, or remove ORDER BY if ordering is not required. For " ++ dq ++ lit "top N" ++ dq ++ lit " queries, use LIMIT N.")
    memory (Some (lit "ORDER BY")).

Definition F_cross_join : Finding :=
  finding "cross-join" warning
    (lit "CROSS JOIN detected")
    (lit "A CROSS JOIN produces the Cartesian product of both tables (rows_a × rows_b). This is safe when one side is guaranteed to be a single row (e.g., a scalar CTE), but dangerous on large tables where it can explode memory usage.")
    (lit "Verify that at least one side of the CROSS JOIN returns a single row. If joining large tables, replace with an INNER JOIN or LEFT JOIN with a proper ON condition.")
    memory (Some (lit "CROSS JOIN")).

Definition F_deeply_nested_subquery : Finding :=
  finding "deeply-nested-subquery" warning
    (lit "Deeply nested subquery")
    (lit "Subqueries nested 3+ levels deep are hard to optimize. The query planner may not be able to flatten them, leading to repeated scans.")
    (lit "Refactor using CTEs (WITH clauses). DuckDB can auto-materialize identical CTEs, improving readability and potentially performance.")
    performance None.

Definition F_implicit_cross_join (frag : jsstr) : Finding :=
  finding "implicit-cross-join" error
    (lit "Implicit cross join (comma join without WHERE)")
    (lit "Listing tables separated by commas without a WHERE clause creates a Cartesian product. This is equivalent to CROSS JOIN and can be extremely expensive.")
    (lit "Use explicit JOIN syntax with ON conditions: FROM a JOIN b ON a.id = b.id")
    memory (Some (frag)).

Definition F_join_without_on (frag : jsstr) : Finding :=
  finding "join-without-on" warning
    (lit "JOIN without ON condition")
    (lit "A JOIN without an ON condition may produce a Cartesian product or rely on implicit behavior.")
    (lit "Always specify an explicit ON condition for joins.")
    performance (Some (frag)).

Definition F_non_spillable_list (count : nat) (frag : jsstr) : Finding :=
  finding "non-spillable-list" error
    (lit "list() aggregate cannot spill to disk (" ++ numToStr count ++ lit "x)")
    (lit "The list() aggregate function is used " ++ numToStr count ++ lit " time(s) in this query. Per DuckDB docs, list() cannot offload intermediate state to disk. On large datasets, this will cause out-of-memory crashes — especially on MotherDuck Ducklings with fixed memory limits.")
    (lit "Consider whether you can: (1) pre-filter data before aggregating with list(), (2) add a LIMIT or WHERE to reduce input rows, (3) use string_agg() if you only need a concatenated string (though it has the same spill limitation), or (4) break the query into smaller batches.")
    memory (Some (frag)).

Definition F_non_spillable_list_distinct (frag : jsstr) : Finding :=
  finding "non-spillable-list-distinct" error
    (lit "LIST(DISTINCT ...) — double memory pressure")
    (lit "LIST(DISTINCT ...) combines two non-spillable operations: deduplication and list accumulation. The DISTINCT requires a hash set in memory AND the resulting list is accumulated in memory. Neither can spill to disk.")
    (lit "If you only need the distinct values as a comma-separated string, consider string_agg(DISTINCT ...) — though it also cannot spill. Better: reduce the input dataset first with a GROUP BY in a prior CTE.")
    memory (Some (frag)).

Definition F_non_spillable_string_agg : Finding :=
  finding "non-spillable-string-agg" warning
    (lit "string_agg() cannot spill to disk")
    (lit "The string_agg() function cannot offload intermediate state to disk. On large datasets with many groups or large string values, this can exhaust memory.")
    (lit "Pre-filter or limit input data before applying string_agg(). Consider whether you actually need string concatenation or if an array (list) return is acceptable.")
    memory (Some (lit "string_agg(")).

Definition F_non_spillable_ordered_agg (frag : jsstr) : Finding :=
  finding "non-spillable-ordered-agg" warning
    (lit "Ordered aggregate (ORDER BY inside aggregate)")
    (lit "Aggregate functions with an ORDER BY clause (e.g., LIST(... ORDER BY ...)) are " ++ dq ++ lit "holistic" ++ dq ++ lit " — they must see all input before producing output. DuckDB cannot spill these complex intermediate states to disk.")
    (lit "If ordering within the aggregate is not critical, remove the ORDER BY. Otherwise, ensure the input dataset is small or pre-sorted.")
    memory (Some (frag)).

Definition F_many_blocking_operators_error (totalBlockingOps orderByCount windowFuncCount groupByCount : nat) : Finding :=
  finding "many-blocking-operators" error
    (numToStr totalBlockingOps ++ lit " blocking operators detected")
    (lit "This query contains " ++ numToStr orderByCount ++ lit " ORDER BY, " ++ numToStr windowFuncCount ++ lit " window function (OVER), and " ++ numToStr groupByCount ++ lit " GROUP BY operations. Each is a blocking/pipeline-breaking operator that buffers data in memory. Per DuckDB docs: " ++ dq ++ lit "If multiple blocking operators appear in the same query, DuckDB may still throw an out-of-memory exception due to the complex interplay of these operators." ++ dq)
    (lit "Consider breaking this query into multiple sequential queries, materializing intermediate results into temp tables. This lets DuckDB release memory between steps rather than holding all intermediate states simultaneously.")
    memory None.

Definition F_many_blocking_operators_warning (totalBlockingOps orderByCount windowFuncCount groupByCount : nat) : Finding :=
  finding "many-blocking-operators" warning
    (numToStr totalBlockingOps ++ lit " blocking operators in one query")
    (lit "This query has " ++ numToStr orderByCount ++ lit " ORDER BY, " ++ numToStr windowFuncCount ++ lit " window functions, and " ++ numToStr groupByCount ++ lit " GROUP BY operations. Each is a pipeline breaker that buffers data in memory. Combined, they increase the risk of out-of-memory errors.")
    (lit "Consider materializing intermediate CTEs into temp tables to reduce peak memory usage, or break the query into sequential steps.")
    memory None.

Definition F_heavy_json_extraction (totalJsonOps : nat) : Finding :=
  finding "heavy-json-extraction" warning
    (lit "Heavy JSON extraction (" ++ numToStr totalJsonOps ++ lit " operations)")
    (lit "This query performs " ++ numToStr totalJsonOps ++ lit " JSON extraction operations (->> and ->). Each extraction parses the JSON blob, and when applied repeatedly to the same column across many rows, this multiplies CPU and memory usage. JSON values are stored as strings, so they're also not columnar-efficient.")
    (lit "Consider: (1) Extract JSON fields into typed columns at ingest time (CREATE TABLE ... AS SELECT payload->>'field' AS field ...), (2) Use json_extract with multiple paths in a single call, or (3) Move JSON parsing into a dedicated CTE and reference the extracted columns downstream.")
    performance (Some (lit "->>")).

Definition F_moderate_json_extraction (totalJsonOps : nat) : Finding :=
  finding "moderate-json-extraction" info
    (lit "Moderate JSON extraction (" ++ numToStr totalJsonOps ++ lit " operations)")
    (lit "This query performs " ++ numToStr totalJsonOps ++ lit " JSON extraction operations. While manageable, each parses the JSON blob independently. On wide JSON payloads, this can add significant CPU overhead.")
    (lit "Consider extracting commonly-accessed JSON fields into typed columns at ingest time for better performance.")
    performance (Some (lit "->>")).

Definition F_json_each_expansion : Finding :=
  finding "json-each-expansion" warning
    (lit "json_each() row expansion")
    (lit "json_each() explodes a JSON array or object into rows. If the JSON contains many elements, this can dramatically multiply the row count and memory usage, especially when combined with subsequent aggregation or sorting.")
    (lit "Filter the JSON array before expanding if possible, or apply LIMIT/WHERE immediately after the json_each() to keep the expanded result set small.")
    memory (Some (lit "json_each(")).

Definition F_json_array_extract : Finding :=
  finding "json-array-extract" info
    (lit "JSON array wildcard extraction")
    (lit "json_extract_string() with a [*] wildcard path extracts all array elements. This creates a list in memory and, when combined with list_transform(), adds further memory pressure.")
    (lit "If you only need a subset of array elements, filter before extraction. Consider flattening JSON arrays into separate rows at ingest time.")
    memory None.

Definition F_repeated_order_limit_1 (n : nat) (frag : jsstr) : Finding :=
  finding "repeated-order-limit-1" warning
    (lit "ORDER BY ... DESC LIMIT 1 repeated " ++ numToStr n ++ lit "x")
    (lit "This query uses the ORDER BY ... DESC LIMIT 1 pattern " ++ numToStr n ++ lit " times to get the " ++ dq ++ lit "latest" ++ dq ++ lit " row. Each instance requires a full sort of the input. This is a common source of unnecessary memory usage and is especially costly in CTEs since DuckDB materializes each one.")
    (lit "Replace with arg_max(): SELECT arg_max(col, observed_at) FROM table. For multiple columns, use arg_max(struct_pack(col1, col2, ...), observed_at). This avoids the sort entirely.")
    performance (Some (frag)).

Definition F_use_arg_max : Finding :=
  finding "use-arg-max" info
    (lit "Consider arg_max() instead of ROW_NUMBER() window")
    (lit "Using ROW_NUMBER() OVER (... ORDER BY ...) filtered to = 1 to get the " ++ dq ++ lit "latest" ++ dq ++ lit " or " ++ dq ++ lit "best" ++ dq ++ lit " row per group requires a full window sort — a blocking operator that buffers all rows. DuckDB's arg_max()/arg_min() achieves the same result more efficiently.")
    (lit "Replace with: SELECT key, arg_max(value_col, order_col) FROM ... GROUP BY key. For multiple columns: arg_max(struct_pack(col1, col2), order_col).")
    performance (Some (lit "ROW_NUMBER()")).

Definition F_leading_wildcard_like (frag : jsstr) : Finding :=
  finding "leading-wildcard-like" warning
    (lit "LIKE with leading wildcard")
    (lit "A LIKE pattern starting with '%' prevents DuckDB from using zone maps or min/max statistics for filtering, forcing a full column scan.")
    (lit "If possible, use a trailing-only wildcard (LIKE 'prefix%'), use CONTAINS() or regexp_matches() for clarity, or consider a full-text search approach.")
    performance (Some (frag)).

Definition F_function_on_filter_column : Finding :=
  finding "function-on-filter-column" warning
    (lit "Function applied to column in WHERE clause")
    (lit "Wrapping a column in a function (e.g., UPPER(name) = ..., YEAR(created_at) = ...) prevents filter pushdown and forces DuckDB to evaluate every row.")
    (lit "Store pre-computed values in the table or rewrite the condition to keep the column bare. For example, instead of YEAR(dt) = 2024, use dt >= '2024-01-01' AND dt < '2025-01-01'.")
    performance None.

Definition F_distinct_star : Finding :=
  finding "distinct-star" warning
    (lit "SELECT DISTINCT *")
    (lit "DISTINCT * forces DuckDB to hash or sort ALL columns to find unique rows. This is extremely memory-intensive and rarely intentional.")
    (lit "Select only the columns you need uniqueness on, or reconsider whether DISTINCT is necessary (maybe GROUP BY is more appropriate).")
    memory (Some (lit "SELECT DISTINCT *")).

Definition F_union_without_all : Finding :=
  finding "union-without-all" info
    (lit "UNION without ALL")
    (lit "UNION (without ALL) removes duplicate rows by hashing the entire result set. If duplicates are acceptable or impossible, this is wasted work.")
    (lit "Use UNION ALL if you don't need deduplication. Also consider UNION BY NAME for tables with different column orders.")
    performance (Some (lit "UNION")).

Definition F_count_distinct (n : nat) (frag : jsstr) : Finding :=
  finding "count-distinct" info
    (lit "COUNT(DISTINCT ...) detected (" ++ numToStr n ++ lit "x)")
    (lit "COUNT(DISTINCT) appears " ++ numToStr n ++ lit " time(s). Each builds a hash set of all unique values in memory. On high-cardinality columns this is very memory-intensive.")
    (lit "If an approximate count is acceptable, consider using APPROX_COUNT_DISTINCT() which uses HyperLogLog and far less memory.")
    memory (Some (frag)).

Definition F_not_in_subquery : Finding :=
  finding "not-in-subquery" warning
    (lit "NOT IN with subquery")
    (lit "NOT IN with a subquery can be slow because it may prevent the optimizer from using an anti-join. It also has surprising NULL semantics — if the subquery returns any NULL, the entire NOT IN evaluates to NULL/false.")
    (lit "Use NOT EXISTS (SELECT 1 FROM ... WHERE ...) instead, or a LEFT JOIN ... WHERE right.id IS NULL anti-join pattern.")
    performance (Some (lit "NOT IN (SELECT")).

Definition F_correlated_subquery : Finding :=
  finding "correlated-subquery" error
    (lit "Possible correlated subquery")
    (lit "A correlated subquery in the SELECT list or WHERE clause re-executes for every row of the outer query. This is extremely slow on large tables.")
    (lit "Rewrite as a JOIN or use a CTE. For example: WITH sub AS (SELECT ...) SELECT ... FROM main JOIN sub ON ...")
    performance (Some (lit "correlated subquery")).

Definition F_insert_select_star : Finding :=
  finding "insert-select-star" info
    (lit "INSERT INTO ... SELECT *")
    (lit "Large INSERT ... SELECT operations preserve insertion order by default, which requires buffering the entire result. This can cause OOM on large datasets.")
    (lit "Run SET preserve_insertion_order = false; before the insert if row order doesn't matter. This significantly reduces memory usage.")
    memory (Some (lit "INSERT INTO ... SELECT *")).

Definition F_many_ctes_warning (cteCount : nat) : Finding :=
  finding "many-ctes" warning
    (numToStr cteCount ++ lit " CTEs detected")
    (lit "This query has " ++ numToStr cteCount ++ lit " CTEs. DuckDB materializes each CTE, meaning all intermediate results are held in memory simultaneously. With " ++ numToStr cteCount ++ lit " CTEs — each potentially containing blocking operators like ORDER BY or GROUP BY — the combined memory footprint can be substantial.")
    (lit "Consider breaking this into multiple sequential queries with CREATE TEMP TABLE to materialize intermediate results, allowing DuckDB to release memory between stages. Focus on CTEs that produce large intermediate results.")
    memory None.

Definition F_many_ctes_info (cteCount : nat) : Finding :=
  finding "many-ctes" info
    (numToStr cteCount ++ lit " CTEs detected")
    (lit "This query has " ++ numToStr cteCount ++ lit " CTEs. DuckDB materializes each CTE. While CTEs improve readability, excessive CTEs may increase peak memory usage.")
    (lit "Consider whether some CTEs can be inlined or merged. DuckDB auto-materializes duplicate CTEs, so focus on eliminating unused ones.")
    memory None.

Definition F_window_without_qualify : Finding :=
  finding "window-without-qualify" info
    (lit "Window function filtered in WHERE instead of QUALIFY")
    (lit "DuckDB supports QUALIFY, which filters on window function results directly — no subquery needed. Using WHERE on a window function result requires wrapping in a subquery.")
    (lit "Use QUALIFY instead: SELECT ... FROM ... QUALIFY ROW_NUMBER() OVER (...) <= N")
    best_practice None.

Definition F_excessive_casts (n : nat) : Finding :=
  finding "excessive-casts" info
    (numToStr n ++ lit " type cast operations")
    (lit "This query has " ++ numToStr n ++ lit " explicit type casts. This often means data is stored as JSON or VARCHAR and cast at query time. Each cast adds CPU overhead and prevents DuckDB from using native type optimizations.")
    (lit "Store data in native types (BOOLEAN, INTEGER, TIMESTAMP, etc.) at ingest time. For JSON payloads, consider extracting frequently-queried fields into typed columns.")
    schema None.

Definition F_md_local_remote_transfer : Finding :=
  finding "md-local-remote-transfer" warning
    (lit "Possible large local-to-cloud data transfer")
    (lit "Reading local files (read_csv, read_parquet) and joining with MotherDuck cloud tables causes data to be uploaded via Bridge. Large local files will bottleneck on network upload speed.")
    (lit "Consider uploading the local data to MotherDuck first (CREATE TABLE ... AS SELECT * FROM read_csv(...)), then join cloud-to-cloud for better performance.")
    network None.

Definition F_group_by_verbose : Finding :=
  finding "group-by-verbose" info
    (lit "Verbose GROUP BY")
    (lit "DuckDB supports GROUP BY ALL which automatically groups by all non-aggregated columns. This reduces errors when modifying the SELECT list.")
    (lit "Replace the explicit column list with GROUP BY ALL for convenience.")
    best_practice None.

Definition F_remote_file_select_star : Finding :=
  finding "remote-file-select-star" error
    (lit "SELECT * from remote file")
    (lit "Reading all columns from a remote Parquet/CSV file downloads the entire file over the network. This is extremely slow for wide tables.")
    (lit "Select only the columns you need. For remote Parquet, DuckDB can do column pruning and predicate pushdown — but only if you specify columns and WHERE filters.")
    network None.

Definition F_md_duckling_size : Finding :=
  finding "md-duckling-size" info
    (lit "Consider a larger Duckling size")
    (lit "If this query runs out of memory on MotherDuck, consider upgrading from Pulse to Standard, Jumbo, Mega, or Giga Ducklings for more memory.")
    (lit "Change your Duckling size in MotherDuck settings. Also try SET preserve_insertion_order = false; and SET temp_directory to enable spilling.")
    memory None.

Definition F_list_transform : Finding :=
  finding "list-transform" info
    (lit "list_transform() — in-memory list processing")
    (lit "list_transform() applies a lambda to every element of a list in memory. When combined with other list operations (list_concat, flatten, array_to_string), the entire chain is non-spillable.")
    (lit "Consider whether this transformation can be done at ingest time or via a simpler SQL expression. For string building, a CTE with UNNEST + string_agg may give the optimizer more room.")
    memory (Some (lit "list_transform(")).

Definition F_non_spillable_pivot : Finding :=
  finding "non-spillable-pivot" error
    (lit "PIVOT uses list() internally — cannot spill to disk")
    (lit "DuckDB's PIVOT statement internally uses the list() aggregate to collect values before spreading them into columns. Since list() cannot spill to disk, PIVOT on large datasets or high-cardinality pivot columns will cause out-of-memory crashes. This is documented in the DuckDB " ++ dq ++ lit "Tuning Workloads" ++ dq ++ lit " guide as a non-spillable operator.")
    (lit "Consider: (1) pre-filter or pre-aggregate data before pivoting to reduce input size, (2) limit the number of distinct pivot values with a WHERE or IN clause on the pivot column, (3) break the pivot into smaller batches by partitioning the data, or (4) use a manual CASE WHEN approach: SUM(CASE WHEN flag = 'X' THEN 1 ELSE 0 END) AS x — which uses only spillable operators.")
    memory (Some (lit "pivot")).

Definition F_many_left_join_on_true (leftJoinOnTrue : nat) : Finding :=
  finding "many-left-join-on-true" info
    (numToStr leftJoinOnTrue ++ lit " LEFT JOIN ... ON TRUE")
    (lit "This query uses LEFT JOIN ... ON TRUE " ++ numToStr leftJoinOnTrue ++ lit " times to combine CTE results. This is a valid pattern when each CTE returns a single row, but if any CTE unexpectedly returns multiple rows, the result will silently multiply.")
    (lit "Consider adding an assertion or defensive LIMIT 1 to CTEs that are expected to return a single row. Alternatively, use scalar subqueries in the final SELECT.")
    best_practice None.

Definition F_non_spillable_median (count : nat) (frag : jsstr) : Finding :=
  finding "non-spillable-median" warning
    (lit "Non-spillable ordered-set aggregate (" ++ numToStr count ++ lit "x)")
    (lit "This query uses " ++ numToStr count ++ lit " ordered-set aggregate(s) (MEDIAN, QUANTILE, PERCENTILE_CONT/DISC, or MODE). These functions must sort all input values in memory to compute exact results and cannot spill to disk. On large datasets or high-cardinality groups, this causes OOM crashes.")
    (lit "Use APPROX_QUANTILE(col, 0.5) instead of MEDIAN() for approximate results with bounded memory. For MODE(), pre-aggregate with COUNT(" ++ lit "*" ++ lit ") and take the top row. Pre-filter data to reduce input size.")
    memory (Some (frag)).

Definition F_unnest_large_expansion (frag : jsstr) : Finding :=
  finding "unnest-large-expansion" warning
    (lit "UNNEST() may cause large row expansion")
    (lit "UNNEST() on a column explodes array values into individual rows. If arrays are large, row counts and memory usage can multiply dramatically — especially when combined with subsequent joins or aggregations.")
    (lit "Filter rows before UNNEST to limit input size. Consider using list functions (list_filter, list_transform) to process arrays without expanding them into rows.")
    memory (Some (frag)).

Definition F_recursive_cte_no_limit : Finding :=
  finding "recursive-cte-no-limit" warning
    (lit "Recursive CTE without termination guard")
    (lit "WITH RECURSIVE without a LIMIT, depth counter, or USING KEY clause risks infinite recursion. DuckDB will keep expanding rows until memory is exhausted, causing an OOM crash.")
    (lit "Add a depth counter (e.g., depth + 1 in the recursive term and WHERE depth < N), add a LIMIT clause, or use USING KEY to avoid revisiting rows.")
    memory (Some (lit "WITH RECURSIVE")).

Definition F_ctas_memory : Finding :=
  finding "ctas-memory" info
    (lit "CREATE TABLE AS SELECT materializes fully in memory")
    (lit "CREATE TABLE ... AS SELECT (CTAS) materializes the entire query result before writing to disk because DuckDB preserves insertion order by default. For large result sets, this can exhaust memory.")
    (lit "Run SET preserve_insertion_order = false; before the CTAS to allow streaming writes with significantly less memory. This is safe when row order does not matter.")
    memory (Some (lit "CREATE TABLE")).

Definition F_large_in_list (frag : jsstr) : Finding :=
  finding "large-in-list" warning
    (lit "Large IN list (50+ values)")
    (lit "An IN clause with 50+ literal values adds significant parse overhead and usually indicates a missing dimension table. The parser must process every value, and the resulting filter cannot benefit from join optimizations.")
    (lit "Load the values into a CTE or temp table and use a SEMI JOIN (WHERE EXISTS or INNER JOIN) instead: WITH vals AS (SELECT UNNEST([...]) AS v) SELECT ... FROM t WHERE t.col IN (SELECT v FROM vals).")
    performance (Some (frag)).

Definition F_read_remote_no_filter : Finding :=
  finding "read-remote-no-filter" warning
    (lit "Remote file scan without WHERE filter")
    (lit "Reading remote files (S3, HTTP, GCS) without a WHERE clause downloads all row groups. DuckDB can push down predicates to skip row groups in remote Parquet files via min/max statistics, but only if you provide a filter.")
    (lit "Add a WHERE clause on partition or sort columns to enable predicate pushdown and row group skipping. This can dramatically reduce the amount of data transferred over the network.")
    network None.

Definition F_multiple_remote_scans (n : nat) (frag : jsstr) : Finding :=
  finding "multiple-remote-scans" warning
    (numToStr n ++ lit " remote file scans in one query")
    (lit "This query reads from " ++ numToStr n ++ lit " remote files. Each remote scan incurs network latency, and DuckDB must coordinate multiple HTTP connections in parallel. Combined bandwidth and round-trip delays compound, especially for large files.")
    (lit "Materialize dimension tables into local or MotherDuck tables first (CREATE TABLE dim AS SELECT ... FROM read_parquet('s3://...')), then join against the local copy. This avoids repeated remote fetches.")
    network (Some (frag)).

Definition F_glob_many_files : Finding :=
  finding "glob-many-files" info
    (lit "Deep glob pattern (" ++ lit "**" ++ lit ") on remote files")
    (lit "Using ** in a remote file path triggers recursive directory listing, which requires many network round-trips to enumerate all files. This can be very slow on deep directory structures, especially on S3 where each LIST operation has latency.")
    (lit "Use Hive-style partitioning (e.g., read_parquet('s3://bucket/table/*/*.parquet', hive_partitioning=true)) or narrow the glob to specific subdirectories to reduce the number of LIST calls.")
    performance None.

Definition F_temporal_join_via_window : Finding :=
  finding "temporal-join-via-window" info
    (lit "Consider ASOF JOIN for temporal matching")
    (lit "This query appears to use an inequality join combined with a window function (ROW_NUMBER, LAST_VALUE) to find the " ++ dq ++ lit "nearest" ++ dq ++ lit " or " ++ dq ++ lit "most recent" ++ dq ++ lit " match. DuckDB natively supports ASOF JOIN, which is purpose-built for this pattern and is faster and uses less memory.")
    (lit "Rewrite as: SELECT * FROM events ASOF JOIN prices ON events.ts >= prices.ts. ASOF JOIN efficiently finds the nearest match without the window function overhead.")
    performance (Some (lit "ASOF JOIN")).

Definition F_or_chain_instead_of_in : Finding :=
  finding "or-chain-instead-of-in" info
    (lit "OR chain can be simplified to IN (...)")
    (lit "Multiple OR conditions on the same column (col = 'a' OR col = 'b' OR ...) are verbose and harder to read. DuckDB optimizes IN lists into efficient hash lookups.")
    (lit "Replace with: col IN ('a', 'b', 'c', 'd'). This is more readable and may be optimized differently by the query planner.")
    best_practice None.

Definition F_between_timestamp : Finding :=
  finding "between-timestamp" info
    (lit "BETWEEN on temporal column")
    (lit "BETWEEN uses a closed-closed interval ([start, end]), which includes both boundary values. For temporal data, this causes boundary rows to appear in two adjacent bins (e.g., a row at midnight belongs to both " ++ dq ++ lit "yesterday" ++ dq ++ lit " and " ++ dq ++ lit "today" ++ dq ++ lit "). This is a common source of double-counting in time-series analysis.")
    (lit "Use half-open intervals instead: col >= '2024-01-01' AND col < '2024-02-01'. This ensures each row belongs to exactly one bin.")
    best_practice None.

Definition F_chained_select_star : Finding :=
  finding "chained-select-star" info
    (lit "SELECT * chained through multiple CTEs")
    (lit "Using SELECT * in multiple CTEs and the final query defeats column pruning at every materialization stage. DuckDB materializes each CTE, so every column is carried through every intermediate step even if only a few columns are needed at the end.")
    (lit "Specify only the needed columns in early CTEs to enable column pruning. You can also use SELECT * EXCLUDE (col1, col2) to drop unneeded columns early in the pipeline.")
    performance None.

Definition F_md_cross_database_join (n : nat) (dbPrefixes : list jsstr) : Finding :=
  finding "md-cross-database-join" info
    (lit "Cross-database join detected")
    (lit "This query references tables from " ++ numToStr n ++ lit " different databases (" ++ joinWith (lit ", ") dbPrefixes ++ lit "). On MotherDuck, cross-database joins may require transferring data between storage locations, adding network overhead.")
    (lit "If both databases are on MotherDuck, consider consolidating frequently-joined tables into the same database. If one side is small, materialize it locally first.")
    network None.

(* ====================================================================== *)
(** ** The patterns of the rules and of the normalizer *)
(* ====================================================================== *)

Definition ws0 : regex := star sp.   (* \s* *)
Definition ws1 : regex := plus sp.   (* \s+ *)
Definition quote : regex := Chr false (CChar 39).     (* ' *)
Definition dquote : regex := Chr false (CChar 34).    (* the double quote *)
Definition notQuote : regex := Chr true (CChar 39).   (* [^'] *)
Definition newline : regex := Chr false (CChar 10).   (* \n *)

(** 1. "/\blist\s*\(/gi" and "/\bLIST\s*\(\s*DISTINCT\b/gi" *)
Definition re_list : RegExp := rei (cat [WordB; str "list"; ws0; ch "("]).
Definition re_list_distinct : RegExp :=
  rei (cat [WordB; str "LIST"; ws0; ch "("; ws0; str "DISTINCT"; WordB]).
(** 2. "/\bstring_agg\s*\(/i" *)
Definition re_string_agg : RegExp := rei (cat [WordB; str "string_agg"; ws0; ch "("]).
(** 3. "/\b(?:list|string_agg|array_agg|LIST)\s*\([^)]*ORDER\s+BY\b/gi" *)
Definition re_agg_order_by : RegExp :=
  rei (cat [WordB; alt [str "list"; str "string_agg"; str "array_agg"; str "LIST"];
            ws0; ch "("; star (notCh ")"); str "ORDER"; ws1; str "BY"; WordB]).
(** 4. "/\bORDER\s+BY\b/gi", "/\bOVER\s*\(/gi", "/\bGROUP\s+BY\b/gi" *)
Definition re_order_by : RegExp := rei (cat [WordB; str "ORDER"; ws1; str "BY"; WordB]).
Definition re_over : RegExp := rei (cat [WordB; str "OVER"; ws0; ch "("]).
Definition re_group_by : RegExp := rei (cat [WordB; str "GROUP"; ws1; str "BY"; WordB]).
(** 5. "/->>/g" and "/->[^>]/g" *)
Definition re_arrow_text : RegExp := res (str "->>").
Definition re_arrow_obj : RegExp := res (cat [str "->"; notCh ">"]).
(** 6. "/\bjson_each\s*\(/i" *)
Definition re_json_each : RegExp := rei (cat [WordB; str "json_each"; ws0; ch "("]).
(** 7. "/json_extract_string\s*\([^)]*\$\.\w+\[\*\]/i" *)
Definition re_json_array : RegExp :=
  rei (cat [str "json_extract_string"; ws0; ch "("; star (notCh ")"); ch "$"; ch ".";
            plus w; ch "["; ch "*"; ch "]"]).
(** 8. "/ORDER\s+BY\s+\w+(?:\.\w+)?\s+DESC\s*\n\s*LIMIT\s+1/gi" *)
Definition re_order_limit_1 : RegExp :=
  rei (cat [str "ORDER"; ws1; str "BY"; ws1; plus w; opt (cat [ch "."; plus w]); ws1;
            str "DESC"; ws0; newline; ws0; str "LIMIT"; ws1; ch "1"]).
(** 9. "/ROW_NUMBER\s*\(\s*\)\s*OVER\s*\([^)]*ORDER\s+BY\b/gi" and
       "/(?:row_number|rn|id_verification_response_row_number)\s*(?:=|<=)\s*[12]\b/i" *)
Definition re_window_for_latest : RegExp :=
  rei (cat [str "ROW_NUMBER"; ws0; ch "("; ws0; ch ")"; ws0; str "OVER"; ws0; ch "(";
            star (notCh ")"); str "ORDER"; ws1; str "BY"; WordB]).
Definition re_rank_filter : RegExp :=
  rei (cat [alt [str "row_number"; str "rn"; str "id_verification_response_row_number"];
            ws0; alt [ch "="; str "<="]; ws0; Chr false (unions [cc "1"; cc "2"]); WordB]).
(** 10. "/LIKE\s+'%[^']*%'/gi" *)
Definition re_like : RegExp :=
  rei (cat [str "LIKE"; ws1; quote; ch "%"; star notQuote; ch "%"; quote]).
(** 11. "/WHERE\s+(?:.*?\s+AND\s+|.*?\s+OR\s+)*(?:UPPER|LOWER|TRIM|CAST|EXTRACT|DATE_TRUNC|YEAR|MONTH|DAY|STRFTIME|LENGTH|SUBSTRING|REPLACE)\s*\([^)]*\)\s*(?:=|!=|<|>|<=|>=|LIKE|IN)/gi" *)
Definition re_func_in_where : RegExp :=
  rei (cat [str "WHERE"; ws1;
            star (alt [cat [lazy Dot; ws1; str "AND"; ws1];
                       cat [lazy Dot; ws1; str "OR"; ws1]]);
            alt [str "UPPER"; str "LOWER"; str "TRIM"; str "CAST"; str "EXTRACT";
                 str "DATE_TRUNC"; str "YEAR"; str "MONTH"; str "DAY"; str "STRFTIME";
                 str "LENGTH"; str "SUBSTRING"; str "REPLACE"];
            ws0; ch "("; star (notCh ")"); ch ")"; ws0;
            alt [ch "="; str "!="; ch "<"; ch ">"; str "<="; str ">="; str "LIKE";
                 str "IN"]]).
(** 12. "/SELECT\s+DISTINCT\s+\*/i" *)
Definition re_distinct_star : RegExp :=
  rei (cat [str "SELECT"; ws1; str "DISTINCT"; ws1; ch "*"]).
(** 13. "/\bUNION\b(?!\s+ALL\b)/gi" *)
Definition re_union : RegExp :=
  rei (cat [WordB; str "UNION"; WordB; NegLook (cat [ws1; str "ALL"; WordB])]).
(** 14. "/COUNT\s*\(\s*DISTINCT\b/gi" *)
Definition re_count_distinct : RegExp :=
  rei (cat [str "COUNT"; ws0; ch "("; ws0; str "DISTINCT"; WordB]).
(** 15. "/NOT\s+IN\s*\(\s*SELECT/i" *)
Definition re_not_in : RegExp :=
  rei (cat [str "NOT"; ws1; str "IN"; ws0; ch "("; ws0; str "SELECT"]).
(** 16. "/SELECT\s[\s\S]*?\(\s*SELECT\b[\s\S]*?WHERE[\s\S]*?\.\w+\s*=\s*\w+\.\w+/i" *)
Definition re_correlated : RegExp :=
  rei (cat [str "SELECT"; sp; lazy anything; ch "("; ws0; str "SELECT"; WordB;
            lazy anything; str "WHERE"; lazy anything; ch "."; plus w; ws0; ch "=";
            ws0; plus w; ch "."; plus w]).
(** 17. "/INSERT\s+INTO\b[\s\S]*?SELECT\s+\*/i" *)
Definition re_insert_select_star : RegExp :=
  rei (cat [str "INSERT"; ws1; str "INTO"; WordB; lazy anything; str "SELECT"; ws1;
            ch "*"]).
(** 18. "/\bAS\s*\(/g" *)
Definition re_as_paren : RegExp := res (cat [WordB; str "AS"; ws0; ch "("]).
(** 19. "/\b(ROW_NUMBER|RANK|DENSE_RANK|NTILE|LAG|LEAD|FIRST_VALUE|LAST_VALUE)\s*\(/i",
        "/\bQUALIFY\b/i" and "/WHERE\b[\s\S]*?\b(ROW_NUMBER|RANK|DENSE_RANK)\b/i" *)
Definition re_window_func : RegExp :=
  rei (cat [WordB;
            Group 1 (alt [str "ROW_NUMBER"; str "RANK"; str "DENSE_RANK"; str "NTILE";
                          str "LAG"; str "LEAD"; str "FIRST_VALUE"; str "LAST_VALUE"]);
            ws0; ch "("]).
Definition re_qualify : RegExp := rei (cat [WordB; str "QUALIFY"; WordB]).
Definition re_where_on_window : RegExp :=
  rei (cat [str "WHERE"; WordB; lazy anything; WordB;
            Group 1 (alt [str "ROW_NUMBER"; str "RANK"; str "DENSE_RANK"]); WordB]).
(** 20. "/(?:CAST\s*\([^)]+AS\s+(?:BOOLEAN|INTEGER|DOUBLE|BIGINT|DATE|TIMESTAMP)\s*\)|::\s*(?:BOOLEAN|INTEGER|DOUBLE|BIGINT|TIMESTAMPTZ?)\b)/gi" *)
Definition re_cast : RegExp :=
  rei (alt [cat [str "CAST"; ws0; ch "("; plus (notCh ")"); str "AS"; ws1;
                 alt [str "BOOLEAN"; str "INTEGER"; str "DOUBLE"; str "BIGINT";
                      str "DATE"; str "TIMESTAMP"];
                 ws0; ch ")"];
            cat [str "::"; ws0;
                 alt [str "BOOLEAN"; str "INTEGER"; str "DOUBLE"; str "BIGINT";
                      cat [str "TIMESTAMPT"; opt (ch "Z")]];
                 WordB]]).
(** 21. "/FROM\s+read_(?:csv|parquet|json)\s*\(/i" and "/\bmd:/i" *)
Definition re_from_read : RegExp :=
  rei (cat [str "FROM"; ws1; str "read_"; alt [str "csv"; str "parquet"; str "json"];
            ws0; ch "("]).
Definition re_md : RegExp := rei (cat [WordB; str "md:"]).
(** 22. "/GROUP\s+BY\s+(?!ALL\b)\w+(?:\s*,\s*\w+){3,}/gi" *)
Definition re_group_by_verbose : RegExp :=
  rei (cat [str "GROUP"; ws1; str "BY"; ws1; NegLook (cat [str "ALL"; WordB]); plus w;
            atLeast 3 (cat [ws0; ch ","; ws0; plus w])]).
(** 23. "/FROM\s+(?:read_parquet|read_csv|read_json)\s*\(\s*'https?:/i" and "/SELECT\s+\*/i" *)
Definition re_from_http : RegExp :=
  rei (cat [str "FROM"; ws1; alt [str "read_parquet"; str "read_csv"; str "read_json"];
            ws0; ch "("; ws0; quote; str "http"; opt (ch "s"); ch ":"]).
Definition re_select_star : RegExp := rei (cat [str "SELECT"; ws1; ch "*"]).
(** 25. "/\blist_transform\s*\(/i" *)
Definition re_list_transform : RegExp :=
  rei (cat [WordB; str "list_transform"; ws0; ch "("]).
(** 26. "/\bPIVOT\b/i", "/\bUNPIVOT\b/i" and "/\bPIVOT\b[\s\S]*?\bUSING\b/i" *)
Definition re_pivot_word : RegExp := rei (cat [WordB; str "PIVOT"; WordB]).
Definition re_unpivot_word : RegExp := rei (cat [WordB; str "UNPIVOT"; WordB]).
Definition re_pivot_using : RegExp :=
  rei (cat [WordB; str "PIVOT"; WordB; lazy anything; WordB; str "USING"; WordB]).
(** 27. "/LEFT\s+JOIN\s+\w+\s+ON\s+TRUE/gi" *)
Definition re_left_join_on_true : RegExp :=
  rei (cat [str "LEFT"; ws1; str "JOIN"; ws1; plus w; ws1; str "ON"; ws1; str "TRUE"]).
(** 28. "/\b(?:MEDIAN|QUANTILE|PERCENTILE_CONT|PERCENTILE_DISC|MODE)\s*\(/gi" *)
Definition re_ordered_set_agg : RegExp :=
  rei (cat [WordB;
            alt [str "MEDIAN"; str "QUANTILE"; str "PERCENTILE_CONT";
                 str "PERCENTILE_DISC"; str "MODE"];
            ws0; ch "("]).
(** 29. "/\bUNNEST\s*\(\s*(?![\['\d])\w+/gi" *)
Definition re_unnest : RegExp :=
  rei (cat [WordB; str "UNNEST"; ws0; ch "("; ws0;
            NegLook (Chr false (unions [cc "["; CChar 39; CDigit])); plus w]).
(** 30. "/\bWITH\s+RECURSIVE\b/i", "/\bWITH\s+RECURSIVE\b[\s\S]*\bLIMIT\b/i",
        "/\bdepth\s*[<>=]/i", "/\blevel\s*[<>=]/i", "/\bdepth\s*\+\s*1\b/i",
        "/\blevel\s*\+\s*1\b/i" and "/\bUSING\s+KEY\b/i" *)
Definition re_with_recursive : RegExp :=
  rei (cat [WordB; str "WITH"; ws1; str "RECURSIVE"; WordB]).
Definition re_recursive_limit : RegExp :=
  rei (cat [WordB; str "WITH"; ws1; str "RECURSIVE"; WordB; star anything; WordB;
            str "LIMIT"; WordB]).
Definition comparison : regex := Chr false (unions [cc "<"; cc ">"; cc "="]).
Definition re_depth_cmp : RegExp := rei (cat [WordB; str "depth"; ws0; comparison]).
Definition re_level_cmp : RegExp := rei (cat [WordB; str "level"; ws0; comparison]).
Definition re_depth_inc : RegExp :=
  rei (cat [WordB; str "depth"; ws0; ch "+"; ws0; ch "1"; WordB]).
Definition re_level_inc : RegExp :=
  rei (cat [WordB; str "level"; ws0; ch "+"; ws0; ch "1"; WordB]).
Definition re_using_key : RegExp := rei (cat [WordB; str "USING"; ws1; str "KEY"; WordB]).
(** 31. "/\bCREATE\s+(?:OR\s+REPLACE\s+)?TABLE\b[\s\S]*?\bAS\s+SELECT\b/i" *)
Definition re_ctas : RegExp :=
  rei (cat [WordB; str "CREATE"; ws1; opt (cat [str "OR"; ws1; str "REPLACE"; ws1]);
            str "TABLE"; WordB; lazy anything; WordB; str "AS"; ws1; str "SELECT";
            WordB]).
(** 32. "/\bIN\s*\((?:\s*(?:'[^']*'|[\d.]+)\s*,){49,}/gi" *)
Definition re_in_list : RegExp :=
  rei (cat [WordB; str "IN"; ws0; ch "(";
            atLeast 49
              (cat [ws0;
                    alt [cat [quote; star notQuote; quote];
                         plus (Chr false (unions [CDigit; cc "."]))];
                    ws0; ch ","])]).
(** 33, 34. "/\bread_(?:parquet|csv|json)\s*\(\s*'(?:s3:\/\/|https?:\/\/|gs:\/\/|gcs:\/\/|r2:\/\/)/gi"
    and "/\bWHERE\b/i" *)
Definition remote_read : regex :=
  cat [WordB; str "read_"; alt [str "parquet"; str "csv"; str "json"]; ws0; ch "(";
       ws0; quote;
       alt [str "s3://"; cat [str "http"; opt (ch "s"); str "://"]; str "gs://";
            str "gcs://"; str "r2://"]].
Definition re_remote_read : RegExp := rei remote_read.
Definition re_where : RegExp := rei (cat [WordB; str "WHERE"; WordB]).
(** 35. "/\bread_(?:parquet|csv|json)\s*\(\s*'(?:s3:\/\/|https?:\/\/|gs:\/\/|gcs:\/\/|r2:\/\/)[^']*\*\*[^']*'/gi" *)
Definition re_glob : RegExp :=
  rei (cat [remote_read; star notQuote; str "**"; star notQuote; quote]).
(** 36. "/\bJOIN\b[\s\S]*?\bON\b[\s\S]*?(?:<=|>=|<\s|>\s)[\s\S]*?\b(?:ROW_NUMBER|LAST_VALUE|FIRST_VALUE)\s*\(/i",
        "/\bJOIN\b[\s\S]*?\bON\b[\s\S]*?(?:<=|>=)[\s\S]*?(?:timestamp|date|time|_at\b|_dt\b|created|updated|observed)/i"
        and "/\b(?:ROW_NUMBER|LAST_VALUE|FIRST_VALUE)\s*\(/i" *)
Definition re_inequality_join : RegExp :=
  rei (cat [WordB; str "JOIN"; WordB; lazy anything; WordB; str "ON"; WordB;
            lazy anything;
            alt [str "<="; str ">="; cat [ch "<"; sp]; cat [ch ">"; sp]];
            lazy anything; WordB;
            alt [str "ROW_NUMBER"; str "LAST_VALUE"; str "FIRST_VALUE"]; ws0; ch "("]).
Definition re_asof_pattern : RegExp :=
  rei (cat [WordB; str "JOIN"; WordB; lazy anything; WordB; str "ON"; WordB;
            lazy anything; alt [str "<="; str ">="]; lazy anything;
            alt [str "timestamp"; str "date"; str "time"; cat [str "_at"; WordB];
                 cat [str "_dt"; WordB]; str "created"; str "updated";
                 str "observed"]]).
Definition re_nearest_window : RegExp :=
  rei (cat [WordB; alt [str "ROW_NUMBER"; str "LAST_VALUE"; str "FIRST_VALUE"]; ws0;
            ch "("]).
(** 37. "/(\w+(?:\.\w+)?)\s*=\s*'[^']*'\s+OR\s+\1\s*=\s*'[^']*'\s+OR\s+\1\s*=\s*'[^']*'\s+OR\s+\1\s*=\s*'[^']*'/gi" *)
Definition equalsLiteral : regex :=
  cat [ws0; ch "="; ws0; quote; star notQuote; quote].
Definition orSame : regex :=
  cat [ws1; str "OR"; ws1; Backref 1; equalsLiteral].
Definition re_or_chain : RegExp :=
  rei (cat [Group 1 (cat [plus w; opt (cat [ch "."; plus w])]); equalsLiteral;
            orSame; orSame; orSame]).
(** 38. "/\b(?:timestamp|date|time|_at|_dt|created|updated|observed|_date|_time|_ts)\s+BETWEEN\b/gi"
        and "/\bBETWEEN\s+'[^']*(?:\d{4}-\d{2}-\d{2})[^']*'\s+AND\s+'[^']*(?:\d{4}-\d{2}-\d{2})[^']*'/gi" *)
Definition re_between_temporal : RegExp :=
  rei (cat [WordB;
            alt [str "timestamp"; str "date"; str "time"; str "_at"; str "_dt";
                 str "created"; str "updated"; str "observed"; str "_date";
                 str "_time"; str "_ts"];
            ws1; str "BETWEEN"; WordB]).
Definition dateLiteral : regex :=
  cat [quote; star notQuote; times 4 d; ch "-"; times 2 d; ch "-"; times 2 d;
       star notQuote; quote].
Definition re_between_dates : RegExp :=
  rei (cat [WordB; str "BETWEEN"; ws1; dateLiteral; ws1; str "AND"; ws1; dateLiteral]).
(** 39. "/\bAS\s*\(\s*SELECT\s+\*/gi" and
        "/\)\s*(?:,\s*\w+\s+AS\s*\([\s\S]*?\)\s*)*SELECT\s+\*\s+FROM\b/i" *)
Definition re_cte_select_star : RegExp :=
  rei (cat [WordB; str "AS"; ws0; ch "("; ws0; str "SELECT"; ws1; ch "*"]).
Definition re_final_select_star : RegExp :=
  rei (cat [ch ")"; ws0;
            star (cat [ch ","; ws0; plus w; ws1; str "AS"; ws0; ch "("; lazy anything;
                       ch ")"; ws0]);
            str "SELECT"; ws1; ch "*"; ws1; str "FROM"; WordB]).
(** 40. "/\b(\w+)\.\w+\.\w+\b/gi" *)
Definition re_db_qualified : RegExp :=
  rei (cat [WordB; Group 1 (plus w); ch "."; plus w; ch "."; plus w; WordB]).

(** The normalizer (index.ts). *)

(** "/::[A-Za-z_][A-Za-z0-9_]*(\[\])?/g" *)
Definition re_type_cast : RegExp :=
  res (cat [str "::";
            Chr false (unions [range "A" "Z"; range "a" "z"; cc "_"]);
            star (Chr false (unions [range "A" "Z"; range "a" "z"; range "0" "9";
                                     cc "_"]));
            opt (Group 1 (str "[]"))]).
(** new RegExp(`\\b${funcName}\\s*\\(`, 'gi') for a name made of word characters *)
Definition re_call (funcName : string) : RegExp :=
  rei (cat [WordB; str funcName; ws0; ch "("]).
(** ((?:Q\w+Q\.)*Q?\w+Q?), with Q for the double quote *)
Definition tableReference : regex :=
  Group 1 (cat [star (cat [dquote; plus w; dquote; ch "."]); opt dquote; plus w;
                opt dquote]).
(** \w+\s*\([^)]*\) , an aggregate call *)
Definition aggregateCall : regex :=
  cat [plus w; ws0; ch "("; star (notCh ")"); ch ")"].
(** /\bPIVOT\s+((?:Q\w+Q\.)*Q?\w+Q?)\s+ON\s+[\s\S]*?\bUSING\s+\w+\s*\([^)]*\)(?:\s*,\s*\w+\s*\([^)]*\))*/gi *)
Definition re_pivot : RegExp :=
  rei (cat [WordB; str "PIVOT"; ws1; tableReference; ws1; str "ON"; ws1; lazy anything;
            WordB; str "USING"; ws1; aggregateCall;
            star (cat [ws0; ch ","; ws0; aggregateCall])]).
(** /\bUNPIVOT\s+((?:Q\w+Q\.)*Q?\w+Q?)\s+ON\s+[\s\S]*?\bIN\s*\([^)]*\)/gi *)
Definition re_unpivot : RegExp :=
  rei (cat [WordB; str "UNPIVOT"; ws1; tableReference; ws1; str "ON"; ws1;
            lazy anything; WordB; str "IN"; ws0; ch "("; star (notCh ")"); ch ")"]).

(* ====================================================================== *)
(** ** The rules (rules.ts) *)
(* ====================================================================== *)

Section Rules.

(** [String.prototype.toLowerCase] and [toUpperCase]: the case conversion
    of the host, over all of Unicode.  The rules are stated for whatever
    these two functions are. *)
Variable toLowerCase : jsstr -> jsstr.
Variable toUpperCase : jsstr -> jsstr.

(** [locate(sql, needle)]: the index is found in the lower-cased text and
    the end is that index plus the length of the needle as given. *)
Definition locate (sql needle : jsstr) : option Offset :=
  match indexOf (toLowerCase sql) (toLowerCase needle) with
  | None => None
  | Some idx => Some (mkOffset idx (idx + List.length needle))
  end.

(** [const loc = locate(sql, needle); if (loc) findings[findings.length - 1].offset = loc;]
    on the finding just pushed *)
Definition located (f : Finding) (sql needle : jsstr) : Finding :=
  match locate sql needle with
  | Some loc => withOffset f loc
  | None => f
  end.

(** *** Rules over the tree *)

Definition isStarColumn (col : Node) : bool :=
  match n_expr col with
  | Single e =>
      match n_type e with
      | Some t => jsstr_eqb t (lit "star")
      | None => false
      end
  | _ => false
  end.

Fixpoint checkSelectStar (sql : jsstr) (ast : Node) {struct ast} : list Finding :=
  if negb (isSelect ast) then []
  else
    (match n_columns ast with
     | ColumnsStar => [located F_select_star sql (lit "select *")]
     | ColumnsList cols =>
         flat_map (fun col => if isStarColumn col then [F_select_star_item] else [])
           cols
     | ColumnsOther => []
     end)
    ++
    (let recurse (fromItem : Node) : list Finding :=
       match n_expr fromItem with
       | Single e =>
           match n_ast e with
           | Some sub => checkSelectStar sql sub
           | None => []
           end
       | _ => []
       end in
     match n_from ast with
     | Absent => []
     | Single fromItem => recurse fromItem
     | Many items => flat_map recurse items
     end).

Definition checkOrderByWithoutLimit (sql : jsstr) (ast : Node) : list Finding :=
  if negb (isSelect ast) then []
  else
    match n_orderby ast, n_limit ast with
    | Some _, None => [located F_order_without_limit sql (lit "order by")]
    | _, _ => []
    end.

Definition checkCrossJoin (sql : jsstr) (ast : Node) : list Finding :=
  if negb (isSelect ast) || negb (present (n_from ast)) then []
  else
    flat_map (fun item =>
      match n_join item with
      | Some j =>
          if jsstr_eqb j (lit "CROSS JOIN")
          then [located F_cross_join sql (lit "cross join")]
          else []
      | None => []
      end) (asList (n_from ast)).

Fixpoint checkNestedSubqueries (sql : jsstr) (ast : Node) (depth : nat) {struct ast}
  : list Finding :=
  if negb (isSelect ast) then []
  else
    (if 3 <=? depth then [F_deeply_nested_subquery] else [])
    ++
    (match n_where ast with
     | Some e => checkExprForSubqueries sql e depth
     | None => []
     end)
    ++
    (let recurse (f : Node) : list Finding :=
       match n_expr f with
       | Single e =>
           match n_ast e with
           | Some sub => checkNestedSubqueries sql sub (S depth)
           | None => []
           end
       | _ => []
       end in
     match n_from ast with
     | Absent => []
     | Single f => recurse f
     | Many items => flat_map recurse items
     end)
with checkExprForSubqueries (sql : jsstr) (expr : Node) (depth : nat) {struct expr}
  : list Finding :=
  (match n_ast expr with
   | Some sub => checkNestedSubqueries sql sub (S depth)
   | None => []
   end)
  ++
  (match n_left expr with
   | Some l => checkExprForSubqueries sql l depth
   | None => []
   end)
  ++
  (match n_right expr with
   | Some r => checkExprForSubqueries sql r depth
   | None => []
   end)
  ++
  (match n_args expr with
   | Some args =>
       let recurse (a : Node) : list Finding :=
         match n_ast a with
         | Some sub => checkNestedSubqueries sql sub (S depth)
         | None => []
         end in
       match n_expr args with
       | Absent => []
       | Single a => recurse a
       | Many l => flat_map recurse l
       end
   | None => []
   end).

(** [f.table || f.as || ''] *)
Definition tableOrAlias (f : Node) : jsstr :=
  match n_table f with
  | Some (c :: t) => c :: t
  | _ => match n_as f with
         | Some (c :: t) => c :: t
         | _ => []
         end
  end.

Definition nonEmpty (s : jsstr) : bool :=
  match s with
  | [] => false
  | _ :: _ => true
  end.

Definition checkJoinWithoutCondition (sql : jsstr) (ast : Node) : list Finding :=
  if negb (isSelect ast) || negb (present (n_from ast)) then []
  else
    let fromList := asList (n_from ast) in
    (if (1 <? List.length fromList)
        && negb (existsb (fun f => truthy (n_join f)) fromList)
        && negb (match n_where ast with Some _ => true | None => false end)
     then [F_implicit_cross_join
             (joinWith (lit ", ") (filter nonEmpty (map tableOrAlias fromList)))]
     else [])
    ++
    flat_map (fun item =>
      match n_join item, n_on item with
      | Some (c :: t), None =>
          let j := c :: t in
          if jsstr_eqb j (lit "CROSS JOIN") then []
          else [located (F_join_without_on j) sql j]
      | _, _ => []
      end) fromList.

(** The rules over the tree, in the order [runRules] calls them on a
    statement. *)
Definition structuralRules (sql : jsstr) (node : Node) : list Finding :=
  checkSelectStar sql node
  ++ checkOrderByWithoutLimit sql node
  ++ checkCrossJoin sql node
  ++ checkNestedSubqueries sql node 0
  ++ checkJoinWithoutCondition sql node.

(** *** Rules over the text *)

(** One block of [regexRules]: the findings it pushes, in order. *)
Definition Rule : Type := jsstr -> Outcome (list Finding).

Definition when (b : bool) (fs : list Finding) : list Finding :=
  if b then fs else [].

(** 1. list() aggregate, and LIST(DISTINCT ...) *)
Definition rule_list : Rule := fun sql =>
  listAggMatches <- findAll sql re_list ;;
  listDistinctMatches <- findAll sql re_list_distinct ;;
  Returns
    ((match listAggMatches with
      | first :: _ =>
          let count := List.length listAggMatches in
          [located (F_non_spillable_list count first) sql first]
      | [] => []
      end)
     ++
     (match listDistinctMatches with
      | first :: _ => [located (F_non_spillable_list_distinct first) sql first]
      | [] => []
      end)).

(** 2. string_agg() *)
Definition rule_string_agg : Rule := fun sql =>
  Returns (when (test re_string_agg sql)
             [located F_non_spillable_string_agg sql (lit "string_agg(")]).

(** 3. aggregate with ORDER BY inside *)
Definition rule_ordered_agg : Rule := fun sql =>
  aggOrderByMatches <- findAll sql re_agg_order_by ;;
  Returns
    (match aggOrderByMatches with
     | first :: _ => [located (F_non_spillable_ordered_agg first) sql first]
     | [] => []
     end).

(** 4. multiple blocking operators *)
Definition rule_blocking_operators : Rule := fun sql =>
  orderByCount <- countMatches sql re_order_by ;;
  windowFuncCount <- countMatches sql re_over ;;
  groupByCount <- countMatches sql re_group_by ;;
  let totalBlockingOps := orderByCount + windowFuncCount + groupByCount in
  Returns
    (if 8 <=? totalBlockingOps then
       [F_many_blocking_operators_error totalBlockingOps orderByCount
          windowFuncCount groupByCount]
     else if 5 <=? totalBlockingOps then
       [F_many_blocking_operators_warning totalBlockingOps orderByCount
          windowFuncCount groupByCount]
     else []).

(** 5. JSON extraction *)
Definition rule_json_extraction : Rule := fun sql =>
  jsonArrowCount <- countMatches sql re_arrow_text ;;
  jsonArrowObjCount <- countMatches sql re_arrow_obj ;;
  let totalJsonOps := jsonArrowCount + jsonArrowObjCount in
  Returns
    (if 20 <=? totalJsonOps then
       [located (F_heavy_json_extraction totalJsonOps) sql (lit "->>")]
     else if 8 <=? totalJsonOps then
       [located (F_moderate_json_extraction totalJsonOps) sql (lit "->>")]
     else []).

(** 6. json_each *)
Definition rule_json_each : Rule := fun sql =>
  Returns (when (test re_json_each sql)
             [located F_json_each_expansion sql (lit "json_each(")]).

(** 7. json_extract_string with array wildcard paths *)
Definition rule_json_array : Rule := fun sql =>
  Returns (when (test re_json_array sql) [F_json_array_extract]).

(** 8. repeated ORDER BY ... DESC LIMIT 1 *)
Definition rule_order_limit_1 : Rule := fun sql =>
  orderByLimitMatches <- findAll sql re_order_limit_1 ;;
  Returns
    (match orderByLimitMatches with
     | first :: _ =>
         when (2 <=? List.length orderByLimitMatches)
           [located (F_repeated_order_limit_1 (List.length orderByLimitMatches) first)
              sql first]
     | [] => []
     end).

(** 9. ROW_NUMBER ... = 1 *)
Definition rule_arg_max : Rule := fun sql =>
  Returns (when (test re_window_for_latest sql && test re_rank_filter sql)
             [located F_use_arg_max sql (lit "ROW_NUMBER()")]).

(** 10. LIKE '%...%': one finding per match *)
Definition rule_like : Rule := fun sql =>
  likePatterns <- findAll sql re_like ;;
  Returns (map (fun m => located (F_leading_wildcard_like m) sql m) likePatterns).

(** 11. function on column in WHERE *)
Definition rule_func_in_where : Rule := fun sql =>
  funcInWhere <- findAll sql re_func_in_where ;;
  Returns (when (0 <? List.length funcInWhere) [F_function_on_filter_column]).

(** 12. SELECT DISTINCT * *)
Definition rule_distinct_star : Rule := fun sql =>
  Returns (when (test re_distinct_star sql)
             [located F_distinct_star sql (lit "SELECT DISTINCT *")]).

(** 13. UNION without ALL *)
Definition rule_union : Rule := fun sql =>
  unionMatches <- findAll sql re_union ;;
  Returns (when (0 <? List.length unionMatches)
             [located F_union_without_all sql (lit "UNION")]).

(** 14. COUNT(DISTINCT ...) *)
Definition rule_count_distinct : Rule := fun sql =>
  countDistinct <- findAll sql re_count_distinct ;;
  Returns
    (match countDistinct with
     | first :: _ =>
         [located (F_count_distinct (List.length countDistinct) first) sql first]
     | [] => []
     end).

(** 15. NOT IN with subquery *)
Definition rule_not_in : Rule := fun sql =>
  Returns (when (test re_not_in sql) [located F_not_in_subquery sql (lit "NOT IN")]).

(** 16. correlated subquery *)
Definition rule_correlated : Rule := fun sql =>
  Returns (when (test re_correlated sql) [F_correlated_subquery]).

(** 17. INSERT INTO ... SELECT * *)
Definition rule_insert_select_star : Rule := fun sql =>
  Returns (when (test re_insert_select_star sql) [F_insert_select_star]).

(** 18. many CTEs, counted in the upper-cased text *)
Definition rule_many_ctes : Rule := fun sql =>
  let upper := toUpperCase sql in
  cteCount <- matchCount upper re_as_paren ;;
  Returns
    (if 10 <? cteCount then [F_many_ctes_warning cteCount]
     else if 5 <? cteCount then [F_many_ctes_info cteCount]
     else []).

(** 19. window functions without QUALIFY *)
Definition rule_qualify : Rule := fun sql =>
  let hasWindowFunc := test re_window_func sql in
  let hasQualify := test re_qualify sql in
  let hasWhereOnWindow :=
    hasWindowFunc && negb hasQualify && test re_where_on_window sql in
  Returns (when hasWhereOnWindow [F_window_without_qualify]).

(** 20. excessive casts *)
Definition rule_casts : Rule := fun sql =>
  castOps <- findAll sql re_cast ;;
  Returns (when (8 <? List.length castOps) [F_excessive_casts (List.length castOps)]).

(** 21. local file joined with a cloud table *)
Definition rule_local_remote : Rule := fun sql =>
  Returns (when (test re_from_read sql && test re_md sql) [F_md_local_remote_transfer]).

(** 22. verbose GROUP BY *)
Definition rule_group_by_verbose : Rule := fun sql =>
  Returns (when (test re_group_by_verbose sql) [F_group_by_verbose]).

(** 23. SELECT * from a remote file *)
Definition rule_remote_select_star : Rule := fun sql =>
  Returns (when (test re_from_http sql && test re_select_star sql)
             [F_remote_file_select_star]).

(** 24. duckling size hint *)
Definition rule_duckling_size : Rule := fun sql =>
  let upper := toUpperCase sql in
  Returns (when (includes upper (lit "OUT OF MEMORY") || includes upper (lit "OOM"))
             [F_md_duckling_size]).

(** 25. list_transform *)
Definition rule_list_transform : Rule := fun sql =>
  Returns (when (test re_list_transform sql)
             [located F_list_transform sql (lit "list_transform(")]).

(** 26. PIVOT *)
Definition rule_pivot : Rule := fun sql =>
  Returns (when (test re_pivot_word sql && negb (test re_unpivot_word sql)
                 || test re_pivot_using sql)
             [F_non_spillable_pivot]).

(** 27. LEFT JOIN ... ON TRUE *)
Definition rule_left_join_on_true : Rule := fun sql =>
  leftJoinOnTrue <- countMatches sql re_left_join_on_true ;;
  Returns (when (5 <=? leftJoinOnTrue) [F_many_left_join_on_true leftJoinOnTrue]).

(** 28. MEDIAN, QUANTILE, PERCENTILE_CONT/DISC, MODE *)
Definition rule_ordered_set_agg : Rule := fun sql =>
  orderedSetAggMatches <- findAll sql re_ordered_set_agg ;;
  Returns
    (match orderedSetAggMatches with
     | first :: _ =>
         let count := List.length orderedSetAggMatches in
         [located (F_non_spillable_median count first) sql first]
     | [] => []
     end).

(** 29. UNNEST on columns *)
Definition rule_unnest : Rule := fun sql =>
  unnestMatches <- findAll sql re_unnest ;;
  Returns
    (match unnestMatches with
     | first :: _ => [located (F_unnest_large_expansion first) sql first]
     | [] => []
     end).

(** 30. WITH RECURSIVE without LIMIT, depth check, or USING KEY *)
Definition rule_recursive_cte : Rule := fun sql =>
  Returns
    (when (test re_with_recursive sql)
       (let hasLimit := test re_recursive_limit sql in
        let hasDepthCheck :=
          test re_depth_cmp sql || test re_level_cmp sql
          || test re_depth_inc sql || test re_level_inc sql in
        let hasUsingKey := test re_using_key sql in
        when (negb hasLimit && negb hasDepthCheck && negb hasUsingKey)
          [located F_recursive_cte_no_limit sql (lit "WITH RECURSIVE")])).

(** 31. CREATE TABLE ... AS SELECT *)
Definition rule_ctas : Rule := fun sql =>
  Returns (when (test re_ctas sql) [located F_ctas_memory sql (lit "CREATE")]).

(** 32. IN (...) with 50+ literal values *)
Definition rule_in_list : Rule := fun sql =>
  inListMatches <- findAll sql re_in_list ;;
  Returns
    (match inListMatches with
     | first :: _ =>
         [located (F_large_in_list (slice first 0 40 ++ lit "...")) sql
            (slice first 0 30)]
     | [] => []
     end).

(** 33. remote read without WHERE *)
Definition rule_remote_no_filter : Rule := fun sql =>
  Returns (when (test re_remote_read sql)
             (when (negb (test re_where sql)) [F_read_remote_no_filter])).

(** 34. multiple remote file scans *)
Definition rule_remote_scans : Rule := fun sql =>
  remoteScans <- findAll sql re_remote_read ;;
  Returns
    (match remoteScans with
     | first :: _ =>
         when (2 <=? List.length remoteScans)
           [located (F_multiple_remote_scans (List.length remoteScans) first) sql first]
     | [] => []
     end).

(** 35. deep glob patterns in remote file reads *)
Definition rule_glob : Rule := fun sql =>
  Returns (when (test re_glob sql) [F_glob_many_files]).

(** 36. inequality join and window function *)
Definition rule_temporal_join : Rule := fun sql =>
  let hasInequalityJoin := test re_inequality_join sql in
  let hasAsofPattern := test re_asof_pattern sql in
  Returns (when (hasInequalityJoin || (hasAsofPattern && test re_nearest_window sql))
             [F_temporal_join_via_window]).

(** 37. OR chain on the same column *)
Definition rule_or_chain : Rule := fun sql =>
  Returns (when (test re_or_chain sql) [F_or_chain_instead_of_in]).

(** 38. BETWEEN on temporal columns *)
Definition rule_between : Rule := fun sql =>
  Returns (when (test re_between_temporal sql || test re_between_dates sql)
             [F_between_timestamp]).

(** 39. SELECT * through two or more CTEs and the final query *)
Definition rule_chained_select_star : Rule := fun sql =>
  cteSelectStarCount <- countMatches sql re_cte_select_star ;;
  let finalSelectStar := test re_final_select_star sql in
  Returns (when ((2 <=? cteSelectStarCount) && finalSelectStar) [F_chained_select_star]).

(** [new Set(xs)] read back in insertion order *)
Fixpoint uniq (seen xs : list jsstr) : list jsstr :=
  match xs with
  | [] => []
  | x :: t =>
      if existsb (jsstr_eqb x) seen then uniq seen t else x :: uniq (x :: seen) t
  end.

(** 40. joins across database prefixes *)
Definition rule_cross_database : Rule := fun sql =>
  dbQualifiedTables <- findAll sql re_db_qualified ;;
  Returns
    (when (2 <=? List.length dbQualifiedTables)
       (let dbPrefixes :=
          uniq [] (map (fun t => toLowerCase (beforeFirst 46 t)) dbQualifiedTables) in
        when (2 <=? List.length dbPrefixes)
          [F_md_cross_database_join (List.length dbPrefixes) dbPrefixes])).

(** The blocks of [regexRules], in source order.  The earlier revision of
    rules.ts ends with block 27; the later one adds blocks 28 to 40 after
    it and changes nothing before. *)
Definition baseRules : list Rule :=
  [rule_list; rule_string_agg; rule_ordered_agg; rule_blocking_operators;
   rule_json_extraction; rule_json_each; rule_json_array; rule_order_limit_1;
   rule_arg_max; rule_like; rule_func_in_where; rule_distinct_star; rule_union;
   rule_count_distinct; rule_not_in; rule_correlated; rule_insert_select_star;
   rule_many_ctes; rule_qualify; rule_casts; rule_local_remote;
   rule_group_by_verbose; rule_remote_select_star; rule_duckling_size;
   rule_list_transform; rule_pivot; rule_left_join_on_true].

Definition addedRules : list Rule :=
  [rule_ordered_set_agg; rule_unnest; rule_recursive_cte; rule_ctas; rule_in_list;
   rule_remote_no_filter; rule_remote_scans; rule_glob; rule_temporal_join;
   rule_or_chain; rule_between; rule_chained_select_star; rule_cross_database].

Definition patternRules : list Rule := baseRules ++ addedRules.

(** Run the blocks one after the other, each pushing onto [findings]. *)
Fixpoint runBlocks (rules : list Rule) (sql : jsstr) : Outcome (list Finding) :=
  match rules with
  | [] => Returns []
  | r :: rest =>
      pushed <- r sql ;;
      more <- runBlocks rest sql ;;
      Returns (pushed ++ more)
  end.

Definition regexRules (sql : jsstr) : Outcome (list Finding) :=
  runBlocks patternRules sql.

(** *** runRules *)

(** [findings.filter(f => { if (seen.has(f.ruleId)) return false;
    seen.add(f.ruleId); return true; })] *)
Fixpoint dedupe (seen : set string) (fs : list Finding) : list Finding :=
  match fs with
  | [] => []
  | f :: rest =>
      if set_mem string_dec (ruleId f) seen then dedupe seen rest
      else f :: dedupe (set_add string_dec (ruleId f) seen) rest
  end.

(** [Array.isArray(ast) ? ast : [ast]], and [if (!node) continue] *)
Definition statements (ast : AstValue) : list Node :=
  match ast with
  | AstNull => []
  | AstNode n => [n]
  | AstArray l => flat_map (fun o => match o with Some n => [n] | None => [] end) l
  end.

(** What [runRules] has pushed before it deduplicates. *)
Definition emitted (ast : AstValue) (sql : jsstr) : Outcome (list Finding) :=
  let structural := flat_map (structuralRules sql) (statements ast) in
  textual <- regexRules sql ;;
  Returns (structural ++ textual).

Definition runRules (ast : AstValue) (sql : jsstr) : Outcome (list Finding) :=
  fs <- emitted ast sql ;;
  Returns (dedupe (empty_set string) fs).

End Rules.

(* ====================================================================== *)
(** ** The normalizer and the entry point (index.ts) *)
(* ====================================================================== *)

(** The inner loop of [replaceBalancedCall]:
    [while (i < s.length && depth > 0) { if (s[i] === '(') depth++;
    else if (s[i] === ')') depth--; i++; }], on the text from [i] on.
    It returns the final [depth] and [i]. *)
Fixpoint scanParens (rest : jsstr) (depth i : nat) : nat * nat :=
  match depth, rest with
  | 0, _ => (depth, i)
  | _, [] => (depth, i)
  | S below, c :: t =>
      if (c =? 40)%N then scanParens t (S depth) (S i)
      else if (c =? 41)%N then scanParens t below (S i)
      else scanParens t depth (S i)
  end.

(** The outer loop: [while ((match = re.exec(s)) !== null) { ... }].  The
    state is the text [s] and [re.lastIndex]. *)
Fixpoint replaceBalancedCall_loop (fuel : nat) (re : RegExp) (replacement s : jsstr)
  (lastIndex : nat) : Outcome jsstr :=
  match fuel with
  | 0 => Diverges
  | S fuel' =>
      match exec re s lastIndex with
      | None => Returns s
      | Some m =>
          let start := index m in
          let parenStart := start + List.length (matched s m) - 1 in
          let (depth, i) := scanParens (sliceFrom s (parenStart + 1)) 1 (parenStart + 1) in
          if depth =? 0 then
            replaceBalancedCall_loop fuel' re replacement
              (slice s 0 start ++ replacement ++ sliceFrom s i)
              (start + List.length replacement)
          else
            replaceBalancedCall_loop fuel' re replacement s (matchEnd m)
      end
  end.

Definition replaceBalancedCall (s : jsstr) (funcName : string) (replacement : jsstr)
  : Outcome jsstr :=
  replaceBalancedCall_loop (S (List.length s)) (re_call funcName) replacement s 0.

Definition selectFrom : list Piece := [Text (lit "SELECT * FROM "); Ref 1].

Definition preprocessForParser (sql : jsstr) : Outcome jsstr :=
  s <- replace sql re_type_cast [] ;;
  s <- replaceBalancedCall s "list_transform" (lit "NULL") ;;
  s <- replaceBalancedCall s "json_extract_string" (lit "NULL") ;;
  s <- replaceBalancedCall s "json_each" (lit "(SELECT 1)") ;;
  s <- replaceBalancedCall s "LIST" (lit "ARRAY_AGG(1)") ;;
  s <- replaceBalancedCall s "struct_pack" (lit "ROW(1)") ;;
  s <- replace s re_pivot selectFrom ;;
  s <- replace s re_unpivot selectFrom ;;
  Returns s.

Section Analyzer.

Variable toLowerCase : jsstr -> jsstr.
Variable toUpperCase : jsstr -> jsstr.

(** [parser.astify]: the external parser.  It returns a tree or throws. *)
Variable astify : jsstr -> ParseOutcome.

Definition callParser (text : jsstr) : Outcome AstValue :=
  match astify text with
  | Parsed v => Returns v
  | ParseThrew e => Throws e
  end.

(** [e instanceof Error ? e.message : 'Failed to parse SQL'] *)
Definition errorMessage (e : Thrown) : jsstr :=
  match e with
  | ErrorObject m => m
  | OtherValue => lit "Failed to parse SQL"
  end.

(** [analyze] of the later revision: the text as it is first, the
    normalized text when that throws. *)
Definition analyze (sql : jsstr) : Outcome AnalysisResult :=
  let trimmed := trim sql in
  match trimmed with
  | [] => Returns (mkResult [] None)
  | _ :: _ =>
      parsed <-
        tryCatch
          (ast <- callParser trimmed ;; Returns (ast, None))
          (fun _ =>
             sanitized <- preprocessForParser trimmed ;;
             tryCatch
               (ast <- callParser sanitized ;; Returns (ast, None))
               (fun e => Returns (AstNull, Some (errorMessage e)))) ;;
      fs <- runRules toLowerCase toUpperCase (fst parsed) trimmed ;;
      Returns (mkResult fs (snd parsed))
  end.

(** [analyze] of the earlier revision: the normalized text only. *)
Definition analyze_normalized (sql : jsstr) : Outcome AnalysisResult :=
  let trimmed := trim sql in
  match trimmed with
  | [] => Returns (mkResult [] None)
  | _ :: _ =>
      sanitized <- preprocessForParser trimmed ;;
      parsed <-
        tryCatch
          (ast <- callParser sanitized ;; Returns (ast, None))
          (fun e => Returns (AstNull, Some (errorMessage e))) ;;
      fs <- runRules toLowerCase toUpperCase (fst parsed) trimmed ;;
      Returns (mkResult fs (snd parsed))
  end.

End Analyzer.

(* ====================================================================== *)
(** ** The highlighted text (components/HighlightedSql.tsx) *)
(* ====================================================================== *)

(** [{ start, end, finding }]: a range of the text and the finding it is
    marked with. *)
Record Range : Type := mkRange {
  r_start : nat;
  r_end : nat;
  r_finding : Finding
}.

(** [{ text, finding? }]: a piece of the text as it is shown, plain or
    marked. *)
Record Segment : Type := mkSegment {
  s_text : jsstr;
  s_finding : option Finding
}.

(** [s.indexOf(needle, from)] for [from] within the text *)
Definition indexOfAt (s needle : jsstr) (from : nat) : option nat :=
  indexOfFrom (skipn from s) needle from.

(** The inner loop of [buildSegments] for one finding with a fragment:
    [while (searchFrom < lowerSql.length) { idx = lowerSql.indexOf(lowerFrag,
    searchFrom); if (idx === -1) break; ranges.push(...); searchFrom = idx +
    f.fragment.length; }], with [len] the length of the fragment as given. *)
Fixpoint occurrences (fuel : nat) (lowerSql lowerFrag : jsstr) (f : Finding)
  (len searchFrom : nat) : Outcome (list Range) :=
  match fuel with
  | 0 => Diverges
  | S fuel' =>
      if searchFrom <? List.length lowerSql then
        match indexOfAt lowerSql lowerFrag searchFrom with
        | None => Returns []
        | Some idx =>
            rest <- occurrences fuel' lowerSql lowerFrag f len (idx + len) ;;
            Returns (mkRange idx (idx + len) f :: rest)
        end
      else Returns []
  end.

(** [ranges.sort((a, b) => a.start - b.start)]: the sort of the host is
    stable, so the result is the one of an insertion sort that puts a
    range before the first later range that does not start before it. *)
Fixpoint insertRange (r : Range) (sorted : list Range) : list Range :=
  match sorted with
  | [] => [r]
  | x :: t =>
      if r_start r <=? r_start x then r :: x :: t else x :: insertRange r t
  end.

Definition sortRanges (ranges : list Range) : list Range :=
  fold_right insertRange [] ranges.

(** [for (const r of ranges) if (r.start >= lastEnd) { cleaned.push(r);
    lastEnd = r.end; }] *)
Fixpoint removeOverlaps (lastEnd : nat) (ranges : list Range) : list Range :=
  match ranges with
  | [] => []
  | r :: t =>
      if lastEnd <=? r_start r then r :: removeOverlaps (r_end r) t
      else removeOverlaps lastEnd t
  end.

(** The last loop, from [cursor] on, and the rest of the text after it. *)
Fixpoint segmentsFrom (sql : jsstr) (cursor : nat) (cleaned : list Range)
  : list Segment :=
  match cleaned with
  | [] =>
      if cursor <? List.length sql then [mkSegment (sliceFrom sql cursor) None]
      else []
  | r :: t =>
      (if cursor <? r_start r
       then [mkSegment (slice sql cursor (r_start r)) None] else [])
      ++ mkSegment (slice sql (r_start r) (r_end r)) (Some (r_finding r))
         :: segmentsFrom sql (r_end r) t
  end.

Section Highlight.
Variable toLowerCase : jsstr -> jsstr.

(** The ranges of one finding: every occurrence of its fragment when it
    has one (an empty fragment counts as none), else its offset when it
    has one. *)
Definition rangesOf (lowerSql : jsstr) (f : Finding) : Outcome (list Range) :=
  match fragment f with
  | Some (c :: t) =>
      occurrences (S (List.length lowerSql)) lowerSql (toLowerCase (c :: t)) f
        (List.length (c :: t)) 0
  | _ =>
      match offset f with
      | Some o => Returns [mkRange (start o) (stop o) f]
      | None => Returns []
      end
  end.

Fixpoint collectRanges (lowerSql : jsstr) (findings : list Finding)
  : Outcome (list Range) :=
  match findings with
  | [] => Returns []
  | f :: rest =>
      here <- rangesOf lowerSql f ;;
      more <- collectRanges lowerSql rest ;;
      Returns (here ++ more)
  end.

Definition buildSegments (sql : jsstr) (findings : list Finding)
  : Outcome (list Segment) :=
  ranges <- collectRanges (toLowerCase sql) findings ;;
  Returns (segmentsFrom sql 0 (removeOverlaps 0 (sortRanges ranges))).

End Highlight.

(* ====================================================================== *)
(** ** The list of findings (components/FindingsPanel.tsx) *)
(* ====================================================================== *)

Definition severity_eqb (a b : Severity) : bool :=
  match a, b with
  | error, error => true
  | warning, warning => true
  | info, info => true
  | _, _ => false
  end.

(** What the panel shows: the number in its header, the three badges (a
    badge is there when its number is not zero), and one card per finding,
    clickable or not. *)
Record PanelView : Type := mkPanelView {
  headerCount : nat;
  errorBadge : option nat;
  warningBadge : option nat;
  infoBadge : option nat;
  cards : list (Finding * bool)
}.

(** [n > 0 && <span>n ...</span>] *)
Definition badge (n : nat) : option nat := if 0 <? n then Some n else None.

(** [!!(f.offset || f.fragment)] *)
Definition hasLocation (f : Finding) : bool :=
  match offset f with
  | Some _ => true
  | None => truthy (fragment f)
  end.

(** The panel for a list of findings, with or without a click handler:
    nothing for no finding. *)
Definition FindingsPanel (fs : list Finding) (onFindingClick : bool)
  : option PanelView :=
  match fs with
  | [] => None
  | _ :: _ =>
      let errors := filter (fun f => severity_eqb (severity f) error) fs in
      let warnings := filter (fun f => severity_eqb (severity f) warning) fs in
      let infos := filter (fun f => severity_eqb (severity f) info) fs in
      Some (mkPanelView (List.length fs)
              (badge (List.length errors)) (badge (List.length warnings))
              (badge (List.length infos))
              (map (fun f => (f, hasLocation f && onFindingClick)) fs))
  end.

(* ====================================================================== *)
(** ** The stored theme (theme.ts) *)
(* ====================================================================== *)

Inductive ThemeMode : Type := system | dark | light.

Definition STORAGE_KEY : jsstr := lit "md-optimizer-theme".

(** The string a mode is in the source. *)
Definition modeName (mode : ThemeMode) : jsstr :=
  match mode with
  | system => lit "system"
  | dark => lit "dark"
  | light => lit "light"
  end.

(** A call of the storage of the host: it gives a value or throws. *)
Inductive StorageCall (A : Type) : Type :=
| Done (a : A)
| Refused (e : Thrown).
Arguments Done {A} a.
Arguments Refused {A} e.

Definition callStorage {A : Type} (c : StorageCall A) : Outcome A :=
  match c with
  | Done a => Returns a
  | Refused e => Throws e
  end.

Section StoredTheme.

(** [localStorage]: its state, [getItem] and [setItem]. *)
Variable Store : Type.
Variable getItem : Store -> jsstr -> StorageCall (option jsstr).
Variable setItem : Store -> jsstr -> jsstr -> StorageCall Store.

(** [stored === 'dark' || stored === 'light' || stored === 'system'] *)
Definition validMode (stored : option jsstr) : option ThemeMode :=
  match stored with
  | Some v =>
      if jsstr_eqb v (lit "dark") then Some dark
      else if jsstr_eqb v (lit "light") then Some light
      else if jsstr_eqb v (lit "system") then Some system
      else None
  | None => None
  end.

Definition getStoredTheme (st : Store) : Outcome ThemeMode :=
  found <- tryCatch
             (stored <- callStorage (getItem st STORAGE_KEY) ;;
              Returns (validMode stored))
             (fun _ => Returns None) ;;
  Returns (match found with Some mode => mode | None => system end).

(** [storeTheme(mode)]: the storage after the call. *)
Definition storeTheme (st : Store) (mode : ThemeMode) : Outcome Store :=
  tryCatch (callStorage (setItem st STORAGE_KEY (modeName mode)))
    (fun _ => Returns st).

End StoredTheme.

(* ====================================================================== *)
(** ** A host for closed examples *)
(* ====================================================================== *)

(** Case conversion on texts made of Basic Latin characters and of U+0130
    (LATIN CAPITAL LETTER I WITH DOT ABOVE, whose lower case is the two
    units U+0069 U+0307): on such texts this is what the host computes.
    Other code units are left as they are; the examples below use none. *)
Definition lowerUnit (c : N) : jsstr :=
  if isUpper c then [(c + 32)%N]
  else if (c =? 304)%N then [105%N; 775%N]
  else [c].

Definition toLowerCaseLatin (s : jsstr) : jsstr := flat_map lowerUnit s.

Definition toUpperCaseLatin (s : jsstr) : jsstr :=
  map (fun c => if isLower c then (c - 32)%N else c) s.

(** A parser that rejects every text. *)
Definition rejectingParser (text : jsstr) : ParseOutcome :=
  ParseThrew (ErrorObject (lit "Syntax error")).

(* ====================================================================== *)
(** ** Notions the properties are stated with *)
(* ====================================================================== *)

(** The least number of characters a match of [r] consumes. *)
Fixpoint minLen (r : regex) : nat :=
  match r with
  | Eps => 0
  | Chr _ _ => 1
  | Dot => 1
  | Seq a b => minLen a + minLen b
  | Alt a b => Nat.min (minLen a) (minLen b)
  | Star _ _ => 0
  | Group _ a => minLen a
  | Backref _ => 0
  | WordB => 0
  | NegLook _ => 0
  end.

(** A pattern that cannot match the empty text. *)
Definition consuming (re : RegExp) : bool := 0 <? minLen (pattern re).

(** The findings of a list that carry a given rule id. *)
Definition hasId (id : string) (f : Finding) : bool := String.eqb (ruleId f) id.
Definition withId (id : string) (fs : list Finding) : list Finding :=
  filter (hasId id) fs.

(** [a] is [b] with some elements left out, order kept. *)
Inductive Subseq {A : Type} : list A -> list A -> Prop :=
| Subseq_nil : Subseq [] []
| Subseq_skip : forall x a b, Subseq a b -> Subseq a (x :: b)
| Subseq_keep : forall x a b, Subseq a b -> Subseq (x :: a) (x :: b).

Definition optNodes (o : option Node) : list Node :=
  match o with Some n => [n] | None => [] end.

(** The nodes a node holds in its fields. *)
Definition children (n : Node) : list Node :=
  (match n_columns n with ColumnsList l => l | _ => [] end)
  ++ asList (n_from n) ++ optNodes (n_where n)
  ++ (match n_orderby n with Some l => l | None => [] end)
  ++ optNodes (n_limit n) ++ asList (n_expr n) ++ optNodes (n_ast n)
  ++ optNodes (n_left n) ++ optNodes (n_right n) ++ optNodes (n_args n)
  ++ optNodes (n_on n).

Fixpoint nsize (n : Node) : nat :=
  let opt (o : option Node) := match o with Some c => nsize c | None => 0 end in
  let multi (m : Multi Node) :=
    match m with
    | Absent => 0
    | Single c => nsize c
    | Many l => list_sum (map nsize l)
    end in
  S ((match n_columns n with ColumnsList l => list_sum (map nsize l) | _ => 0 end)
     + multi (n_from n) + opt (n_where n)
     + (match n_orderby n with Some l => list_sum (map nsize l) | None => 0 end)
     + opt (n_limit n) + multi (n_expr n) + opt (n_ast n)
     + opt (n_left n) + opt (n_right n) + opt (n_args n) + opt (n_on n)).

Definition structuralIds : list string :=
  ["select-star"; "order-without-limit"; "cross-join"; "deeply-nested-subquery";
   "implicit-cross-join"; "join-without-on"]%string.

(** The rule ids each block of [regexRules] can push, block by block. *)
Definition baseTable : list (list string) :=
  [["non-spillable-list"; "non-spillable-list-distinct"];
   ["non-spillable-string-agg"]; ["non-spillable-ordered-agg"];
   ["many-blocking-operators"];
   ["heavy-json-extraction"; "moderate-json-extraction"];
   ["json-each-expansion"]; ["json-array-extract"]; ["repeated-order-limit-1"];
   ["use-arg-max"]; ["leading-wildcard-like"]; ["function-on-filter-column"];
   ["distinct-star"]; ["union-without-all"]; ["count-distinct"];
   ["not-in-subquery"]; ["correlated-subquery"]; ["insert-select-star"];
   ["many-ctes"]; ["window-without-qualify"]; ["excessive-casts"];
   ["md-local-remote-transfer"]; ["group-by-verbose"];
   ["remote-file-select-star"]; ["md-duckling-size"]; ["list-transform"];
   ["non-spillable-pivot"]; ["many-left-join-on-true"]]%string.

Definition addedTable : list (list string) :=
  [["non-spillable-median"]; ["unnest-large-expansion"];
   ["recursive-cte-no-limit"]; ["ctas-memory"]; ["large-in-list"];
   ["read-remote-no-filter"]; ["multiple-remote-scans"]; ["glob-many-files"];
   ["temporal-join-via-window"]; ["or-chain-instead-of-in"];
   ["between-timestamp"]; ["chained-select-star"];
   ["md-cross-database-join"]]%string.

Definition ruleTable : list (list string) := baseTable ++ addedTable.

(** A block returns, and pushes findings of the given ids only. *)
Definition emits (ids : list string) (r : Rule) : Prop :=
  forall sql, exists l,
    r sql = Returns l /\ Forall (fun f => In (ruleId f) ids) l.

(** Does [id] stand in an entry of the table other than the [k]-th? *)
Fixpoint elsewhere (id : string) (k : nat) (table : list (list string)) : bool :=
  match table with
  | [] => false
  | ids :: rest =>
      match k with
      | 0 => existsb (String.eqb id) (concat rest)
      | S k' => existsb (String.eqb id) ids || elsewhere id k' rest
      end
  end.

(** The two revisions of index.ts under one name. *)
Inductive Revision : Type :=
| DirectFirst      (* the text as it is, then the normalized text *)
| NormalizedOnly.  (* the normalized text *)

Definition analyzeOf (rev : Revision) (toLowerCase toUpperCase : jsstr -> jsstr)
  (astify : jsstr -> ParseOutcome) (sql : jsstr) : Outcome AnalysisResult :=
  match rev with
  | DirectFirst => analyze toLowerCase toUpperCase astify sql
  | NormalizedOnly => analyze_normalized toLowerCase toUpperCase astify sql
  end.

(** The parse attempts of a revision on a trimmed text: the tree for the
    rules and the parse error. *)
Definition parseAttempts (astify : jsstr -> ParseOutcome) (rev : Revision)
  (trimmed : jsstr)
  : Outcome (AstValue * option jsstr) :=
  match rev with
  | DirectFirst =>
      tryCatch
        (ast <- callParser astify trimmed ;; Returns (ast, None))
        (fun _ =>
           sanitized <- preprocessForParser trimmed ;;
           tryCatch
             (ast <- callParser astify sanitized ;; Returns (ast, None))
             (fun e => Returns (AstNull, Some (errorMessage e))))
  | NormalizedOnly =>
      sanitized <- preprocessForParser trimmed ;;
      tryCatch
        (ast <- callParser astify sanitized ;; Returns (ast, None))
        (fun e => Returns (AstNull, Some (errorMessage e)))
  end.

(** What [runRules] pushes on a text for a tree, before it deduplicates:
    the findings of the rules over the tree, statement by statement, then
    the findings of the rules over the text. *)
Definition pushed (toLowerCase : jsstr -> jsstr) (ast : AstValue) (sql : jsstr)
  (textual : list Finding) : list Finding :=
  flat_map (structuralRules toLowerCase sql) (statements ast) ++ textual.


(** [{ type: 'select', columns, from, where, orderby, limit }] *)
Definition selectNode (cols : Columns Node) (from : Multi Node) (wh : option Node)
  (orderby : option (list Node)) (limit : option Node) : Node :=
  mkNode (Some (lit "select")) cols from wh orderby limit Absent None None None None
    None None None None.

(** [{ table: name }] *)
Definition tableItem (name : string) : Node :=
  mkNode None ColumnsOther Absent None None None Absent None None None None None
    None (Some (lit name)) None.

(** [{ expr: { ast: query }, as: alias }] *)
Definition subqueryItem (query : Node) (alias : string) : Node :=
  mkNode None ColumnsOther Absent None None None
    (Single (mkNode None ColumnsOther Absent None None None Absent (Some query)
               None None None None None None None))
    None None None None None None None (Some (lit alias)).

(** [{ expr: { type: 'column_ref', column: name } }]; the rules read the
    type only. *)
Definition columnItem (name : string) : Node :=
  mkNode None ColumnsOther Absent None None None
    (Single (mkNode (Some (lit "column_ref")) ColumnsOther Absent None None None
               Absent None None None None None None (Some (lit name)) None))
    None None None None None None None None.

(** SELECT a FROM t ORDER BY a *)
Definition sortedQuery : Node :=
  selectNode (ColumnsList [columnItem "a"]) (Many [tableItem "t"]) None
    (Some [columnItem "a"]) None.

(** SELECT a FROM (SELECT a FROM t ORDER BY a) s *)
Definition sortedSubquery : Node :=
  selectNode (ColumnsList [columnItem "a"]) (Many [subqueryItem sortedQuery "s"])
    None None None.

Definition sortedSubqueryText : jsstr :=
  lit "SELECT a FROM (SELECT a FROM t ORDER BY a) s".




(** A text in which every closing parenthesis closes one that the text
    opened, with [opened] parentheses open at its start and none at its
    end. *)
Fixpoint balancedFrom (s : jsstr) (opened : nat) : bool :=
  match s with
  | [] => opened =? 0
  | c :: t =>
      if (c =? 40)%N then balancedFrom t (S opened)
      else if (c =? 41)%N then
        match opened with
        | 0 => false
        | S below => balancedFrom t below
        end
      else balancedFrom t opened
  end.

Definition balanced (s : jsstr) : bool := balancedFrom s 0.

Definition nestedCall : jsstr :=
  lit "list_transform(json_extract_string(x, '$.a'), t -> UPPER(t))".

(** The dialect functions the normalizer rewrites, each with its
    placeholder, in the order of [preprocessForParser]. *)
Definition dialectCalls : list (string * jsstr) :=
  [("list_transform"%string, lit "NULL");
   ("json_extract_string"%string, lit "NULL");
   ("json_each"%string, lit "(SELECT 1)");
   ("LIST"%string, lit "ARRAY_AGG(1)");
   ("struct_pack"%string, lit "ROW(1)")].

Definition unionAfterDottedI : jsstr :=
  lit "SELECT name FROM t WHERE city = 'İzmir' UNION SELECT name FROM u".

Definition callAfterDottedI : jsstr := lit "İ string_agg(".

(** Basic Latin code units, and their lower case. *)
Definition isLatin (c : N) : bool := (c <? 128)%N.
Definition lowerLatin (c : N) : N := if isUpper c then (c + 32)%N else c.

(** The greatest number of subqueries ([ast] fields) on a path down from a
    node. *)
Fixpoint nesting (n : Node) : nat :=
  let opt (o : option Node) := match o with Some c => nesting c | None => 0 end in
  let most (l : list Node) := fold_right Nat.max 0 (map nesting l) in
  let multi (m : Multi Node) :=
    match m with
    | Absent => 0
    | Single c => nesting c
    | Many l => most l
    end in
  Nat.max (match n_columns n with ColumnsList l => most l | _ => 0 end)
  (Nat.max (multi (n_from n))
  (Nat.max (opt (n_where n))
  (Nat.max (match n_orderby n with Some l => most l | None => 0 end)
  (Nat.max (opt (n_limit n))
  (Nat.max (multi (n_expr n))
  (Nat.max (match n_ast n with Some c => S (nesting c) | None => 0 end)
  (Nat.max (opt (n_left n))
  (Nat.max (opt (n_right n))
  (Nat.max (opt (n_args n)) (opt (n_on n))))))))))).

(** A storage kept as a list of keys and values, the newest first. *)
Definition listGet (st : list (jsstr * jsstr)) (key : jsstr)
  : StorageCall (option jsstr) :=
  Done (match find (fun kv => jsstr_eqb (fst kv) key) st with
        | Some kv => Some (snd kv)
        | None => None
        end).

Definition listSet (st : list (jsstr * jsstr)) (key value : jsstr)
  : StorageCall (list (jsstr * jsstr)) :=
  Done ((key, value) :: st).

(** Spans of a text of length [len], from left to right from [from] on,
    none empty and no two overlapping. *)
Fixpoint spansIn (len from : nat) (spans : list (nat * nat)) : Prop :=
  match spans with
  | [] => True
  | (s, e) :: rest => from <= s /\ s < e /\ e <= len /\ spansIn len e rest
  end.

Definition spanText (s : jsstr) (span : nat * nat) : jsstr :=
  slice s (fst span) (snd span).

(** A text that [locate] can be asked for on [sql]: it is not empty, and
    its characters have the property [P] when those of [sql] do. *)
Definition needleFor (P : N -> Prop) (sql needle : jsstr) : Prop :=
  needle <> [] /\ (Forall P sql -> Forall P needle).

(** A finding without offset, or with the offset [locate] gives for such a
    text. *)
Definition wellLocated (toLowerCase : jsstr -> jsstr) (P : N -> Prop)
  (sql : jsstr) (f : Finding) : Prop :=
  match offset f with
  | None => True
  | Some o =>
      exists needle,
        needleFor P sql needle /\ locate toLowerCase sql needle = Some o
  end.

(** A block returns, and its findings are well located. *)
Definition locates (toLowerCase : jsstr -> jsstr) (P : N -> Prop) (r : Rule)
  : Prop :=
  forall sql, exists l,
    r sql = Returns l /\ Forall (wellLocated toLowerCase P sql) l.

(** The join keywords of the FROM items of a statement have the property
    [P]. *)
Definition joinsHave (P : N -> Prop) (stmt : Node) : Prop :=
  Forall (fun item =>
    match n_join item with
    | Some j => Forall P j
    | None => True
    end) (asList (n_from stmt)).


(** Ranges that follow one another from [cursor] on: each starts at or
    after the end of the one before, and ends at or after its start. *)
Fixpoint tiled (cursor : nat) (ranges : list Range) : Prop :=
  match ranges with
  | [] => True
  | r :: t => cursor <= r_start r /\ r_start r <= r_end r /\ tiled (r_end r) t
  end.

(** What a range of [buildSegments] is for its finding: an occurrence of
    the lower-cased fragment in the lower-cased text, as long as the
    fragment as given, or the offset of a finding without fragment. *)
Definition rangeOf (toLowerCase : jsstr -> jsstr) (lowerSql : jsstr) (r : Range)
  : Prop :=
  match fragment (r_finding r) with
  | Some (c :: t) =>
      r_end r = r_start r + List.length (c :: t)
      /\ firstn (List.length (toLowerCase (c :: t))) (skipn (r_start r) lowerSql)
         = toLowerCase (c :: t)
  | _ => offset (r_finding r) = Some (mkOffset (r_start r) (r_end r))
  end.

(** [{ table: name, join: keyword }]: a joined table without condition *)
Definition joinItem (name keyword : string) : Node :=
  mkNode None ColumnsOther Absent None None None Absent None None None None
    (Some (lit keyword)) None (Some (lit name)) None.

(** SELECT * FROM a LEFT JOIN b *)
Definition joinedQuery : Node :=
  selectNode ColumnsStar (Many [tableItem "a"; joinItem "b" "LEFT JOIN"]) None
    None None.

Definition joinedQueryText : jsstr := lit "  SELECT * FROM a LEFT JOIN b ".

(** Does the finding carry the id of a rule over the tree? *)
Definition isTreeId (f : Finding) : bool :=
  existsb (String.eqb (ruleId f)) structuralIds.

(** The expressions [preprocessForParser] looks for, in its order. *)
Definition dialectPatterns : list RegExp :=
  re_type_cast :: map (fun call => re_call (fst call)) dialectCalls
  ++ [re_pivot; re_unpivot].

(** A text in which none of them matches. *)
Definition plainDialect (s : jsstr) : bool :=
  forallb (fun re => negb (test re s)) dialectPatterns.

(** [inner] is the subquery of a FROM item of the SELECT [outer]. *)
Definition nests (outer inner : Node) : Prop :=
  isSelect outer = true
  /\ exists item, In item (asList (n_from outer)) /\ exprAst item = Some inner.

(** SELECT a FROM (query) s *)
Definition wrapQuery (query : Node) : Node :=
  selectNode (ColumnsList [columnItem "a"]) (Many [subqueryItem query "s"])
    None None None.

(** [{ type: 'insert', table: [{ table: 't' }] }] *)
Definition insertNode : Node :=
  mkNode (Some (lit "insert")) ColumnsOther Absent None None None Absent None None
    None None None None (Some (lit "t")) None.

(** The number a badge stands for. *)
Definition badgeCount (b : option nat) : nat :=
  match b with Some n => n | None => 0 end.

(* ====================================================================== *)
(** * Properties *)
(* ====================================================================== *)

Section MatcherFacts.
Variable input : jsstr.
Variable ignoreCase : bool.

Lemma sameText_bound : forall len s i,
  sameText input ignoreCase len s i = true -> i <= List.length input ->
  i + len <= List.length input.
Proof.
  induction len as [|len IH]; simpl; intros s i H Hi.
  - lia.
  - destruct (nth_error input s) as [a|]; try discriminate.
    destruct (nth_error input i) as [b|] eqn:Eb; try discriminate.
    apply andb_true_iff in H. destruct H as [_ H].
    assert (i < List.length input) by (apply nth_error_Some; congruence).
    specialize (IH _ _ H). lia.
Qed.

(** A successful match hands its continuation a state that lies at least
    [minLen r] further and still within the text. *)
Lemma rmatch_advance : forall r x c res,
  rmatch input ignoreCase r x c = Some res ->
  endIndex x <= List.length input ->
  exists y, c y = Some res
            /\ endIndex x + minLen r <= endIndex y
            /\ endIndex y <= List.length input.
Proof.
  induction r; intros x c res H Hx;
    match goal with
    | |- context [Star] => idtac
    | _ => simpl in H
    end.
  - exists x. simpl. repeat split; auto; lia.
  - destruct (nth_error input (endIndex x)) as [ch|] eqn:E; try discriminate.
    destruct (class_match ignoreCase invert cs ch); try discriminate.
    assert (endIndex x < List.length input) by (apply nth_error_Some; congruence).
    eexists. split; [exact H|]. simpl. lia.
  - destruct (nth_error input (endIndex x)) as [ch|] eqn:E; try discriminate.
    destruct (isLineTerminator ch); try discriminate.
    assert (endIndex x < List.length input) by (apply nth_error_Some; congruence).
    eexists. split; [exact H|]. simpl. lia.
  - apply IHr1 in H; auto. destruct H as (y & H & Hy1 & Hy2).
    apply IHr2 in H; auto. destruct H as (z & H & Hz1 & Hz2).
    exists z. simpl. repeat split; auto; lia.
  - unfold orElse in H.
    destruct (rmatch input ignoreCase r1 x c) eqn:E1.
    + inversion H; subst. apply IHr1 in E1; auto.
      destruct E1 as (y & ? & ? & ?). exists y. simpl. repeat split; auto; lia.
    + apply IHr2 in H; auto.
      destruct H as (y & ? & ? & ?). exists y. simpl. repeat split; auto; lia.
  - change (repeatMatcher (rmatch input ignoreCase r) greedy c
              (S (List.length input - endIndex x)) x = Some res) in H.
    revert H. generalize (S (List.length input - endIndex x)). intros fuel.
    revert x Hx. induction fuel as [|fuel IHf]; intros x Hx H; simpl in H;
      try discriminate.
    assert (Hagain : forall k,
      k = (fun y => if endIndex y <=? endIndex x then None
                    else repeatMatcher (rmatch input ignoreCase r) greedy c fuel y) ->
      rmatch input ignoreCase r x k = Some res ->
      exists y, c y = Some res /\ endIndex x + 0 <= endIndex y
                /\ endIndex y <= List.length input).
    { intros k -> Hout. apply IHr in Hout; auto.
      destruct Hout as (y & Hy & Hy1 & Hy2).
      destruct (endIndex y <=? endIndex x) eqn:Ele; try discriminate.
      apply IHf in Hy; auto.
      destruct Hy as (z & ? & ? & ?). exists z. repeat split; auto; lia. }
    specialize (Hagain _ eq_refl).
    destruct greedy; unfold orElse in H.
    + match type of H with match ?m with _ => _ end = _ => destruct m eqn:E1 end.
      * inversion H; subst. apply Hagain. reflexivity.
      * exists x. simpl. repeat split; auto; lia.
    + destruct (c x) eqn:E1.
      * inversion H; subst. exists x. simpl. repeat split; auto; lia.
      * apply Hagain in H. exact H.
  - apply IHr in H; auto. destruct H as (y & H & Hy1 & Hy2).
    eexists. split; [exact H|]. simpl. split; auto.
  - destruct (capture n (captures x)) as [[s e]|].
    + destruct (sameText input ignoreCase (e - s) s (endIndex x)) eqn:E; try discriminate.
      apply sameText_bound in E; auto.
      eexists. split; [exact H|]. simpl. lia.
    + exists x. simpl. repeat split; auto; lia.
  - destruct (atWordBoundary input (endIndex x)); try discriminate.
    exists x. simpl. repeat split; auto; lia.
  - destruct (rmatch input ignoreCase r x Some); try discriminate.
    exists x. simpl. repeat split; auto; lia.
Qed.
End MatcherFacts.

Lemma search_bounds : forall re s n i m,
  search re s n i = Some m -> i + n <= S (List.length s) ->
  i <= index m /\ index m + minLen (pattern re) <= matchEnd m
  /\ matchEnd m <= List.length s.
Proof.
  induction n as [|n IH]; simpl; intros i m H Hn; try discriminate.
  destruct (rmatch s (flag_i re) (pattern re) (mkMState i []) Some) eqn:E.
  - inversion H; subst; clear H. simpl.
    apply rmatch_advance in E; simpl; try lia.
    destruct E as (y & Hy & H1 & H2). inversion Hy; subst. simpl in *. lia.
  - apply IH in H; try lia.
Qed.

Lemma exec_bounds : forall re s lastIndex m,
  exec re s lastIndex = Some m ->
  lastIndex <= index m /\ index m + minLen (pattern re) <= matchEnd m
  /\ matchEnd m <= List.length s.
Proof.
  unfold exec. intros re s lastIndex m H.
  destruct (le_lt_dec lastIndex (S (List.length s))).
  - apply search_bounds in H; try lia. 
  - replace (S (List.length s) - lastIndex) with 0 in H by lia. discriminate.
Qed.

Section FuelFacts.
Variable input : jsstr.
Variable ignoreCase : bool.

(** Two continuations that agree from the current index on give the same
    match. *)
Lemma rmatch_ext : forall r x c1 c2,
  endIndex x <= List.length input ->
  (forall y, endIndex x <= endIndex y -> endIndex y <= List.length input ->
             c1 y = c2 y) ->
  rmatch input ignoreCase r x c1 = rmatch input ignoreCase r x c2.
Proof.
  induction r; intros x c1 c2 Hx Hc;
    match goal with
    | |- context [Star] => idtac
    | _ => simpl
    end.
  - apply Hc; lia.
  - destruct (nth_error input (endIndex x)) as [ch|] eqn:E; [|reflexivity].
    assert (endIndex x < List.length input) by (apply nth_error_Some; congruence).
    destruct (class_match _ _ _ _); [|reflexivity]. apply Hc; simpl; lia.
  - destruct (nth_error input (endIndex x)) as [ch|] eqn:E; [|reflexivity].
    assert (endIndex x < List.length input) by (apply nth_error_Some; congruence).
    destruct (isLineTerminator ch); [reflexivity|]. apply Hc; simpl; lia.
  - apply IHr1; [exact Hx|]. intros y Hy1 Hy2. apply IHr2; [exact Hy2|].
    intros z Hz1 Hz2. apply Hc; lia.
  - rewrite (IHr1 x c1 c2), (IHr2 x c1 c2); auto.
  - change (repeatMatcher (rmatch input ignoreCase r) greedy c1
              (S (List.length input - endIndex x)) x
            = repeatMatcher (rmatch input ignoreCase r) greedy c2
                (S (List.length input - endIndex x)) x).
    generalize (S (List.length input - endIndex x)). intros fuel.
    revert x Hx Hc. induction fuel as [|fuel IHf]; intros x Hx Hc; [reflexivity|].
    cbn [repeatMatcher].
    rewrite (Hc x) by lia.
    rewrite (IHr x
      (fun y => if endIndex y <=? endIndex x then None
                else repeatMatcher (rmatch input ignoreCase r) greedy c1 fuel y)
      (fun y => if endIndex y <=? endIndex x then None
                else repeatMatcher (rmatch input ignoreCase r) greedy c2 fuel y));
      auto.
    intros y Hy1 Hy2. destruct (endIndex y <=? endIndex x); [reflexivity|].
    apply IHf; auto. intros z Hz1 Hz2. apply Hc; lia.
  - apply IHr; [exact Hx|]. intros y Hy1 Hy2. apply Hc; simpl; lia.
  - destruct (capture n (captures x)) as [[s e]|]; [|apply Hc; lia].
    destruct (sameText input ignoreCase (e - s) s (endIndex x)) eqn:E; [|reflexivity].
    apply sameText_bound in E; auto. apply Hc; simpl; lia.
  - destruct (atWordBoundary input (endIndex x)); [|reflexivity]. apply Hc; lia.
  - destruct (rmatch input ignoreCase r x Some); [reflexivity|]. apply Hc; lia.
Qed.

(** The fuel of a repetition is never what ends it: any fuel above the
    number of characters left gives the same match. *)
Lemma repeatMatcher_fuel : forall a greedy c f1 f2 x,
  endIndex x <= List.length input ->
  List.length input - endIndex x < f1 ->
  List.length input - endIndex x < f2 ->
  repeatMatcher (rmatch input ignoreCase a) greedy c f1 x
  = repeatMatcher (rmatch input ignoreCase a) greedy c f2 x.
Proof.
  intros a greedy c. induction f1 as [|f1 IH]; intros f2 x Hx H1 H2; [lia|].
  destruct f2 as [|f2]; [lia|]. cbn [repeatMatcher].
  rewrite (rmatch_ext a x
    (fun y => if endIndex y <=? endIndex x then None
              else repeatMatcher (rmatch input ignoreCase a) greedy c f1 y)
    (fun y => if endIndex y <=? endIndex x then None
              else repeatMatcher (rmatch input ignoreCase a) greedy c f2 y));
    auto.
  intros y Hy1 Hy2. destruct (endIndex y <=? endIndex x) eqn:E; [reflexivity|].
  apply Nat.leb_gt in E. apply IH; lia.
Qed.

End FuelFacts.

Lemma findAll_loop_returns : forall re sql, consuming re = true ->
  forall fuel i, List.length sql - i < fuel ->
  exists l, findAll_loop fuel re sql i = Returns l.
Proof.
  intros re sql Hre. unfold consuming in Hre. apply Nat.ltb_lt in Hre.
  induction fuel as [|fuel IH]; intros i Hf; [lia|].
  simpl. destruct (exec re sql i) as [m|] eqn:E.
  - apply exec_bounds in E. destruct E as (E1 & E2 & E3).
    destruct (IH (matchEnd m)) as [l Hl]; [lia|].
    rewrite Hl. simpl. eauto.
  - eauto.
Qed.

Lemma findAll_returns : forall re sql, consuming re = true ->
  exists l, findAll sql re = Returns l.
Proof.
  intros. unfold findAll. apply findAll_loop_returns; auto. lia.
Qed.

Lemma countMatches_returns : forall re sql, consuming re = true ->
  exists n, countMatches sql re = Returns n.
Proof.
  intros re sql H. unfold countMatches.
  destruct (findAll_returns re sql H) as [l ->]. simpl. eauto.
Qed.

Lemma advance_grows : forall re s i m,
  exec re s i = Some m -> i < advance m /\ advance m <= S (List.length s).
Proof.
  intros re s i m E. apply exec_bounds in E. destruct E as (E1 & E2 & E3).
  unfold advance. destruct (matchEnd m =? index m) eqn:Q.
  - apply Nat.eqb_eq in Q. lia.
  - apply Nat.eqb_neq in Q. lia.
Qed.

Lemma matchCount_loop_returns : forall re s fuel i,
  S (List.length s) - i < fuel ->
  exists n, matchCount_loop fuel re s i = Returns n.
Proof.
  intros re s. induction fuel as [|fuel IH]; intros i Hf; [lia|].
  simpl. destruct (exec re s i) as [m|] eqn:E.
  - apply advance_grows in E. destruct (IH (advance m)) as [n Hn]; [lia|].
    rewrite Hn. simpl. eauto.
  - eauto.
Qed.

Lemma matchCount_returns : forall re s, exists n, matchCount s re = Returns n.
Proof.
  intros. unfold matchCount. apply matchCount_loop_returns. lia.
Qed.

Lemma replace_loop_returns : forall re tmpl s fuel i from,
  S (List.length s) - i < fuel ->
  exists s', replace_loop fuel re tmpl s i from = Returns s'.
Proof.
  intros re tmpl s. induction fuel as [|fuel IH]; intros i from Hf; [lia|].
  simpl. destruct (exec re s i) as [m|] eqn:E.
  - apply advance_grows in E.
    destruct (IH (advance m) (matchEnd m)) as [n Hn]; [lia|].
    rewrite Hn. simpl. eauto.
  - eauto.
Qed.

Lemma replace_returns : forall s re tmpl, exists s', replace s re tmpl = Returns s'.
Proof.
  intros. unfold replace. apply replace_loop_returns. lia.
Qed.

(** The scan of the parentheses stops within the text it was given. *)
Lemma scanParens_bounds : forall rest depth i depth' i',
  scanParens rest depth i = (depth', i') ->
  i <= i' /\ i' <= i + List.length rest.
Proof.
  induction rest as [|c t IH]; intros depth i depth' i' H.
  - destruct depth; simpl in H; inversion H; subst; simpl; lia.
  - destruct depth as [|below]; simpl in H.
    + inversion H; subst. simpl. lia.
    + destruct (c =? 40)%N; [|destruct (c =? 41)%N];
        apply IH in H; simpl List.length; lia.
Qed.

Lemma matched_length : forall re s i m,
  exec re s i = Some m -> List.length (matched s m) = matchEnd m - index m.
Proof.
  intros re s i m E. apply exec_bounds in E. destruct E as (E1 & E2 & E3).
  unfold matched, slice. rewrite length_firstn, length_skipn. lia.
Qed.

Lemma replaceBalancedCall_loop_returns : forall re replacement,
  consuming re = true ->
  forall fuel s i, i <= List.length s -> List.length s - i < fuel ->
  exists s', replaceBalancedCall_loop fuel re replacement s i = Returns s'.
Proof.
  intros re replacement Hre. unfold consuming in Hre. apply Nat.ltb_lt in Hre.
  induction fuel as [|fuel IH]; intros s i Hi Hf; [lia|].
  simpl. destruct (exec re s i) as [m|] eqn:E; [|eauto].
  rewrite (matched_length _ _ _ _ E).
  apply exec_bounds in E. destruct E as (E1 & E2 & E3).
  destruct (scanParens _ _ _) as [depth j] eqn:Es.
  apply scanParens_bounds in Es. unfold sliceFrom in Es.
  rewrite length_skipn in Es.
  destruct (depth =? 0).
  - apply IH.
    + rewrite !length_app. unfold slice, sliceFrom.
      rewrite length_firstn, !length_skipn. lia.
    + rewrite !length_app. unfold slice, sliceFrom.
      rewrite length_firstn, !length_skipn. lia.
  - apply IH; lia.
Qed.

Lemma minLen_cat_last : forall l r, minLen r <= minLen (cat (l ++ [r])).
Proof.
  induction l as [|a l IHl]; intros r; simpl; [lia|].
  specialize (IHl r). destruct (l ++ [r]) eqn:El.
  - destruct l; discriminate.
  - simpl. simpl in IHl. lia.
Qed.

Lemma re_call_consuming : forall funcName, consuming (re_call funcName) = true.
Proof.
  intros funcName. unfold consuming. apply Nat.ltb_lt.
  change (pattern (re_call funcName))
    with (cat ([WordB; str funcName; ws0] ++ [ch "("])).
  pose proof (minLen_cat_last [WordB; str funcName; ws0] (ch "(")) as H.
  change (minLen (ch "(")) with 1 in H. lia.
Qed.

Lemma replaceBalancedCall_returns : forall s funcName replacement,
  exists s', replaceBalancedCall s funcName replacement = Returns s'.
Proof.
  intros. unfold replaceBalancedCall.
  apply replaceBalancedCall_loop_returns; try lia.
  apply re_call_consuming.
Qed.

Lemma preprocessForParser_returns : forall sql,
  exists s, preprocessForParser sql = Returns s.
Proof.
  intros sql. unfold preprocessForParser.
  destruct (replace_returns sql re_type_cast []) as [s1 ->]. simpl.
  destruct (replaceBalancedCall_returns s1 "list_transform" (lit "NULL")) as [s2 ->]. simpl.
  destruct (replaceBalancedCall_returns s2 "json_extract_string" (lit "NULL")) as [s3 ->]. simpl.
  destruct (replaceBalancedCall_returns s3 "json_each" (lit "(SELECT 1)")) as [s4 ->]. simpl.
  destruct (replaceBalancedCall_returns s4 "LIST" (lit "ARRAY_AGG(1)")) as [s5 ->]. simpl.
  destruct (replaceBalancedCall_returns s5 "struct_pack" (lit "ROW(1)")) as [s6 ->]. simpl.
  destruct (replace_returns s6 re_pivot selectFrom) as [s7 ->]. simpl.
  destruct (replace_returns s7 re_unpivot selectFrom) as [s8 ->]. simpl.
  eauto.
Qed.

Lemma set_mem_add_same : forall (x : string) s,
  set_mem string_dec x (set_add string_dec x s) = true.
Proof.
  intros. apply set_mem_correct2. apply set_add_intro2. reflexivity.
Qed.

Lemma set_mem_add_other : forall (x y : string) s, x <> y ->
  set_mem string_dec x (set_add string_dec y s) = set_mem string_dec x s.
Proof.
  intros x y s Hxy.
  destruct (set_mem string_dec x s) eqn:E.
  - apply set_mem_correct2. apply set_add_intro1. apply set_mem_correct1 in E. exact E.
  - apply set_mem_complete2. intros Hin. apply set_add_elim in Hin.
    destruct Hin as [Hin|Hin]; [contradiction|].
    apply set_mem_complete1 in E. contradiction.
Qed.

Lemma hasId_true : forall id f, hasId id f = true <-> ruleId f = id.
Proof. intros. unfold hasId. apply String.eqb_eq. Qed.

Lemma hasId_false : forall id f, hasId id f = false <-> ruleId f <> id.
Proof. intros. unfold hasId. apply String.eqb_neq. Qed.

Lemma dedupe_withId : forall id fs seen,
  withId id (dedupe seen fs) =
  if set_mem string_dec id seen then [] else firstn 1 (withId id fs).
Proof.
  intros id. unfold withId.
  induction fs as [|f rest IH]; intros seen; cbn [dedupe filter].
  - destruct (set_mem string_dec id seen); reflexivity.
  - destruct (hasId id f) eqn:Eid.
    + apply hasId_true in Eid. subst id.
      destruct (set_mem string_dec (ruleId f) seen) eqn:Em.
      * rewrite IH, Em. reflexivity.
      * cbn [filter]. replace (hasId (ruleId f) f) with true
          by (symmetry; apply hasId_true; reflexivity).
        rewrite IH, set_mem_add_same. reflexivity.
    + destruct (set_mem string_dec (ruleId f) seen) eqn:Em.
      * apply IH.
      * cbn [filter]. rewrite Eid. rewrite IH.
        apply hasId_false in Eid.
        rewrite set_mem_add_other; auto.
Qed.

Lemma dedupe_fresh : forall fs seen f,
  In f (dedupe seen fs) -> ~ set_In (ruleId f) seen.
Proof.
  induction fs as [|g rest IH]; intros seen f Hin; simpl in Hin; [contradiction|].
  destruct (set_mem string_dec (ruleId g) seen) eqn:Em.
  - eauto.
  - destruct Hin as [->|Hin].
    + apply (set_mem_complete1 string_dec). exact Em.
    + apply IH in Hin. intros Hs. apply Hin. apply set_add_intro1. exact Hs.
Qed.

Lemma dedupe_NoDup : forall fs seen, NoDup (map ruleId (dedupe seen fs)).
Proof.
  induction fs as [|g rest IH]; intros seen; simpl; [constructor|].
  destruct (set_mem string_dec (ruleId g) seen) eqn:Em; [apply IH|].
  simpl. constructor; [|apply IH].
  intros Hin. apply in_map_iff in Hin. destruct Hin as (f & Hf & Hin).
  apply dedupe_fresh in Hin. apply Hin. rewrite Hf. apply set_add_intro2. reflexivity.
Qed.

Lemma dedupe_Subseq : forall fs seen, Subseq (dedupe seen fs) fs.
Proof.
  induction fs as [|g rest IH]; intros seen; simpl; [constructor|].
  destruct (set_mem string_dec (ruleId g) seen); constructor; apply IH.
Qed.

(** A finding survives only if nothing before it carries its rule id. *)
Lemma dedupe_first : forall fs seen f,
  In f (dedupe seen fs) ->
  exists before after,
    fs = before ++ f :: after /\ forall g, In g before -> ruleId g <> ruleId f.
Proof.
  induction fs as [|g rest IH]; intros seen f Hin; simpl in Hin; [contradiction|].
  destruct (set_mem string_dec (ruleId g) seen) eqn:Em.
  - pose proof (dedupe_fresh _ _ _ Hin) as Hfresh.
    apply IH in Hin. destruct Hin as (b & a & -> & Hb).
    exists (g :: b), a. split; [reflexivity|].
    intros h [<-|Hh]; [|auto].
    intros Heq. apply Hfresh. rewrite <- Heq. apply (set_mem_correct1 string_dec). exact Em.
  - destruct Hin as [->|Hin].
    + exists [], rest. split; [reflexivity|]. intros h [].
    + pose proof (dedupe_fresh _ _ _ Hin) as Hfresh.
      apply IH in Hin. destruct Hin as (b & a & -> & Hb).
      exists (g :: b), a. split; [reflexivity|].
      intros h [<-|Hh]; [|auto].
      intros Heq. apply Hfresh. rewrite <- Heq. apply set_add_intro2. reflexivity.
Qed.

Lemma withId_app : forall id a b, withId id (a ++ b) = withId id a ++ withId id b.
Proof. intros. unfold withId. apply filter_app. Qed.

Lemma withId_none : forall id ids fs,
  Forall (fun f => In (ruleId f) ids) fs -> ~ In id ids -> withId id fs = [].
Proof.
  intros id ids fs H Hid. induction H as [|f fs Hf _ IH]; simpl; [reflexivity|].
  unfold hasId. destruct (String.eqb (ruleId f) id) eqn:E; [|exact IH].
  apply String.eqb_eq in E. subst id. contradiction.
Qed.

Lemma withId_all : forall id fs,
  Forall (fun f => ruleId f = id) fs -> withId id fs = fs.
Proof.
  intros id fs H. induction H as [|f fs Hf _ IH]; simpl; [reflexivity|].
  unfold hasId. rewrite Hf, String.eqb_refl. f_equal. exact IH.
Qed.

(** *** The size of a tree *)

Lemma list_sum_in : forall (l : list Node) c,
  In c l -> nsize c <= list_sum (map nsize l).
Proof.
  induction l as [|a l IH]; intros c Hin; simpl in *; [contradiction|].
  destruct Hin as [<-|Hin]; [lia|]. apply IH in Hin. lia.
Qed.

Lemma child_smaller : forall n c, In c (children n) -> nsize c < nsize n.
Proof.
  intros [t cols from wh ob lim ex ast l r args j on tb al] c Hin.
  unfold children in Hin. simpl in Hin. simpl.
  repeat (apply in_app_or in Hin; destruct Hin as [Hin|Hin]);
    repeat match goal with
    | H : In _ (match ?x with _ => _ end) |- _ => destruct x; simpl in H
    | H : In _ (asList ?x) |- _ => destruct x; simpl in H
    | H : In _ (optNodes ?x) |- _ => destruct x; simpl in H
    | H : False |- _ => contradiction
    | H : _ \/ False |- _ => destruct H as [H|[]]
    | H : ?a = c |- _ => subst a
    | H : In c ?l |- _ => apply list_sum_in in H
    end; simpl; try lia.
Qed.

(** Induction on the size of the tree. *)
Lemma Node_size_ind : forall (P : Node -> Prop),
  (forall n, (forall c, nsize c < nsize n -> P c) -> P n) -> forall n, P n.
Proof.
  intros P H n.
  assert (forall k c, nsize c < k -> P c) as Hk.
  { induction k as [|k IH]; intros c Hc; [lia|].
    apply H. intros c' Hc'. apply IH. lia. }
  apply (Hk (S (nsize n))). lia.
Qed.

Lemma ast_child : forall e sub, n_ast e = Some sub -> In sub (children e).
Proof. intros e sub H. unfold children. rewrite H, !in_app_iff. simpl. tauto. Qed.

Lemma expr_child : forall f e, In e (asList (n_expr f)) -> In e (children f).
Proof. intros f e H. unfold children. rewrite !in_app_iff. tauto. Qed.

Lemma from_child : forall n f, In f (asList (n_from n)) -> In f (children n).
Proof. intros n f H. unfold children. rewrite !in_app_iff. tauto. Qed.

Lemma where_child : forall n e, n_where n = Some e -> In e (children n).
Proof. intros n e H. unfold children. rewrite H, !in_app_iff. simpl. tauto. Qed.

Lemma left_child : forall n e, n_left n = Some e -> In e (children n).
Proof. intros n e H. unfold children. rewrite H, !in_app_iff. simpl. tauto. Qed.

Lemma right_child : forall n e, n_right n = Some e -> In e (children n).
Proof. intros n e H. unfold children. rewrite H, !in_app_iff. simpl. tauto. Qed.

Lemma args_child : forall n e, n_args n = Some e -> In e (children n).
Proof. intros n e H. unfold children. rewrite H, !in_app_iff. simpl. tauto. Qed.

(** The query nested in a FROM item is smaller than the query. *)
Lemma from_subquery_smaller : forall n f sub,
  In f (asList (n_from n)) -> exprAst f = Some sub -> nsize sub < nsize n.
Proof.
  intros n f sub Hf Hs. unfold exprAst in Hs.
  destruct (n_expr f) as [|e|l] eqn:Ee; try discriminate.
  apply from_child, child_smaller in Hf.
  assert (nsize e < nsize f) by (apply child_smaller, expr_child; rewrite Ee; simpl; auto).
  apply ast_child, child_smaller in Hs. lia.
Qed.

Section RuleFacts.
Variable toLowerCase : jsstr -> jsstr.
Variable sql : jsstr.

Lemma ruleId_located : forall f needle,
  ruleId (located toLowerCase f sql needle) = ruleId f.
Proof.
  intros. unfold located. destruct (locate toLowerCase sql needle); reflexivity.
Qed.

Lemma checkSelectStar_eq : forall ast,
  checkSelectStar toLowerCase sql ast =
  if negb (isSelect ast) then []
  else
    (match n_columns ast with
     | ColumnsStar => [located toLowerCase F_select_star sql (lit "select *")]
     | ColumnsList cols =>
         flat_map (fun col => if isStarColumn col then [F_select_star_item] else [])
           cols
     | ColumnsOther => []
     end)
    ++ flat_map (fun fromItem =>
         match exprAst fromItem with
         | Some sub => checkSelectStar toLowerCase sql sub
         | None => []
         end) (asList (n_from ast)).
Proof.
  intros [t cols from wh ob lim ex ast l r args j on tb al]. simpl.
  destruct (negb _); [reflexivity|]. f_equal.
  destruct from as [|a|items]; simpl.
  - reflexivity.
  - rewrite app_nil_r. unfold exprAst. destruct (n_expr a); reflexivity.
  - apply flat_map_ext. intros a. unfold exprAst. destruct (n_expr a); reflexivity.
Qed.

Lemma checkNestedSubqueries_eq : forall ast depth,
  checkNestedSubqueries sql ast depth =
  if negb (isSelect ast) then []
  else
    (if 3 <=? depth then [F_deeply_nested_subquery] else [])
    ++ (match n_where ast with
        | Some e => checkExprForSubqueries sql e depth
        | None => []
        end)
    ++ flat_map (fun f =>
         match exprAst f with
         | Some sub => checkNestedSubqueries sql sub (S depth)
         | None => []
         end) (asList (n_from ast)).
Proof.
  intros [t cols from wh ob lim ex ast l r args j on tb al] depth. simpl.
  destruct (negb _); [reflexivity|]. do 2 f_equal.
  destruct from as [|a|items]; simpl.
  - reflexivity.
  - rewrite app_nil_r. unfold exprAst. destruct (n_expr a); reflexivity.
  - apply flat_map_ext. intros a. unfold exprAst. destruct (n_expr a); reflexivity.
Qed.

Lemma checkExprForSubqueries_eq : forall expr depth,
  checkExprForSubqueries sql expr depth =
  (match n_ast expr with
   | Some sub => checkNestedSubqueries sql sub (S depth)
   | None => []
   end)
  ++ (match n_left expr with
      | Some l => checkExprForSubqueries sql l depth
      | None => []
      end)
  ++ (match n_right expr with
      | Some r => checkExprForSubqueries sql r depth
      | None => []
      end)
  ++ (match n_args expr with
      | Some args =>
          flat_map (fun a =>
            match n_ast a with
            | Some sub => checkNestedSubqueries sql sub (S depth)
            | None => []
            end) (asList (n_expr args))
      | None => []
      end).
Proof.
  intros [t cols from wh ob lim ex ast l r args j on tb al] depth. simpl.
  do 3 f_equal. destruct args as [a|]; [|reflexivity].
  destruct (n_expr a); simpl; try reflexivity.
  rewrite app_nil_r. reflexivity.
Qed.

Lemma Forall_flat_map' : forall (A B : Type) (P : B -> Prop) (f : A -> list B) l,
  (forall a, In a l -> Forall P (f a)) -> Forall P (flat_map f l).
Proof.
  intros A B P f l H. induction l as [|a l IH]; simpl; [constructor|].
  apply Forall_app. split; [apply H; left; reflexivity|].
  apply IH. intros b Hb. apply H. right. exact Hb.
Qed.

Lemma checkSelectStar_ids : forall ast,
  Forall (fun f => ruleId f = "select-star"%string) (checkSelectStar toLowerCase sql ast).
Proof.
  induction ast as [ast IH] using Node_size_ind.
  rewrite checkSelectStar_eq.
  destruct (negb (isSelect ast)); [constructor|].
  apply Forall_app. split.
  - destruct (n_columns ast) as [|cols|].
    + constructor; [|constructor]. apply ruleId_located.
    + apply Forall_flat_map'. intros col _.
      destruct (isStarColumn col); [constructor; [reflexivity|constructor]|constructor].
    + constructor.
  - apply Forall_flat_map'. intros f Hf.
    destruct (exprAst f) as [sub|] eqn:Es; [|constructor].
    apply IH. eapply from_subquery_smaller; eauto.
Qed.

Lemma checkNested_ids : forall n,
  (forall depth, Forall (fun f => ruleId f = "deeply-nested-subquery"%string)
                   (checkNestedSubqueries sql n depth))
  /\ (forall depth, Forall (fun f => ruleId f = "deeply-nested-subquery"%string)
                      (checkExprForSubqueries sql n depth)).
Proof.
  induction n as [n IH] using Node_size_ind. split; intros depth.
  - rewrite checkNestedSubqueries_eq.
    destruct (negb (isSelect n)); [constructor|].
    repeat (apply Forall_app; split).
    + destruct (3 <=? depth); [constructor; [reflexivity|constructor]|constructor].
    + destruct (n_where n) as [e|] eqn:Ew; [|constructor].
      apply IH. apply child_smaller, where_child, Ew.
    + apply Forall_flat_map'. intros f Hf.
      destruct (exprAst f) as [sub|] eqn:Es; [|constructor].
      apply IH. eapply from_subquery_smaller; eauto.
  - rewrite checkExprForSubqueries_eq.
    repeat (apply Forall_app; split).
    + destruct (n_ast n) as [sub|] eqn:Ea; [|constructor].
      apply IH. apply child_smaller, ast_child, Ea.
    + destruct (n_left n) as [e|] eqn:Ea; [|constructor].
      apply IH. apply child_smaller, left_child, Ea.
    + destruct (n_right n) as [e|] eqn:Ea; [|constructor].
      apply IH. apply child_smaller, right_child, Ea.
    + destruct (n_args n) as [args|] eqn:Ea; [|constructor].
      apply Forall_flat_map'. intros a Ha.
      destruct (n_ast a) as [sub|] eqn:Es; [|constructor].
      apply IH.
      apply args_child, child_smaller in Ea.
      apply expr_child, child_smaller in Ha.
      apply ast_child, child_smaller in Es. lia.
Qed.

Lemma structuralRules_ids : forall node,
  Forall (fun f => In (ruleId f) structuralIds) (structuralRules toLowerCase sql node).
Proof.
  intros node. unfold structuralRules.
  assert (Hone : forall f, In (ruleId f) structuralIds ->
                           Forall (fun f => In (ruleId f) structuralIds) [f])
    by (intros; constructor; [assumption|constructor]).
  repeat (apply Forall_app; split).
  - eapply Forall_impl; [|apply checkSelectStar_ids].
    intros f Hf. rewrite Hf. unfold structuralIds; simpl; auto 10.
  - unfold checkOrderByWithoutLimit.
    destruct (negb (isSelect node)); [constructor|].
    destruct (n_orderby node), (n_limit node); try constructor.
    + rewrite ruleId_located. unfold structuralIds; simpl; auto 10.
    + constructor.
  - unfold checkCrossJoin.
    destruct (_ || _); [constructor|].
    apply Forall_flat_map'. intros item _.
    destruct (n_join item) as [j|]; [|constructor].
    destruct (jsstr_eqb j _); [|constructor].
    apply Hone. rewrite ruleId_located. unfold structuralIds; simpl; auto 10.
  - eapply Forall_impl; [|apply checkNested_ids].
    intros f Hf. rewrite Hf. unfold structuralIds; simpl; auto 10.
  - unfold checkJoinWithoutCondition.
    destruct (_ || _); [constructor|].
    apply Forall_app. split.
    + destruct (_ && _); [|constructor].
      apply Hone. unfold structuralIds; simpl; auto 10.
    + apply Forall_flat_map'. intros item _.
      destruct (n_join item) as [[|c t]|]; try constructor;
        destruct (n_on item); try constructor.
      destruct (jsstr_eqb _ _); [constructor|].
      apply Hone. rewrite ruleId_located. unfold structuralIds; simpl; auto 10.
Qed.

End RuleFacts.

Section PatternFacts.
Variable toLowerCase : jsstr -> jsstr.
Variable toUpperCase : jsstr -> jsstr.

Ltac loops :=
  repeat match goal with
  | |- context [findAll ?sql ?re] =>
      let l := fresh "ms" in
      destruct (findAll_returns re sql eq_refl) as [l ->]; cbn [bind]
  | |- context [countMatches ?sql ?re] =>
      let n := fresh "n" in
      destruct (countMatches_returns re sql eq_refl) as [n ->]; cbn [bind]
  | |- context [matchCount ?s ?re] =>
      let n := fresh "n" in
      destruct (matchCount_returns re s) as [n ->]; cbn [bind]
  end.

Ltac ids :=
  repeat match goal with
  | |- Forall _ [] => constructor
  | |- Forall _ (_ ++ _) => apply Forall_app; split
  | |- Forall _ (when ?b _) => destruct b; cbn [when]
  | |- Forall _ (if ?b then _ else _) => destruct b
  | |- Forall _ (match ?l with [] => _ | _ :: _ => _ end) => destruct l
  | |- Forall _ (let _ := _ in _) => cbv zeta
  | |- Forall _ [_] =>
      constructor;
      [rewrite ?(ruleId_located toLowerCase); cbn [In]; auto 10 | constructor]
  end.

Ltac emits_tac :=
  intros sql; cbv beta delta [rule_list rule_string_agg rule_ordered_agg
    rule_blocking_operators rule_json_extraction rule_json_each rule_json_array
    rule_order_limit_1 rule_arg_max rule_like rule_func_in_where
    rule_distinct_star rule_union rule_count_distinct rule_not_in
    rule_correlated rule_insert_select_star rule_many_ctes rule_qualify
    rule_casts rule_local_remote rule_group_by_verbose rule_remote_select_star
    rule_duckling_size rule_list_transform rule_pivot rule_left_join_on_true
    rule_ordered_set_agg rule_unnest rule_recursive_cte rule_ctas rule_in_list
    rule_remote_no_filter rule_remote_scans rule_glob rule_temporal_join
    rule_or_chain rule_between rule_chained_select_star rule_cross_database];
  cbv zeta; loops; eexists; split; [reflexivity|]; ids.

Lemma rule_like_emits :
  emits ["leading-wildcard-like"%string] (rule_like toLowerCase).
Proof.
  intros sql. unfold rule_like. loops. eexists. split; [reflexivity|].
  apply Forall_forall. intros f Hf. apply in_map_iff in Hf.
  destruct Hf as (m & <- & _). rewrite ruleId_located. cbn [In]. auto.
Qed.

Lemma patternRules_emit :
  Forall2 emits ruleTable (patternRules toLowerCase toUpperCase).
Proof.
  unfold ruleTable, baseTable, addedTable, patternRules, baseRules, addedRules.
  cbn [app].
  repeat (apply Forall2_cons; [first [apply rule_like_emits | emits_tac]|]).
  constructor.
Qed.

End PatternFacts.

Lemma existsb_eqb_false : forall id ids,
  existsb (String.eqb id) ids = false -> ~ In id ids.
Proof.
  intros id ids H Hin.
  assert (existsb (String.eqb id) ids = true) as Ht.
  { apply existsb_exists. exists id. split; [exact Hin|apply String.eqb_refl]. }
  congruence.
Qed.

Lemma runBlocks_returns : forall table rules,
  Forall2 emits table rules ->
  forall sql, exists fs,
    runBlocks rules sql = Returns fs
    /\ Forall (fun f => In (ruleId f) (concat table)) fs.
Proof.
  intros table rules H sql.
  induction H as [|ids r table rules Hr _ IH]; simpl.
  - exists []. split; [reflexivity|constructor].
  - destruct (Hr sql) as (l & -> & Hl). destruct IH as (fs & -> & Hfs). simpl.
    exists (l ++ fs). split; [reflexivity|].
    apply Forall_app. split.
    + eapply Forall_impl; [|exact Hl]. intros f Hf. apply in_or_app. left. exact Hf.
    + eapply Forall_impl; [|exact Hfs]. intros f Hf. apply in_or_app. right. exact Hf.
Qed.

(** The findings of a rule id that one block alone can push are the ones
    that block pushed. *)
Lemma runBlocks_withId : forall table rules,
  Forall2 emits table rules ->
  forall id k r sql,
    nth_error rules k = Some r -> elsewhere id k table = false ->
    exists l fs,
      r sql = Returns l /\ runBlocks rules sql = Returns fs
      /\ withId id fs = withId id l.
Proof.
  intros table rules H id.
  induction H as [|ids r0 table rules Hr Hrest IH]; intros k r sql Hk He.
  - destruct k; discriminate.
  - destruct k as [|k]; simpl in Hk, He.
    + inversion Hk; subst r0; clear Hk.
      destruct (Hr sql) as (l & El & Hl).
      destruct (runBlocks_returns _ _ Hrest sql) as (fs & Efs & Hfs).
      exists l, (l ++ fs). simpl. rewrite El, Efs. simpl.
      repeat split; auto.
      rewrite withId_app.
      rewrite (withId_none id _ fs Hfs (existsb_eqb_false _ _ He)).
      apply app_nil_r.
    + apply orb_false_iff in He. destruct He as [He1 He2].
      destruct (Hr sql) as (l0 & El0 & Hl0).
      destruct (IH k r sql Hk He2) as (l & fs & El & Efs & Hw).
      exists l, (l0 ++ fs). simpl. rewrite El0, Efs. simpl.
      repeat split; auto.
      rewrite withId_app.
      rewrite (withId_none id _ l0 Hl0 (existsb_eqb_false _ _ He1)).
      exact Hw.
Qed.

Section EngineFacts.
Variable toLowerCase : jsstr -> jsstr.
Variable toUpperCase : jsstr -> jsstr.

Lemma regexRules_returns : forall sql, exists fs,
  regexRules toLowerCase toUpperCase sql = Returns fs
  /\ Forall (fun f => In (ruleId f) (concat ruleTable)) fs.
Proof.
  intros sql. unfold regexRules.
  apply runBlocks_returns. apply patternRules_emit.
Qed.

Lemma structural_all_ids : forall sql ast,
  Forall (fun f => In (ruleId f) structuralIds)
    (flat_map (structuralRules toLowerCase sql) (statements ast)).
Proof.
  intros sql ast. apply Forall_flat_map'. intros n _. apply structuralRules_ids.
Qed.

Lemma runRules_returns : forall ast sql, exists textual,
  regexRules toLowerCase toUpperCase sql = Returns textual
  /\ runRules toLowerCase toUpperCase ast sql =
     Returns (dedupe (empty_set string)
                (flat_map (structuralRules toLowerCase sql) (statements ast)
                 ++ textual)).
Proof.
  intros ast sql. destruct (regexRules_returns sql) as (textual & E & _).
  exists textual. split; [exact E|].
  unfold runRules, emitted. rewrite E. reflexivity.
Qed.

(** What the findings of a rule id of one text block are after [runRules]. *)
Lemma runRules_withId : forall id k r ast sql,
  nth_error (patternRules toLowerCase toUpperCase) k = Some r ->
  elsewhere id k ruleTable = false ->
  existsb (String.eqb id) structuralIds = false ->
  exists l fs,
    r sql = Returns l
    /\ runRules toLowerCase toUpperCase ast sql = Returns fs
    /\ withId id fs = firstn 1 (withId id l).
Proof.
  intros id k r ast sql Hk He Hs.
  destruct (runBlocks_withId _ _ (patternRules_emit toLowerCase toUpperCase)
              id k r sql Hk He) as (l & textual & El & Et & Hw).
  exists l. eexists. split; [exact El|].
  unfold runRules, emitted, regexRules. rewrite Et. cbn [bind].
  split; [reflexivity|].
  rewrite dedupe_withId. cbn [set_mem empty_set].
  rewrite withId_app.
  rewrite (withId_none id _ _ (structural_all_ids sql ast) (existsb_eqb_false _ _ Hs)).
  cbn [app]. rewrite Hw. reflexivity.
Qed.

Variable astify : jsstr -> ParseOutcome.

Lemma analyzeOf_eq : forall rev sql,
  analyzeOf rev toLowerCase toUpperCase astify sql =
  match trim sql with
  | [] => Returns (mkResult [] None)
  | _ :: _ =>
      parsed <- parseAttempts astify rev (trim sql) ;;
      fs <- runRules toLowerCase toUpperCase (fst parsed) (trim sql) ;;
      Returns (mkResult fs (snd parsed))
  end.
Proof.
  intros [|] sql; unfold analyzeOf, analyze, analyze_normalized, parseAttempts;
    destruct (trim sql); try reflexivity.
  destruct (preprocessForParser (n :: j)); reflexivity.
Qed.

(** Every parse attempt ends with a tree (possibly none) and an error
    message, which is there exactly when the last attempt threw. *)
Lemma parseAttempts_returns : forall rev trimmed,
  exists sanitized,
    preprocessForParser trimmed = Returns sanitized
    /\ ((exists ast, parseAttempts astify rev trimmed = Returns (ast, None)
                     /\ (astify trimmed = Parsed ast /\ rev = DirectFirst
                         \/ astify sanitized = Parsed ast))
        \/ (exists e, parseAttempts astify rev trimmed = Returns (AstNull, Some (errorMessage e))
                      /\ astify sanitized = ParseThrew e
                      /\ (rev = DirectFirst -> exists e1, astify trimmed = ParseThrew e1))).
Proof.
  intros rev trimmed.
  destruct (preprocessForParser_returns trimmed) as [sanitized Es].
  exists sanitized. split; [exact Es|].
  destruct rev; unfold parseAttempts, callParser; rewrite ?Es; cbn [bind tryCatch].
  - destruct (astify trimmed) as [v|e1] eqn:E1; cbn [bind tryCatch].
    + left. exists v. auto.
    + destruct (astify sanitized) as [v|e] eqn:E2; cbn [bind tryCatch].
      * left. exists v. auto.
      * right. exists e. repeat split; eauto.
  - destruct (astify sanitized) as [v|e] eqn:E2; cbn [bind tryCatch].
    + left. exists v. auto.
    + right. exists e. repeat split; auto. discriminate.
Qed.

(** [analyze] on a text that is not blank: the rules run on the trimmed
    text with the tree of the parse attempts. *)
Lemma analyzeOf_runs : forall rev sql, trim sql <> [] ->
  exists ast perr fs,
    parseAttempts astify rev (trim sql) = Returns (ast, perr)
    /\ runRules toLowerCase toUpperCase ast (trim sql) = Returns fs
    /\ analyzeOf rev toLowerCase toUpperCase astify sql = Returns (mkResult fs perr).
Proof.
  intros rev sql Ht. rewrite analyzeOf_eq.
  destruct (trim sql) as [|c t] eqn:E; [contradiction|].
  destruct (parseAttempts_returns rev (c :: t)) as (s & _ & [(ast & Ep & _)|(e & Ep & _)]);
    rewrite Ep; cbn [bind fst snd].
  - destruct (runRules_returns ast (c :: t)) as (tx & _ & Er).
    exists ast, None. eexists. rewrite Er. cbn [bind]. auto.
  - destruct (runRules_returns AstNull (c :: t)) as (tx & _ & Er).
    exists AstNull, (Some (errorMessage e)). eexists. rewrite Er. cbn [bind]. auto.
Qed.

End EngineFacts.

Section Claims.
Variable toLowerCase : jsstr -> jsstr.
Variable toUpperCase : jsstr -> jsstr.
Variable astify : jsstr -> ParseOutcome.

(** C1. The findings [analyze] returns hold no rule id twice.  They are
    what was pushed (findings of the tree rules first, in rule order, then
    findings of the text rules, in declaration order) with some entries
    left out and the order kept, and for every rule id the first pushed
    finding of that id, and no other, is still there. *)
Theorem findings_deduplicated : forall rev sql,
  exists r,
    analyzeOf rev toLowerCase toUpperCase astify sql = Returns r
    /\ NoDup (map ruleId (findings r))
    /\ (trim sql <> [] ->
        exists ast perr textual,
          parseAttempts astify rev (trim sql) = Returns (ast, perr)
          /\ regexRules toLowerCase toUpperCase (trim sql) = Returns textual
          /\ Subseq (findings r) (pushed toLowerCase ast (trim sql) textual)
          /\ forall id,
               withId id (findings r) =
               firstn 1 (withId id (pushed toLowerCase ast (trim sql) textual))).
Proof.
  intros rev sql. destruct (trim sql) as [|c t] eqn:Et.
  - exists (mkResult [] None). rewrite analyzeOf_eq, Et.
    split; [reflexivity|]. split; [constructor|]. intros H. contradiction.
  - destruct (analyzeOf_runs toLowerCase toUpperCase astify rev sql)
      as (ast & perr & fs & Ep & Er & Ea); [rewrite Et; discriminate|].
    rewrite Et in Ep, Er.
    destruct (runRules_returns toLowerCase toUpperCase ast (c :: t))
      as (textual & Ex & Er').
    rewrite Er in Er'. inversion Er' as [Hfs]. clear Er'.
    exists (mkResult fs perr). split; [exact Ea|]. cbn [findings].
    split; [rewrite Hfs; apply dedupe_NoDup|].
    intros _. exists ast, perr, textual. unfold pushed.
    repeat split; auto.
    + rewrite Hfs. apply dedupe_Subseq.
    + intros id. rewrite Hfs, dedupe_withId. reflexivity.
Qed.


Lemma trimStart_blank : forall s,
  Forall (fun c => isSpace c = true) s -> trimStart s = [].
Proof.
  intros s H. induction H as [|c s Hc _ IH]; simpl; [reflexivity|].
  rewrite Hc. exact IH.
Qed.

Lemma trim_blank : forall s, Forall (fun c => isSpace c = true) s -> trim s = [].
Proof.
  intros s H. unfold trim. rewrite (trimStart_blank s H). reflexivity.
Qed.

(** C3. On a text made of white space only (the empty text is one),
    [analyze] returns no finding and no parse error: it stops before it
    calls the parser or any rule. *)
Theorem analyze_blank : forall rev sql,
  Forall (fun c => isSpace c = true) sql ->
  analyzeOf rev toLowerCase toUpperCase astify sql = Returns (mkResult [] None).
Proof.
  intros rev sql H. rewrite analyzeOf_eq, (trim_blank sql H). reflexivity.
Qed.

End Claims.

(** C3 on the empty text and on three blanks, with a parser that throws
    whatever it is given: a call of it would show as a parse error. *)
Lemma analyze_blank_witness :
  analyzeOf DirectFirst toLowerCaseLatin toUpperCaseLatin rejectingParser (lit "")
    = Returns (mkResult [] None)
  /\ analyzeOf DirectFirst toLowerCaseLatin toUpperCaseLatin rejectingParser (lit "   ")
    = Returns (mkResult [] None)
  /\ analyzeOf NormalizedOnly toLowerCaseLatin toUpperCaseLatin rejectingParser (lit "   ")
    = Returns (mkResult [] None).
Proof.
  split; [|split];
    apply (analyze_blank toLowerCaseLatin toUpperCaseLatin rejectingParser);
    repeat (apply Forall_cons; [reflexivity|]); apply Forall_nil.
Defined.

Section Claims2.
Variable toLowerCase : jsstr -> jsstr.
Variable toUpperCase : jsstr -> jsstr.
Variable astify : jsstr -> ParseOutcome.

Lemma hasId_located : forall id f sql needle,
  hasId id (located toLowerCase f sql needle) = hasId id f.
Proof. intros. unfold hasId. rewrite ruleId_located. reflexivity. Qed.

Lemma located_fields : forall f sql needle,
  severity (located toLowerCase f sql needle) = severity f
  /\ title (located toLowerCase f sql needle) = title f
  /\ message (located toLowerCase f sql needle) = message f
  /\ fragment (located toLowerCase f sql needle) = fragment f.
Proof.
  intros. unfold located. destruct (locate toLowerCase sql needle); auto.
Qed.

(** The findings of one text rule in the result of [analyze], on a text
    that is not blank. *)
Lemma analyzeOf_withId : forall id k r rev sql,
  nth_error (patternRules toLowerCase toUpperCase) k = Some r ->
  elsewhere id k ruleTable = false ->
  existsb (String.eqb id) structuralIds = false ->
  trim sql <> [] ->
  exists l res,
    r (trim sql) = Returns l
    /\ analyzeOf rev toLowerCase toUpperCase astify sql = Returns res
    /\ withId id (findings res) = firstn 1 (withId id l).
Proof.
  intros id k r rev sql Hk He Hs Ht.
  destruct (analyzeOf_runs toLowerCase toUpperCase astify rev sql Ht)
    as (ast & perr & fs & _ & Er & Ea).
  destruct (runRules_withId toLowerCase toUpperCase id k r ast (trim sql) Hk He Hs)
    as (l & fs' & El & Er' & Hw).
  rewrite Er in Er'. inversion Er'; subst fs'.
  exists l, (mkResult fs perr). auto.
Qed.



(** C8. When the trimmed text holds exactly two calls of the list
    aggregate, [analyze] returns exactly one finding of id
    non-spillable-list, and its title and message report the count 2. *)
Theorem list_aggregate_counted : forall rev sql m1 m2,
  findAll (trim sql) re_list = Returns [m1; m2] ->
  exists r f,
    analyzeOf rev toLowerCase toUpperCase astify sql = Returns r
    /\ withId "non-spillable-list" (findings r) = [f]
    /\ severity f = error
    /\ title f = lit "list() aggregate cannot spill to disk (2x)"
    /\ message f =
       lit "The list() aggregate function is used " ++ lit "2"
       ++ lit " time(s) in this query. Per DuckDB docs, list() cannot offload intermediate state to disk. On large datasets, this will cause out-of-memory crashes — especially on MotherDuck Ducklings with fixed memory limits.".
Proof.
  intros rev sql m1 m2 Hs.
  assert (Ht : trim sql <> []).
  { intros E. rewrite E in Hs. vm_compute in Hs. discriminate. }
  destruct (analyzeOf_withId "non-spillable-list" 0
              (rule_list toLowerCase) rev sql eq_refl eq_refl eq_refl Ht)
    as (l & r & El & Ea & Hw).
  unfold rule_list in El. rewrite Hs in El. cbn [bind] in El.
  destruct (findAll_returns re_list_distinct (trim sql) eq_refl) as [ds Ed].
  rewrite Ed in El. cbn [bind] in El. injection El as Hl.
  rewrite <- Hl in Hw. unfold withId in Hw at 2.
  cbn [filter app List.length] in Hw. rewrite hasId_located in Hw.
  change (hasId "non-spillable-list" (F_non_spillable_list 2 m1)) with true in Hw.
  cbn [firstn] in Hw.
  eexists r, _. split; [exact Ea|]. split; [exact Hw|].
  unfold located. destruct (locate _ _ _); repeat split; vm_compute; reflexivity.
Qed.

End Claims2.






Section Reach.
Variable toLowerCase : jsstr -> jsstr.
Variable sql : jsstr.



End Reach.


(** The scan runs through nested parentheses to the one that closes the
    call. *)
Lemma scanParens_balanced : forall body opened i rest,
  balancedFrom body opened = true ->
  scanParens (body ++ 41%N :: rest) (S opened) i
  = (0, i + List.length body + 1).
Proof.
  induction body as [|c t IH]; intros opened i rest H; simpl in H.
  - apply Nat.eqb_eq in H. subst opened. simpl.
    replace (i + 0 + 1) with (S i) by lia. destruct rest; reflexivity.
  - cbn [app scanParens List.length].
    destruct (c =? 40)%N.
    + rewrite (IH (S opened)); [f_equal; lia|exact H].
    + destruct (c =? 41)%N.
      * destruct opened as [|below]; [discriminate|].
        rewrite (IH below); [f_equal; lia|exact H].
      * rewrite (IH opened); [f_equal; lia|exact H].
Qed.

Lemma skipn_app_exact : forall (A : Type) (a b : list A) n,
  n = List.length a -> skipn n (a ++ b) = b.
Proof.
  intros A a b n ->. rewrite skipn_app, skipn_all, Nat.sub_diag. reflexivity.
Qed.

Lemma first_turn_replaces_call : forall funcName placeholder args rest fuel,
  exec (re_call funcName) (lit funcName ++ 40%N :: args ++ 41%N :: rest) 0
  = Some (mkMatch 0 (S (List.length (lit funcName))) []) ->
  balanced args = true ->
  replaceBalancedCall_loop (S fuel) (re_call funcName) placeholder
    (lit funcName ++ 40%N :: args ++ 41%N :: rest) 0
  = replaceBalancedCall_loop fuel (re_call funcName) placeholder
      (placeholder ++ rest) (List.length placeholder).
Proof.
  intros funcName placeholder args rest fuel He Hb.
  cbn [replaceBalancedCall_loop]. rewrite He. cbn [index matchEnd]. cbv zeta.
  remember (List.length (lit funcName)) as n eqn:Hn.
  remember (lit funcName ++ 40%N :: args ++ 41%N :: rest) as s eqn:Hs0.
  assert (Hs : s = (lit funcName ++ [40%N]) ++ args ++ 41%N :: rest)
    by (rewrite Hs0, <- app_assoc; reflexivity).
  assert (Hhead : List.length (lit funcName ++ [40%N]) = S n)
    by (rewrite length_app, <- Hn; simpl; lia).
  assert (Hlen : List.length s = S n + (List.length args + S (List.length rest)))
    by (rewrite Hs, length_app, Hhead, length_app; simpl; lia).
  assert (Hm : List.length (matched s (mkMatch 0 (S n) [])) = S n).
  { unfold matched, slice. cbn [index matchEnd skipn].
    rewrite length_firstn. lia. }
  rewrite Hm.
  replace (0 + S n - 1 + 1) with (S n) by lia.
  assert (Hrest : sliceFrom s (S n) = args ++ 41%N :: rest).
  { unfold sliceFrom. rewrite Hs. apply skipn_app_exact. symmetry. exact Hhead. }
  rewrite Hrest, (scanParens_balanced args 0 (S n) rest Hb).
  cbn [Nat.eqb]. unfold slice, sliceFrom. cbn [Nat.sub firstn app].
  replace (skipn (S n + List.length args + 1) s) with rest; [reflexivity|].
  symmetry.
  replace s with (((lit funcName ++ [40%N]) ++ args ++ [41%N]) ++ rest)
    by (rewrite Hs, <- !app_assoc; reflexivity).
  apply skipn_app_exact. rewrite length_app, Hhead, length_app. simpl. lia.
Qed.

(** C7. A call of a dialect function is replaced as one unit, whatever
    calls its arguments nest: when the text starts with the name of one
    of the five functions, an opening parenthesis, balanced arguments and
    the closing parenthesis, the first turn of the loop leaves the
    placeholder followed by the rest of the text and goes on after the
    placeholder.  On a call of list_transform whose arguments hold a call
    and a lambda with a call, the whole call becomes the placeholder, alone and inside a statement, by [replaceBalancedCall]
    and by the normalizer. *)
Theorem balanced_call_replaced_whole :
  (forall funcName placeholder args rest fuel,
     In (funcName, placeholder) dialectCalls ->
     balanced args = true ->
     replaceBalancedCall_loop (S fuel) (re_call funcName) placeholder
       (lit funcName ++ 40%N :: args ++ 41%N :: rest) 0
     = replaceBalancedCall_loop fuel (re_call funcName) placeholder
         (placeholder ++ rest) (List.length placeholder))
  /\ balanced (lit "json_extract_string(x, '$.a'), t -> UPPER(t)") = true
  /\ replaceBalancedCall nestedCall "list_transform" (lit "NULL")
     = Returns (lit "NULL")
  /\ replaceBalancedCall (lit "SELECT " ++ nestedCall ++ lit " AS y FROM t")
       "list_transform" (lit "NULL")
     = Returns (lit "SELECT NULL AS y FROM t")
  /\ preprocessForParser (lit "SELECT " ++ nestedCall ++ lit " AS y FROM t")
     = Returns (lit "SELECT NULL AS y FROM t").
Proof.
  split; [|repeat split; vm_compute; reflexivity].
  intros funcName placeholder args rest fuel Hin Hb.
  apply first_turn_replaces_call; [|exact Hb].
  unfold dialectCalls in Hin. cbn [In] in Hin.
  repeat (destruct Hin as [Hin|Hin];
          [injection Hin as <- <-; vm_compute; reflexivity|]).
  contradiction.
Qed.

(** No closing parenthesis: the scan ends with the call still open. *)
Lemma scanParens_open : forall rest depth i,
  (forall c, In c rest -> c <> 41%N) -> 1 <= depth ->
  1 <= fst (scanParens rest depth i).
Proof.
  induction rest as [|c t IH]; intros depth i Hno Hd.
  - destruct depth; simpl; lia.
  - destruct depth as [|below]; [lia|]. cbn [scanParens].
    destruct (c =? 40)%N.
    + apply IH; [intros; apply Hno; right; assumption|lia].
    + destruct (c =? 41)%N eqn:E.
      * apply N.eqb_eq in E. exfalso. apply (Hno c); [left; reflexivity|exact E].
      * apply IH; [intros; apply Hno; right; assumption|lia].
Qed.

Lemma replaceBalancedCall_loop_open : forall re replacement,
  consuming re = true ->
  forall fuel s i,
    (forall c, In c s -> c <> 41%N) ->
    List.length s - i < fuel ->
    replaceBalancedCall_loop fuel re replacement s i = Returns s.
Proof.
  intros re replacement Hre.
  induction fuel as [|fuel IH]; intros s i Hno Hf; [lia|].
  cbn [replaceBalancedCall_loop].
  destruct (exec re s i) as [m|] eqn:E; [|reflexivity].
  pose proof (exec_bounds _ _ _ _ E) as (E1 & E2 & E3).
  unfold consuming in Hre. apply Nat.ltb_lt in Hre.
  cbv zeta.
  destruct (scanParens _ _ _) as [depth j] eqn:Es.
  assert (Hd : 1 <= depth).
  { change depth with (fst (depth, j)). rewrite <- Es.
    apply scanParens_open; [|lia].
    intros c Hc. apply Hno. unfold sliceFrom in Hc.
    rewrite <- (firstn_skipn (index m + List.length (matched s m) - 1 + 1) s).
    apply in_or_app. right. exact Hc. }
  destruct depth as [|d]; [lia|]. cbn [Nat.eqb].
  apply IH; auto. lia.
Qed.

Section Claims3.
Variable toLowerCase : jsstr -> jsstr.
Variable toUpperCase : jsstr -> jsstr.
Variable astify : jsstr -> ParseOutcome.

(** C9. The normalizer returns a text for every text: each of its loops
    comes to its end.  A call whose parentheses never close is left as it
    is (here: a text with no closing parenthesis at all comes back
    unchanged from [replaceBalancedCall]).  The rules are run on the
    trimmed text given to [analyze], whatever the normalizer made of it
    for the parser. *)
Theorem normalizer_total :
  (forall s, exists s', preprocessForParser s = Returns s')
  /\ (forall s funcName replacement,
        exists s', replaceBalancedCall s funcName replacement = Returns s')
  /\ (forall s funcName replacement,
        (forall c, In c s -> c <> 41%N) ->
        replaceBalancedCall s funcName replacement = Returns s)
  /\ preprocessForParser (lit "SELECT f(x), list_transform(a, (b FROM t")
     = Returns (lit "SELECT f(x), list_transform(a, (b FROM t")
  /\ (forall rev sql,
        trim sql <> [] ->
        exists ast perr fs,
          parseAttempts astify rev (trim sql) = Returns (ast, perr)
          /\ runRules toLowerCase toUpperCase ast (trim sql) = Returns fs
          /\ analyzeOf rev toLowerCase toUpperCase astify sql
             = Returns (mkResult fs perr)).
Proof.
  split; [exact preprocessForParser_returns|].
  split; [exact replaceBalancedCall_returns|].
  split.
  - intros s funcName replacement Hno. unfold replaceBalancedCall.
    apply replaceBalancedCall_loop_open; auto.
    + apply re_call_consuming.
    + lia.
  - split; [vm_compute; reflexivity|].
    intros rev sql Ht. apply analyzeOf_runs. exact Ht.
Qed.

End Claims3.


(** C8 on a text with two calls of the list aggregate. *)
Lemma list_aggregate_counted_witness :
  exists r f,
    analyzeOf DirectFirst toLowerCaseLatin toUpperCaseLatin rejectingParser
      (lit "SELECT LIST(a), list (b) FROM t GROUP BY c")
    = Returns r
    /\ withId "non-spillable-list" (findings r) = [f]
    /\ severity f = error
    /\ title f = lit "list() aggregate cannot spill to disk (2x)"
    /\ message f =
       lit "The list() aggregate function is used " ++ lit "2"
       ++ lit " time(s) in this query. Per DuckDB docs, list() cannot offload intermediate state to disk. On large datasets, this will cause out-of-memory crashes — especially on MotherDuck Ducklings with fixed memory limits.".
Proof.
  eapply (list_aggregate_counted toLowerCaseLatin toUpperCaseLatin rejectingParser
            DirectFirst).
  vm_compute. reflexivity.
Defined.

Lemma withId_single_in : forall id fs f,
  withId id fs = [f] -> In f fs /\ ruleId f = id.
Proof.
  intros id fs f H.
  assert (Hin : In f (withId id fs)) by (rewrite H; left; reflexivity).
  unfold withId in Hin. apply filter_In in Hin. destruct Hin as [Hin Hid].
  split; [exact Hin|]. apply hasId_true. exact Hid.
Qed.

(** C10 on two texts that hold U+0130 before the located fragment.  The
    lower-cased text is one unit longer than the text up to there, so the
    index found in it is one too far.  In the first text the range of the
    finding for UNION covers the letters NION and the blank after them;
    in the second the range of the finding ends beyond the end of the
    text. *)
Theorem offset_shifted_by_lower_casing : forall rev astify,
  (exists r f,
     analyzeOf rev toLowerCaseLatin toUpperCaseLatin astify unionAfterDottedI
     = Returns r
     /\ In f (findings r)
     /\ ruleId f = "union-without-all"%string
     /\ fragment f = Some (lit "UNION")
     /\ offset f = Some (mkOffset 41 46)
     /\ slice (trim unionAfterDottedI) 41 46 = lit "NION ")
  /\ (exists r f,
        analyzeOf rev toLowerCaseLatin toUpperCaseLatin astify callAfterDottedI
        = Returns r
        /\ In f (findings r)
        /\ ruleId f = "non-spillable-string-agg"%string
        /\ offset f = Some (mkOffset 3 14)
        /\ List.length (trim callAfterDottedI) = 13).
Proof.
  intros rev astify. split.
  - destruct (analyzeOf_withId toLowerCaseLatin toUpperCaseLatin astify
                "union-without-all" 12 (rule_union toLowerCaseLatin) rev
                unionAfterDottedI eq_refl eq_refl eq_refl)
      as (l & r & El & Ea & Hw); [vm_compute; discriminate|].
    vm_compute in El. injection El as Hl. rewrite <- Hl in Hw.
    vm_compute in Hw.
    apply withId_single_in in Hw. destruct Hw as [Hin Hid].
    eexists r, _. split; [exact Ea|]. split; [exact Hin|].
    repeat split; vm_compute; reflexivity.
  - destruct (analyzeOf_withId toLowerCaseLatin toUpperCaseLatin astify
                "non-spillable-string-agg" 1 (rule_string_agg toLowerCaseLatin) rev
                callAfterDottedI eq_refl eq_refl eq_refl)
      as (l & r & El & Ea & Hw); [vm_compute; discriminate|].
    vm_compute in El. injection El as Hl. rewrite <- Hl in Hw.
    vm_compute in Hw.
    apply withId_single_in in Hw. destruct Hw as [Hin Hid].
    eexists r, _. split; [exact Ea|]. split; [exact Hin|].
    repeat split; vm_compute; reflexivity.
Qed.

(** With a parser that rejects the text, the parse error is set and the
    findings of the text rules are still there. *)
Lemma parse_failure_keeps_findings :
  exists r,
    analyze toLowerCaseLatin toUpperCaseLatin rejectingParser
      (lit "  PIVOT sales ON year USING list(amount)  ") = Returns r
    /\ parseError r = Some (lit "Syntax error")
    /\ map ruleId (findings r) = ["non-spillable-list"; "non-spillable-pivot"]%string.
Proof.
  eexists. split; [vm_compute; reflexivity|]. split; reflexivity.
Qed.

(** Several matches of one rule, one finding: the first. *)
Lemma like_matches_deduplicated :
  exists r f,
    analyze toLowerCaseLatin toUpperCaseLatin rejectingParser
      (lit "SELECT a FROM t WHERE a LIKE '%x%' OR b LIKE '%y%'") = Returns r
    /\ findings r = [f]
    /\ fragment f = Some (lit "LIKE '%x%'").
Proof.
  eexists. eexists. split; [vm_compute; reflexivity|]. split; reflexivity.
Qed.

(* ====================================================================== *)
(** ** Searching a text *)
(* ====================================================================== *)

Lemma startsWith_prefix : forall needle s,
  startsWith s needle = true <-> firstn (List.length needle) s = needle.
Proof.
  induction needle as [|n nt IH]; intros s.
  - destruct s; simpl; split; reflexivity.
  - destruct s as [|c t]; simpl.
    + split; discriminate.
    + rewrite andb_true_iff, N.eqb_eq, IH. split.
      * intros [-> ->]. reflexivity.
      * intros H. inversion H. subst. rewrite H2. auto.
Qed.

Lemma startsWith_false : forall needle s,
  startsWith s needle = false <-> firstn (List.length needle) s <> needle.
Proof.
  intros needle s. rewrite <- startsWith_prefix.
  destruct (startsWith s needle); split; congruence.
Qed.

Lemma indexOfFrom_found : forall needle s i j,
  indexOfFrom s needle i = Some j ->
  exists k, j = i + k /\ k <= List.length s
    /\ firstn (List.length needle) (skipn k s) = needle
    /\ forall k', k' < k -> firstn (List.length needle) (skipn k' s) <> needle.
Proof.
  intros needle. induction s as [|c t IH]; intros i j H.
  - cbn [indexOfFrom] in H. destruct (startsWith [] needle) eqn:E; [|discriminate].
    inversion H; subst. exists 0.
    split; [lia|]. split; [lia|]. split; [apply startsWith_prefix, E|intros; lia].
  - cbn [indexOfFrom] in H. destruct (startsWith (c :: t) needle) eqn:E.
    + inversion H; subst. exists 0.
      split; [lia|]. split; [lia|]. split; [apply startsWith_prefix, E|intros; lia].
    + apply IH in H. destruct H as (k & -> & Hk & Hp & Hmin).
      exists (S k). split; [lia|]. split; [simpl; lia|]. split; [exact Hp|].
      intros [|k'] Hlt.
      * apply startsWith_false, E.
      * apply Hmin. lia.
Qed.

Lemma indexOfFrom_none : forall needle s i,
  indexOfFrom s needle i = None ->
  forall k, firstn (List.length needle) (skipn k s) <> needle.
Proof.
  intros needle. induction s as [|c t IH]; intros i H k.
  - cbn [indexOfFrom] in H. destruct (startsWith [] needle) eqn:E; [discriminate|].
    rewrite skipn_nil. apply startsWith_false, E.
  - cbn [indexOfFrom] in H. destruct (startsWith (c :: t) needle) eqn:E; [discriminate|].
    destruct k as [|k]; [apply startsWith_false, E|]. simpl. eapply IH, H.
Qed.

Lemma slice_map : forall (f : N -> N) s a b,
  slice (map f s) a b = map f (slice s a b).
Proof. intros. unfold slice. rewrite skipn_map, firstn_map. reflexivity. Qed.

Lemma slice_prefix : forall s k n,
  slice s k (k + n) = firstn n (skipn k s).
Proof. intros. unfold slice. f_equal. lia. Qed.

Lemma firstn_full_length : forall (needle s : jsstr),
  firstn (List.length needle) s = needle -> List.length needle <= List.length s.
Proof.
  intros needle s H. rewrite <- H at 1. rewrite length_firstn. lia.
Qed.

Section LocateFacts.
Variable toLowerCase : jsstr -> jsstr.

(** Whatever the case conversion is, the range [locate] gives starts
    before it ends and has the length of the needle. *)
Lemma locate_span : forall sql needle o,
  locate toLowerCase sql needle = Some o ->
  stop o = start o + List.length needle.
Proof.
  intros sql needle o H. unfold locate in H.
  destruct (indexOf _ _); inversion H; reflexivity.
Qed.

Lemma locate_latin : forall sql needle o,
  toLowerCase sql = map lowerLatin sql ->
  toLowerCase needle = map lowerLatin needle ->
  locate toLowerCase sql needle = Some o ->
  stop o = start o + List.length needle
  /\ stop o <= List.length sql
  /\ map lowerLatin (slice sql (start o) (stop o)) = map lowerLatin needle
  /\ forall i, i < start o ->
       map lowerLatin (slice sql i (i + List.length needle)) <> map lowerLatin needle.
Proof.
  intros sql needle o Hs Hn H. unfold locate in H. rewrite Hs, Hn in H.
  unfold indexOf in H.
  destruct (indexOfFrom _ _ 0) as [idx|] eqn:E; inversion H; subst o; clear H.
  apply indexOfFrom_found in E. destruct E as (k & -> & Hk & Hp & Hmin).
  cbn [start stop Nat.add].
  pose proof (firstn_full_length _ _ Hp) as Hlen.
  rewrite length_skipn, !length_map in Hlen.
  rewrite length_map in *.
  split; [reflexivity|].
  split; [lia|]. split.
  - rewrite <- slice_map, slice_prefix. exact Hp.
  - intros i Hi. rewrite <- slice_map, slice_prefix. apply Hmin, Hi.
Qed.

Lemma locate_latin_none : forall sql needle,
  toLowerCase sql = map lowerLatin sql ->
  toLowerCase needle = map lowerLatin needle ->
  locate toLowerCase sql needle = None ->
  forall i, map lowerLatin (slice sql i (i + List.length needle)) <> map lowerLatin needle.
Proof.
  intros sql needle Hs Hn H i. unfold locate in H. rewrite Hs, Hn in H.
  unfold indexOf in H.
  destruct (indexOfFrom _ _ 0) as [idx|] eqn:E; [discriminate|].
  rewrite <- slice_map, slice_prefix.
  pose proof (indexOfFrom_none _ _ _ E i) as Hno. rewrite length_map in Hno. exact Hno.
Qed.

End LocateFacts.

(* ====================================================================== *)
(** ** What [findAll] returns *)
(* ====================================================================== *)

Lemma findAll_loop_spans : forall re sql, consuming re = true ->
  forall fuel i ms,
    findAll_loop fuel re sql i = Returns ms ->
    exists spans, ms = map (spanText sql) spans
                  /\ spansIn (List.length sql) i spans.
Proof.
  intros re sql Hre. unfold consuming in Hre. apply Nat.ltb_lt in Hre.
  induction fuel as [|fuel IH]; intros i ms H; [discriminate|].
  cbn [findAll_loop] in H. destruct (exec re sql i) as [m|] eqn:E.
  - destruct (findAll_loop fuel re sql (matchEnd m)) as [rest| |] eqn:Er;
      try discriminate.
    cbn [bind] in H. inversion H; subst ms; clear H.
    apply IH in Er. destruct Er as (spans & -> & Hs).
    apply exec_bounds in E. destruct E as (E1 & E2 & E3).
    exists ((index m, matchEnd m) :: spans). split; [reflexivity|].
    cbn [spansIn]. repeat split; auto; lia.
  - inversion H. exists []. split; [reflexivity|exact I].
Qed.

Lemma Forall_firstn' : forall (A : Type) (P : A -> Prop) n (l : list A),
  Forall P l -> Forall P (firstn n l).
Proof.
  intros A P n l H. rewrite <- (firstn_skipn n l) in H.
  apply Forall_app in H. tauto.
Qed.

Lemma Forall_skipn' : forall (A : Type) (P : A -> Prop) n (l : list A),
  Forall P l -> Forall P (skipn n l).
Proof.
  intros A P n l H. rewrite <- (firstn_skipn n l) in H.
  apply Forall_app in H. tauto.
Qed.

Lemma Forall_slice : forall (P : N -> Prop) s a b,
  Forall P s -> Forall P (slice s a b).
Proof. intros. unfold slice. apply Forall_firstn', Forall_skipn'. assumption. Qed.

Lemma spansIn_fragments : forall (P : N -> Prop) sql spans from,
  spansIn (List.length sql) from spans ->
  Forall (fun m => needleFor P sql m) (map (spanText sql) spans).
Proof.
  intros P sql. induction spans as [|[s e] rest IH]; intros from H;
    [constructor|].
  cbn [spansIn] in H. destruct H as (H1 & H2 & H3 & H4).
  cbn [map]. constructor; [|eapply IH; eauto].
  unfold needleFor, spanText, slice. cbn [fst snd]. split.
  - intros E. apply (f_equal (@List.length N)) in E.
    rewrite length_firstn, length_skipn in E. simpl in E. lia.
  - intros HP. apply (Forall_slice P sql s e HP).
Qed.

(** The fragments [findAll] returns, for an expression that cannot match
    the empty text. *)
Lemma findAll_needles : forall (P : N -> Prop) re sql, consuming re = true ->
  exists ms, findAll sql re = Returns ms
             /\ Forall (fun m => needleFor P sql m) ms.
Proof.
  intros P re sql Hre. destruct (findAll_returns re sql Hre) as [ms E].
  exists ms. split; [exact E|].
  unfold findAll in E. apply (findAll_loop_spans re sql Hre) in E.
  destruct E as (spans & -> & Hs). eapply spansIn_fragments, Hs.
Qed.

(* ====================================================================== *)
(** ** Where the offsets come from *)
(* ====================================================================== *)

(** The findings of the nesting rule are all the same finding. *)
Lemma checkNested_all : forall sql n,
  (forall depth, Forall (eq F_deeply_nested_subquery)
                   (checkNestedSubqueries sql n depth))
  /\ (forall depth, Forall (eq F_deeply_nested_subquery)
                      (checkExprForSubqueries sql n depth)).
Proof.
  intros sql. induction n as [n IH] using Node_size_ind. split; intros depth.
  - rewrite checkNestedSubqueries_eq.
    destruct (negb (isSelect n)); [constructor|].
    repeat (apply Forall_app; split).
    + destruct (3 <=? depth); [constructor; [reflexivity|constructor]|constructor].
    + destruct (n_where n) as [e|] eqn:Ew; [|constructor].
      apply IH. apply child_smaller, where_child, Ew.
    + apply Forall_flat_map'. intros f Hf.
      destruct (exprAst f) as [sub|] eqn:Es; [|constructor].
      apply IH. eapply from_subquery_smaller; eauto.
  - rewrite checkExprForSubqueries_eq.
    repeat (apply Forall_app; split).
    + destruct (n_ast n) as [sub|] eqn:Ea; [|constructor].
      apply IH. apply child_smaller, ast_child, Ea.
    + destruct (n_left n) as [e|] eqn:Ea; [|constructor].
      apply IH. apply child_smaller, left_child, Ea.
    + destruct (n_right n) as [e|] eqn:Ea; [|constructor].
      apply IH. apply child_smaller, right_child, Ea.
    + destruct (n_args n) as [args|] eqn:Ea; [|constructor].
      apply Forall_flat_map'. intros a Ha.
      destruct (n_ast a) as [sub|] eqn:Es; [|constructor].
      apply IH.
      apply args_child, child_smaller in Ea.
      apply expr_child, child_smaller in Ha.
      apply ast_child, child_smaller in Es. lia.
Qed.

Section OffsetFacts.
Variable toLowerCase : jsstr -> jsstr.
Variable toUpperCase : jsstr -> jsstr.
Variable P : N -> Prop.
Hypothesis P_latin : forall c, isLatin c = true -> P c.

Lemma wellLocated_plain : forall sql f,
  offset f = None -> wellLocated toLowerCase P sql f.
Proof. intros sql f H. unfold wellLocated. rewrite H. exact I. Qed.

Lemma wellLocated_located : forall sql f needle,
  offset f = None -> needleFor P sql needle ->
  wellLocated toLowerCase P sql (located toLowerCase f sql needle).
Proof.
  intros sql f needle Hf Hn. unfold located.
  destruct (locate toLowerCase sql needle) as [loc|] eqn:E.
  - unfold wellLocated, withOffset. cbn [offset]. exists needle. auto.
  - apply wellLocated_plain, Hf.
Qed.

Lemma literal_needle : forall sql needle,
  nonEmpty needle && forallb isLatin needle = true -> needleFor P sql needle.
Proof.
  intros sql needle H. apply andb_true_iff in H. destruct H as [H1 H2]. split.
  - intros ->. discriminate.
  - intros _. rewrite forallb_forall in H2. apply Forall_forall. auto.
Qed.

Lemma prefix_needle : forall sql needle n,
  needleFor P sql needle -> needleFor P sql (slice needle 0 (S n)).
Proof.
  intros sql needle n [H1 H2]. split.
  - destruct needle; [contradiction|]. discriminate.
  - intros HP. apply Forall_slice, H2, HP.
Qed.

Ltac needle :=
  first [ assumption
        | apply literal_needle; vm_compute; reflexivity
        | apply prefix_needle; assumption ].

Ltac one :=
  first [ apply wellLocated_located; [reflexivity | needle]
        | apply wellLocated_plain; reflexivity ].

Ltac locs :=
  repeat match goal with
  | |- Forall _ [] => constructor
  | |- Forall _ (_ ++ _) => apply Forall_app; split
  | |- Forall _ (when ?b _) => destruct b; cbn [when]
  | |- Forall _ (if ?b then _ else _) => destruct b
  | H : Forall _ ?l |- Forall _ (match ?l with [] => _ | _ :: _ => _ end) =>
      destruct H
  | |- Forall _ (match ?l with [] => _ | _ :: _ => _ end) => destruct l
  | |- Forall _ (let _ := _ in _) => cbv zeta
  | |- Forall _ [_] => constructor; [one | constructor]
  end.

Ltac runs :=
  repeat match goal with
  | |- context [findAll ?sql ?re] =>
      let l := fresh "ms" in
      let H := fresh "Hms" in
      destruct (findAll_needles P re sql eq_refl) as (l & -> & H); cbn [bind]
  | |- context [countMatches ?sql ?re] =>
      let n := fresh "n" in
      destruct (countMatches_returns re sql eq_refl) as [n ->]; cbn [bind]
  | |- context [matchCount ?s ?re] =>
      let n := fresh "n" in
      destruct (matchCount_returns re s) as [n ->]; cbn [bind]
  end.

Ltac locates_tac :=
  intros sql; cbv beta delta [rule_list rule_string_agg rule_ordered_agg
    rule_blocking_operators rule_json_extraction rule_json_each rule_json_array
    rule_order_limit_1 rule_arg_max rule_like rule_func_in_where
    rule_distinct_star rule_union rule_count_distinct rule_not_in
    rule_correlated rule_insert_select_star rule_many_ctes rule_qualify
    rule_casts rule_local_remote rule_group_by_verbose rule_remote_select_star
    rule_duckling_size rule_list_transform rule_pivot rule_left_join_on_true
    rule_ordered_set_agg rule_unnest rule_recursive_cte rule_ctas rule_in_list
    rule_remote_no_filter rule_remote_scans rule_glob rule_temporal_join
    rule_or_chain rule_between rule_chained_select_star rule_cross_database];
  cbv zeta; runs; eexists; split; [reflexivity|]; locs.

Lemma rule_like_locates : locates toLowerCase P (rule_like toLowerCase).
Proof.
  intros sql. unfold rule_like. runs. eexists. split; [reflexivity|].
  apply Forall_forall. intros f Hf. apply in_map_iff in Hf.
  destruct Hf as (m & <- & Hm).
  rewrite Forall_forall in Hms.
  apply wellLocated_located; [reflexivity|auto].
Qed.

Lemma patternRules_locate :
  Forall (locates toLowerCase P) (patternRules toLowerCase toUpperCase).
Proof.
  unfold patternRules, baseRules, addedRules. cbn [app].
  repeat (apply Forall_cons; [first [apply rule_like_locates | locates_tac]|]).
  constructor.
Qed.

End OffsetFacts.

Lemma dedupe_Forall : forall (Q : Finding -> Prop) fs seen,
  Forall Q fs -> Forall Q (dedupe seen fs).
Proof.
  intros Q. induction fs as [|f fs IH]; intros seen H; [constructor|].
  inversion H; subst. cbn [dedupe].
  destruct (set_mem string_dec (ruleId f) seen); [apply IH; assumption|].
  constructor; [assumption|apply IH; assumption].
Qed.

Section TreeOffsetFacts.
Variable toLowerCase : jsstr -> jsstr.
Variable toUpperCase : jsstr -> jsstr.
Variable P : N -> Prop.
Hypothesis P_latin : forall c, isLatin c = true -> P c.

Lemma checkSelectStar_located : forall sql ast,
  Forall (wellLocated toLowerCase P sql) (checkSelectStar toLowerCase sql ast).
Proof.
  intros sql. induction ast as [ast IH] using Node_size_ind.
  rewrite checkSelectStar_eq.
  destruct (negb (isSelect ast)); [constructor|].
  apply Forall_app. split.
  - destruct (n_columns ast) as [|cols|].
    + constructor; [|constructor].
      apply (wellLocated_located toLowerCase P); [reflexivity|]. apply (literal_needle P P_latin). vm_compute. reflexivity.
    + apply Forall_flat_map'. intros col _.
      destruct (isStarColumn col); [|constructor].
      constructor; [|constructor]. apply (wellLocated_plain toLowerCase P). reflexivity.
    + constructor.
  - apply Forall_flat_map'. intros f Hf.
    destruct (exprAst f) as [sub|] eqn:Es; [|constructor].
    apply IH. eapply from_subquery_smaller; eauto.
Qed.

Lemma structuralRules_located : forall sql node,
  joinsHave P node ->
  Forall (wellLocated toLowerCase P sql) (structuralRules toLowerCase sql node).
Proof.
  intros sql node Hj. unfold structuralRules.
  repeat (apply Forall_app; split).
  - apply checkSelectStar_located.
  - unfold checkOrderByWithoutLimit.
    destruct (negb (isSelect node)); [constructor|].
    destruct (n_orderby node), (n_limit node); try constructor.
    + apply (wellLocated_located toLowerCase P); [reflexivity|]. apply (literal_needle P P_latin). vm_compute. reflexivity.
    + constructor.
  - unfold checkCrossJoin.
    destruct (_ || _); [constructor|].
    apply Forall_flat_map'. intros item _.
    destruct (n_join item) as [j|]; [|constructor].
    destruct (jsstr_eqb j _); [|constructor].
    constructor; [|constructor].
    apply (wellLocated_located toLowerCase P); [reflexivity|]. apply (literal_needle P P_latin). vm_compute. reflexivity.
  - eapply Forall_impl; [|apply checkNested_all].
    intros f <-. apply (wellLocated_plain toLowerCase P). reflexivity.
  - unfold checkJoinWithoutCondition.
    destruct (_ || _); [constructor|].
    apply Forall_app. split.
    + destruct (_ && _); [|constructor].
      constructor; [|constructor]. apply (wellLocated_plain toLowerCase P). reflexivity.
    + apply Forall_flat_map'. intros item Hitem.
      unfold joinsHave in Hj. rewrite Forall_forall in Hj.
      specialize (Hj item Hitem).
      destruct (n_join item) as [[|c t]|]; try constructor;
        destruct (n_on item); try constructor.
      destruct (jsstr_eqb _ _); [constructor|].
      constructor; [|constructor].
      apply (wellLocated_located toLowerCase P); [reflexivity|]. split; [discriminate|intros _; exact Hj].
Qed.

Lemma runBlocks_located : forall rules,
  Forall (locates toLowerCase P) rules ->
  forall sql, exists fs,
    runBlocks rules sql = Returns fs
    /\ Forall (wellLocated toLowerCase P sql) fs.
Proof.
  intros rules H sql. induction H as [|r rules Hr _ IH]; simpl.
  - exists []. split; [reflexivity|constructor].
  - destruct (Hr sql) as (l & -> & Hl). destruct IH as (fs & -> & Hfs). simpl.
    exists (l ++ fs). split; [reflexivity|]. apply Forall_app. auto.
Qed.

Lemma runRules_located : forall ast sql,
  Forall (joinsHave P) (statements ast) ->
  exists fs,
    runRules toLowerCase toUpperCase ast sql = Returns fs
    /\ Forall (wellLocated toLowerCase P sql) fs.
Proof.
  intros ast sql Hj.
  destruct (runBlocks_located _ (patternRules_locate toLowerCase toUpperCase P P_latin) sql)
    as (textual & Et & Ht).
  unfold runRules, emitted, regexRules. rewrite Et. cbn [bind].
  eexists. split; [reflexivity|].
  apply dedupe_Forall, Forall_app. split; [|exact Ht].
  apply Forall_flat_map'. intros n Hn.
  apply structuralRules_located. rewrite Forall_forall in Hj. auto.
Qed.

Variable astify : jsstr -> ParseOutcome.
Hypothesis parser_joins : forall text v,
  astify text = Parsed v -> Forall (joinsHave P) (statements v).

Lemma analyzeOf_located : forall rev sql,
  exists r,
    analyzeOf rev toLowerCase toUpperCase astify sql = Returns r
    /\ Forall (wellLocated toLowerCase P (trim sql)) (findings r).
Proof.
  intros rev sql. rewrite analyzeOf_eq.
  destruct (trim sql) as [|c t] eqn:E.
  - exists (mkResult [] None). split; [reflexivity|constructor].
  - destruct (parseAttempts_returns astify rev (c :: t))
      as (s & _ & [(ast & Ep & Ha)|(e & Ep & _)]); rewrite Ep; cbn [bind fst snd].
    + destruct (runRules_located ast (c :: t)) as (fs & Er & Hfs).
      { destruct Ha as [[Ha _]|Ha]; eapply parser_joins; eauto. }
      rewrite Er. cbn [bind]. eexists. split; [reflexivity|exact Hfs].
    + destruct (runRules_located AstNull (c :: t)) as (fs & Er & Hfs);
        [constructor|].
      rewrite Er. cbn [bind]. eexists. split; [reflexivity|exact Hfs].
Qed.

End TreeOffsetFacts.

Lemma Forall_trimStart : forall (P : N -> Prop) s,
  Forall P s -> Forall P (trimStart s).
Proof.
  intros P. induction s as [|c t IH]; intros H; [constructor|].
  simpl. destruct (isSpace c); [apply IH; inversion H; assumption|exact H].
Qed.



(* ====================================================================== *)
(** ** The highlighted text *)
(* ====================================================================== *)

Lemma indexOfAt_found : forall s needle from idx,
  indexOfAt s needle from = Some idx ->
  from <= idx
  /\ firstn (List.length needle) (skipn idx s) = needle.
Proof.
  intros s needle from idx H. unfold indexOfAt in H.
  apply indexOfFrom_found in H. destruct H as (k & -> & Hk & Hp & _).
  split; [lia|]. rewrite skipn_skipn in Hp.
  replace (from + k) with (k + from) by lia. exact Hp.
Qed.

Section HighlightFacts.
Variable toLowerCase : jsstr -> jsstr.

Lemma occurrences_returns : forall lowerSql lowerFrag f len,
  0 < len ->
  forall fuel from, List.length lowerSql - from < fuel ->
  exists l, occurrences fuel lowerSql lowerFrag f len from = Returns l
    /\ Forall (fun r => r_finding r = f /\ r_end r = r_start r + len
                        /\ firstn (List.length lowerFrag) (skipn (r_start r) lowerSql)
                           = lowerFrag) l.
Proof.
  intros lowerSql lowerFrag f len Hlen.
  induction fuel as [|fuel IH]; intros from Hf; [lia|].
  cbn [occurrences]. destruct (from <? List.length lowerSql) eqn:Elt.
  - apply Nat.ltb_lt in Elt.
    destruct (indexOfAt lowerSql lowerFrag from) as [idx|] eqn:E.
    + apply indexOfAt_found in E. destruct E as [E1 E2].
      destruct (IH (idx + len)) as (l & -> & Hl); [lia|].
      cbn [bind]. eexists. split; [reflexivity|].
      constructor; [|exact Hl]. cbn [r_finding r_start r_end]. auto.
    + exists []. split; [reflexivity|constructor].
  - exists []. split; [reflexivity|constructor].
Qed.

Lemma rangesOf_returns : forall lowerSql f,
  exists l, rangesOf toLowerCase lowerSql f = Returns l
    /\ Forall (fun r => r_finding r = f /\ rangeOf toLowerCase lowerSql r) l.
Proof.
  intros lowerSql f. unfold rangesOf, rangeOf.
  assert (Hoff : exists l,
    match offset f with
    | Some o => Returns [mkRange (start o) (stop o) f]
    | None => Returns []
    end = Returns l
    /\ Forall (fun r => r_finding r = f
                 /\ offset (r_finding r) = Some (mkOffset (r_start r) (r_end r))) l).
  { destruct (offset f) as [[a b]|] eqn:Eo.
    - eexists. split; [reflexivity|]. constructor; [|constructor].
      cbn [r_finding r_start r_end start stop]. auto.
    - exists []. split; [reflexivity|constructor]. }
  destruct (fragment f) as [[|c t]|] eqn:Ef.
  - destruct Hoff as (l & -> & Hl). exists l. split; [reflexivity|].
    eapply Forall_impl; [|exact Hl]. intros r [-> H]. rewrite Ef. auto.
  - destruct (occurrences_returns lowerSql (toLowerCase (c :: t)) f
                (List.length (c :: t)) ltac:(simpl; lia)
                (S (List.length lowerSql)) 0 ltac:(lia)) as (l & -> & Hl).
    exists l. split; [reflexivity|].
    eapply Forall_impl; [|exact Hl]. intros r (-> & H1 & H2). rewrite Ef. auto.
  - destruct Hoff as (l & -> & Hl). exists l. split; [reflexivity|].
    eapply Forall_impl; [|exact Hl]. intros r [-> H]. rewrite Ef. auto.
Qed.

Lemma collectRanges_returns : forall lowerSql findings,
  exists l, collectRanges toLowerCase lowerSql findings = Returns l
    /\ Forall (fun r => In (r_finding r) findings
                        /\ rangeOf toLowerCase lowerSql r) l.
Proof.
  intros lowerSql fs. induction fs as [|f rest IH].
  - exists []. split; [reflexivity|constructor].
  - cbn [collectRanges].
    destruct (rangesOf_returns lowerSql f) as (here & -> & Hh).
    destruct IH as (more & -> & Hm). cbn [bind].
    exists (here ++ more). split; [reflexivity|].
    apply Forall_app. split.
    + eapply Forall_impl; [|exact Hh]. intros r [-> H]. split; [left; reflexivity|exact H].
    + eapply Forall_impl; [|exact Hm]. intros r [H1 H2]. split; [right; exact H1|exact H2].
Qed.

End HighlightFacts.

Lemma insertRange_In : forall r x l, In x (insertRange r l) <-> x = r \/ In x l.
Proof.
  intros r x. induction l as [|y t IH]; simpl.
  - split; [intros [H|[]]; auto|intros [H|[]]; auto].
  - destruct (r_start r <=? r_start y); simpl.
    + split; [intros [H|H]; auto|intros [H|H]; auto].
    + rewrite IH. split; [intros [H|[H|H]]; auto|intros [H|[H|H]]; auto].
Qed.

Lemma sortRanges_In : forall x l, In x (sortRanges l) <-> In x l.
Proof.
  intros x. induction l as [|r t IH]; simpl; [reflexivity|].
  rewrite insertRange_In, IH. split; [intros [H|H]; auto|intros [H|H]; auto].
Qed.

Lemma removeOverlaps_In : forall x l lastEnd,
  In x (removeOverlaps lastEnd l) -> In x l.
Proof.
  intros x. induction l as [|r t IH]; intros lastEnd H; simpl in *; [exact H|].
  destruct (lastEnd <=? r_start r).
  - destruct H as [H|H]; [auto|right; eapply IH, H].
  - right. eapply IH, H.
Qed.

Lemma removeOverlaps_tiled : forall l lastEnd,
  Forall (fun r => r_start r <= r_end r) l ->
  tiled lastEnd (removeOverlaps lastEnd l).
Proof.
  induction l as [|r t IH]; intros lastEnd H; simpl; [exact I|].
  inversion H; subst.
  destruct (lastEnd <=? r_start r) eqn:E.
  - apply Nat.leb_le in E. cbn [tiled]. auto.
  - apply IH. assumption.
Qed.

Lemma slice_then_rest : forall (s : jsstr) a b,
  a <= b -> slice s a b ++ skipn b s = skipn a s.
Proof.
  intros s a b H. unfold slice.
  replace (skipn b s) with (skipn (b - a) (skipn a s)).
  - apply firstn_skipn.
  - rewrite skipn_skipn. f_equal. lia.
Qed.

Lemma segmentsFrom_concat : forall sql cleaned cursor,
  tiled cursor cleaned ->
  concat (map s_text (segmentsFrom sql cursor cleaned)) = skipn cursor sql.
Proof.
  intros sql. induction cleaned as [|r t IH]; intros cursor H.
  - cbn [segmentsFrom]. destruct (cursor <? List.length sql) eqn:E.
    + cbn [map concat s_text]. unfold sliceFrom. apply app_nil_r.
    + apply Nat.ltb_ge in E. rewrite skipn_all2 by exact E. reflexivity.
  - cbn [tiled] in H. destruct H as (H1 & H2 & H3).
    cbn [segmentsFrom]. rewrite map_app, concat_app. cbn [map concat s_text].
    rewrite (IH _ H3), (slice_then_rest sql _ _ H2).
    destruct (cursor <? r_start r) eqn:E.
    + cbn [map concat s_text]. rewrite app_nil_r.
      apply slice_then_rest. exact H1.
    + apply Nat.ltb_ge in E. cbn [map concat app].
      replace cursor with (r_start r) by lia. reflexivity.
Qed.

Lemma segmentsFrom_marked : forall sql cleaned cursor seg f,
  In seg (segmentsFrom sql cursor cleaned) -> s_finding seg = Some f ->
  exists r, In r cleaned /\ r_finding r = f
            /\ s_text seg = slice sql (r_start r) (r_end r).
Proof.
  intros sql. induction cleaned as [|r t IH]; intros cursor seg f Hin Hf.
  - cbn [segmentsFrom] in Hin. destruct (cursor <? List.length sql).
    + destruct Hin as [<-|[]]. discriminate.
    + contradiction.
  - cbn [segmentsFrom] in Hin. apply in_app_or in Hin. destruct Hin as [Hin|Hin].
    + destruct (cursor <? r_start r); [|contradiction].
      destruct Hin as [<-|[]]. discriminate.
    + destruct Hin as [<-|Hin].
      * cbn [s_finding] in Hf. inversion Hf; subst.
        exists r. split; [left; reflexivity|]. auto.
      * destruct (IH _ _ _ Hin Hf) as (r' & H1 & H2 & H3).
        exists r'. split; [right; exact H1|]. auto.
Qed.

Lemma segmentsFrom_plain : forall sql cursor,
  segmentsFrom sql cursor [] =
  if cursor <? List.length sql then [mkSegment (sliceFrom sql cursor) None] else [].
Proof. reflexivity. Qed.

(* ====================================================================== *)
(** ** Findings of the tree and findings of the text *)
(* ====================================================================== *)

Lemma dedupe_same_members : forall fs s1 s2,
  (forall g, In g fs ->
     set_mem string_dec (ruleId g) s1 = set_mem string_dec (ruleId g) s2) ->
  dedupe s1 fs = dedupe s2 fs.
Proof.
  induction fs as [|g rest IH]; intros s1 s2 H; [reflexivity|].
  cbn [dedupe]. rewrite (H g (or_introl eq_refl)).
  destruct (set_mem string_dec (ruleId g) s2).
  - apply IH. intros h Hh. apply H. right. exact Hh.
  - f_equal. apply IH. intros h Hh.
    destruct (string_dec (ruleId h) (ruleId g)) as [E|E].
    + rewrite E, !set_mem_add_same. reflexivity.
    + rewrite !set_mem_add_other by exact E. apply H. right. exact Hh.
Qed.

Lemma dedupe_split : forall a b seen,
  (forall f g, In f a -> In g b -> ruleId g <> ruleId f) ->
  dedupe seen (a ++ b) = dedupe seen a ++ dedupe seen b.
Proof.
  induction a as [|f a IH]; intros b seen H; [reflexivity|].
  cbn [app dedupe]. destruct (set_mem string_dec (ruleId f) seen).
  - apply IH. intros f' g Hf Hg. apply H; [right; exact Hf|exact Hg].
  - cbn [app]. f_equal. rewrite IH.
    + f_equal. apply dedupe_same_members. intros g Hg.
      apply set_mem_add_other. apply H; [left; reflexivity|exact Hg].
    + intros f' g Hf Hg. apply H; [right; exact Hf|exact Hg].
Qed.

Lemma filter_all : forall (A : Type) (p : A -> bool) l,
  Forall (fun x => p x = true) l -> filter p l = l.
Proof.
  intros A p l H. induction H as [|x l Hx _ IH]; simpl; [reflexivity|].
  rewrite Hx, IH. reflexivity.
Qed.

Lemma filter_none : forall (A : Type) (p : A -> bool) l,
  Forall (fun x => p x = false) l -> filter p l = [].
Proof.
  intros A p l H. induction H as [|x l Hx _ IH]; simpl; [reflexivity|].
  rewrite Hx, IH. reflexivity.
Qed.

Lemma isTreeId_tree : forall f, In (ruleId f) structuralIds -> isTreeId f = true.
Proof.
  intros f H. unfold isTreeId. apply existsb_exists.
  exists (ruleId f). split; [exact H|apply String.eqb_refl].
Qed.

Lemma isTreeId_text : forall f, In (ruleId f) (concat ruleTable) -> isTreeId f = false.
Proof.
  intros f H.
  assert (Hall : forallb (fun id => negb (existsb (String.eqb id) structuralIds))
                   (concat ruleTable) = true) by reflexivity.
  rewrite forallb_forall in Hall. specialize (Hall _ H).
  unfold isTreeId. destruct (existsb _ _); [discriminate|reflexivity].
Qed.

(* ====================================================================== *)
(** ** Blanks around the text *)
(* ====================================================================== *)

Lemma trimStart_app_blank : forall a b,
  Forall (fun c => isSpace c = true) a -> trimStart (a ++ b) = trimStart b.
Proof.
  intros a b H. induction H as [|c a Hc _ IH]; [reflexivity|].
  cbn [app trimStart]. rewrite Hc. exact IH.
Qed.

Lemma trimStart_keeps_end : forall a b,
  trimStart a <> [] -> trimStart (a ++ b) = trimStart a ++ b.
Proof.
  induction a as [|c a IH]; intros b H; [contradiction|].
  cbn [app trimStart] in *. destruct (isSpace c); [apply IH, H|reflexivity].
Qed.

Lemma trimStart_nil_blank : forall a,
  trimStart a = [] -> Forall (fun c => isSpace c = true) a.
Proof.
  induction a as [|c a IH]; intros H; [constructor|].
  cbn [trimStart] in H. destruct (isSpace c) eqn:E; [|discriminate].
  constructor; auto.
Qed.

Lemma trim_outer_blanks : forall before s after,
  Forall (fun c => isSpace c = true) before ->
  Forall (fun c => isSpace c = true) after ->
  trim (before ++ s ++ after) = trim s.
Proof.
  intros before s after Hb Ha. unfold trim.
  rewrite (trimStart_app_blank before _ Hb).
  destruct (trimStart s) as [|c t] eqn:E.
  - apply trimStart_nil_blank in E.
    rewrite (trimStart_app_blank s after E).
    assert (Hall : Forall (fun c => isSpace c = true) (rev (trimStart after)))
      by (apply Forall_rev, Forall_trimStart, Ha).
    rewrite (trimStart_blank _ Hall). reflexivity.
  - rewrite trimStart_keeps_end by (rewrite E; discriminate).
    rewrite E, rev_app_distr.
    rewrite (trimStart_app_blank (rev after)); [reflexivity|].
    apply Forall_rev, Ha.
Qed.

(* ====================================================================== *)
(** ** Nesting *)
(* ====================================================================== *)

Lemma most_nested : forall (l : list Node) c,
  In c l -> nesting c <= fold_right Nat.max 0 (map nesting l).
Proof.
  induction l as [|x l IH]; intros c H; [contradiction|].
  cbn [map fold_right]. destruct H as [->|H]; [lia|].
  specialize (IH c H). lia.
Qed.

Lemma nesting_from : forall n f, In f (asList (n_from n)) -> nesting f <= nesting n.
Proof.
  intros [t cols from wh ob lim ex ast l r args j on tb al] f H.
  cbn [n_from] in H. cbn [nesting n_columns n_from n_where n_orderby n_limit n_expr
    n_ast n_left n_right n_args n_on].
  destruct from as [|a|items]; cbn [asList] in H.
  - contradiction.
  - destruct H as [->|[]]. lia.
  - apply most_nested in H. lia.
Qed.

Lemma nesting_expr : forall n e, In e (asList (n_expr n)) -> nesting e <= nesting n.
Proof.
  intros [t cols from wh ob lim ex ast l r args j on tb al] f H.
  cbn [n_expr] in H. cbn [nesting n_columns n_from n_where n_orderby n_limit n_expr
    n_ast n_left n_right n_args n_on].
  destruct ex as [|a|items]; cbn [asList] in H.
  - contradiction.
  - destruct H as [->|[]]. lia.
  - apply most_nested in H. lia.
Qed.

Lemma nesting_ast : forall n sub, n_ast n = Some sub -> S (nesting sub) <= nesting n.
Proof.
  intros [t cols from wh ob lim ex ast l r args j on tb al] sub H.
  cbn [n_ast] in H. subst ast.
  cbn [nesting n_columns n_from n_where n_orderby n_limit n_expr
    n_ast n_left n_right n_args n_on]. lia.
Qed.

Lemma nesting_where : forall n e, n_where n = Some e -> nesting e <= nesting n.
Proof.
  intros [t cols from wh ob lim ex ast l r args j on tb al] e H.
  cbn [n_where] in H. subst wh.
  cbn [nesting n_columns n_from n_where n_orderby n_limit n_expr
    n_ast n_left n_right n_args n_on]. lia.
Qed.

Lemma nesting_left : forall n e, n_left n = Some e -> nesting e <= nesting n.
Proof.
  intros [t cols from wh ob lim ex ast l r args j on tb al] e H.
  cbn [n_left] in H. subst l.
  cbn [nesting n_columns n_from n_where n_orderby n_limit n_expr
    n_ast n_left n_right n_args n_on]. lia.
Qed.

Lemma nesting_right : forall n e, n_right n = Some e -> nesting e <= nesting n.
Proof.
  intros [t cols from wh ob lim ex ast l r args j on tb al] e H.
  cbn [n_right] in H. subst r.
  cbn [nesting n_columns n_from n_where n_orderby n_limit n_expr
    n_ast n_left n_right n_args n_on]. lia.
Qed.

Lemma nesting_args : forall n e, n_args n = Some e -> nesting e <= nesting n.
Proof.
  intros [t cols from wh ob lim ex ast l r args j on tb al] e H.
  cbn [n_args] in H. subst args.
  cbn [nesting n_columns n_from n_where n_orderby n_limit n_expr
    n_ast n_left n_right n_args n_on]. lia.
Qed.

Lemma nesting_subquery : forall f sub,
  exprAst f = Some sub -> S (nesting sub) <= nesting f.
Proof.
  intros f sub H. unfold exprAst in H.
  destruct (n_expr f) as [|e|l] eqn:E; try discriminate.
  apply nesting_ast in H.
  assert (nesting e <= nesting f) by (apply nesting_expr; rewrite E; left; reflexivity).
  lia.
Qed.

Lemma flat_map_nil : forall (A B : Type) (f : A -> list B) l,
  (forall a, In a l -> f a = []) -> flat_map f l = [].
Proof.
  intros A B f l H. induction l as [|a l IH]; [reflexivity|].
  cbn [flat_map]. rewrite (H a (or_introl eq_refl)), IH; [reflexivity|].
  intros b Hb. apply H. right. exact Hb.
Qed.

Lemma shallow_not_flagged : forall sql n,
  (forall depth, depth + nesting n < 3 -> checkNestedSubqueries sql n depth = [])
  /\ (forall depth, depth + nesting n < 3 -> checkExprForSubqueries sql n depth = []).
Proof.
  intros sql. induction n as [n IH] using Node_size_ind. split; intros depth Hd.
  - rewrite checkNestedSubqueries_eq.
    destruct (negb (isSelect n)); [reflexivity|].
    replace (3 <=? depth) with false by (symmetry; apply Nat.leb_gt; lia).
    cbn [app].
    assert (Hw : match n_where n with
                 | Some e => checkExprForSubqueries sql e depth
                 | None => []
                 end = []).
    { destruct (n_where n) as [e|] eqn:Ew; [|reflexivity].
      apply IH; [apply child_smaller, where_child, Ew|].
      apply nesting_where in Ew. lia. }
    rewrite Hw. cbn [app].
    apply flat_map_nil. intros f Hf.
    destruct (exprAst f) as [sub|] eqn:Es; [|reflexivity].
    apply IH; [eapply from_subquery_smaller; eauto|].
    apply nesting_subquery in Es. apply nesting_from in Hf. lia.
  - rewrite checkExprForSubqueries_eq.
    assert (H1 : match n_ast n with
                 | Some sub => checkNestedSubqueries sql sub (S depth)
                 | None => []
                 end = []).
    { destruct (n_ast n) as [sub|] eqn:Ea; [|reflexivity].
      apply IH; [apply child_smaller, ast_child, Ea|].
      apply nesting_ast in Ea. lia. }
    assert (H2 : match n_left n with
                 | Some l => checkExprForSubqueries sql l depth
                 | None => []
                 end = []).
    { destruct (n_left n) as [e|] eqn:Ea; [|reflexivity].
      apply IH; [apply child_smaller, left_child, Ea|].
      apply nesting_left in Ea. lia. }
    assert (H3 : match n_right n with
                 | Some r => checkExprForSubqueries sql r depth
                 | None => []
                 end = []).
    { destruct (n_right n) as [e|] eqn:Ea; [|reflexivity].
      apply IH; [apply child_smaller, right_child, Ea|].
      apply nesting_right in Ea. lia. }
    rewrite H1, H2, H3. cbn [app].
    destruct (n_args n) as [args|] eqn:Ea; [|reflexivity].
    apply flat_map_nil. intros a Ha.
    destruct (n_ast a) as [sub|] eqn:Es; [|reflexivity].
    apply IH.
    + apply args_child, child_smaller in Ea.
      apply expr_child, child_smaller in Ha.
      apply ast_child, child_smaller in Es. lia.
    + apply nesting_args in Ea. apply nesting_expr in Ha.
      apply nesting_ast in Es. lia.
Qed.

(* ====================================================================== *)
(** ** Offsets and fragments *)
(* ====================================================================== *)

(** X1. [locate] on a text and a needle that the case conversion maps
    character by character (Basic Latin text): the range it gives has the
    length of the needle, lies within the text, reads the needle up to
    case, and no earlier place of the text does; when it gives nothing,
    no place of the text reads the needle up to case. *)
Theorem locate_first_occurrence : forall toLowerCase sql needle,
  toLowerCase sql = map lowerLatin sql ->
  toLowerCase needle = map lowerLatin needle ->
  match locate toLowerCase sql needle with
  | Some o =>
      stop o = start o + List.length needle
      /\ stop o <= List.length sql
      /\ map lowerLatin (slice sql (start o) (stop o)) = map lowerLatin needle
      /\ forall i, i < start o ->
           map lowerLatin (slice sql i (i + List.length needle))
           <> map lowerLatin needle
  | None =>
      forall i, map lowerLatin (slice sql i (i + List.length needle))
                <> map lowerLatin needle
  end.
Proof.
  intros toLowerCase sql needle Hs Hn.
  destruct (locate toLowerCase sql needle) as [o|] eqn:E.
  - eapply locate_latin; eauto.
  - eapply locate_latin_none; eauto.
Qed.

(** X1 on a text that holds the needle twice, in two spellings. *)
Lemma locate_first_occurrence_witness :
  match locate toLowerCaseLatin (lit "SELECT a FROM t Order By a, b order by")
          (lit "order by") with
  | Some o =>
      stop o = start o + 8
      /\ stop o <= 38
      /\ map lowerLatin
           (slice (lit "SELECT a FROM t Order By a, b order by") (start o) (stop o))
         = map lowerLatin (lit "order by")
      /\ forall i, i < start o ->
           map lowerLatin
             (slice (lit "SELECT a FROM t Order By a, b order by") i (i + 8))
           <> map lowerLatin (lit "order by")
  | None =>
      forall i, map lowerLatin
                  (slice (lit "SELECT a FROM t Order By a, b order by") i (i + 8))
                <> map lowerLatin (lit "order by")
  end.
Proof.
  apply (locate_first_occurrence toLowerCaseLatin
           (lit "SELECT a FROM t Order By a, b order by") (lit "order by"));
    reflexivity.
Defined.





Lemma joinsHave_any : forall node, joinsHave (fun _ => True) node.
Proof.
  intros node. unfold joinsHave. apply Forall_forall. intros item _.
  destruct (n_join item); [|exact I]. apply Forall_forall. auto.
Qed.

Lemma located_anywhere : forall toLowerCase toUpperCase astify rev sql,
  exists r,
    analyzeOf rev toLowerCase toUpperCase astify sql = Returns r
    /\ Forall (wellLocated toLowerCase (fun _ => True) (trim sql)) (findings r).
Proof.
  intros. apply analyzeOf_located; [auto|].
  intros text v _. apply Forall_forall. intros n _. apply joinsHave_any.
Qed.

(** X4. Whatever the case conversion and the parser are, an offset in the
    result of [analyze] is the range [locate] gave for a text that is not
    empty: it starts before it ends, and its length is the length of that
    text. *)
Theorem offsets_span_a_needle : forall toLowerCase toUpperCase astify rev sql,
  exists r,
    analyzeOf rev toLowerCase toUpperCase astify sql = Returns r
    /\ forall f o, In f (findings r) -> offset f = Some o ->
         start o < stop o
         /\ exists needle,
              locate toLowerCase (trim sql) needle = Some o
              /\ stop o = start o + List.length needle.
Proof.
  intros toLowerCase toUpperCase astify rev sql.
  destruct (located_anywhere toLowerCase toUpperCase astify rev sql) as (r & Er & Hr).
  exists r. split; [exact Er|]. intros f o Hf Ho.
  rewrite Forall_forall in Hr. specialize (Hr f Hf).
  unfold wellLocated in Hr. rewrite Ho in Hr.
  destruct Hr as (needle & [Hne _] & Hl).
  pose proof (locate_span _ _ _ _ Hl) as Hspan.
  split.
  - destruct needle; [contradiction|]. simpl in Hspan. lia.
  - exists needle. auto.
Qed.



Section SegmentFacts.
Variable toLowerCase : jsstr -> jsstr.

Lemma buildSegments_returns : forall sql findings,
  exists ranges,
    collectRanges toLowerCase (toLowerCase sql) findings = Returns ranges
    /\ buildSegments toLowerCase sql findings
       = Returns (segmentsFrom sql 0 (removeOverlaps 0 (sortRanges ranges)))
    /\ Forall (fun r => In (r_finding r) findings
                        /\ rangeOf toLowerCase (toLowerCase sql) r) ranges.
Proof.
  intros sql findings.
  destruct (collectRanges_returns toLowerCase (toLowerCase sql) findings)
    as (ranges & E & H).
  exists ranges. split; [exact E|]. split; [|exact H].
  unfold buildSegments. rewrite E. reflexivity.
Qed.

Lemma buildSegments_concat : forall sql findings,
  (forall f o, In f findings -> truthy (fragment f) = false ->
               offset f = Some o -> start o <= stop o) ->
  exists segs,
    buildSegments toLowerCase sql findings = Returns segs
    /\ concat (map s_text segs) = sql.
Proof.
  intros sql findings Hoff.
  destruct (buildSegments_returns sql findings) as (ranges & _ & E & H).
  eexists. split; [exact E|].
  rewrite segmentsFrom_concat; [reflexivity|].
  apply removeOverlaps_tiled. apply Forall_forall. intros r Hr.
  apply (proj1 (sortRanges_In _ _)) in Hr. rewrite Forall_forall in H.
  destruct (H r Hr) as [Hin Hof]. unfold rangeOf in Hof.
  destruct (fragment (r_finding r)) as [[|c t]|] eqn:Ef.
  - apply (Hoff _ _ Hin) in Hof; [exact Hof|rewrite Ef; reflexivity].
  - destruct Hof as [Hof _]. lia.
  - apply (Hoff _ _ Hin) in Hof; [exact Hof|rewrite Ef; reflexivity].
Qed.

End SegmentFacts.

(** X6. [buildSegments] returns, and the pieces it returns, put one after
    the other, are the text it was given, when every offset it has to use
    (the one of a finding without fragment) starts at or before its
    end. *)
Theorem segments_spell_text : forall toLowerCase sql findings,
  (forall f o, In f findings -> truthy (fragment f) = false ->
               offset f = Some o -> start o <= stop o) ->
  exists segs,
    buildSegments toLowerCase sql findings = Returns segs
    /\ concat (map s_text segs) = sql.
Proof.
  intros toLowerCase sql findings H.
  apply (buildSegments_concat toLowerCase sql findings H).
Qed.

(** X6 on a text with two findings: one with a fragment that occurs twice,
    one with an offset only. *)
Lemma segments_spell_text_witness :
  exists segs,
    buildSegments toLowerCaseLatin (lit "select a FROM t UNION SELECT b FROM u union SELECT c FROM v")
      [F_union_without_all;
       withOffset F_deeply_nested_subquery (mkOffset 9 13)] = Returns segs
    /\ concat (map s_text segs) = lit "select a FROM t UNION SELECT b FROM u union SELECT c FROM v".
Proof.
  apply (segments_spell_text toLowerCaseLatin
           (lit "select a FROM t UNION SELECT b FROM u union SELECT c FROM v")).
  intros f o [<-|[<-|[]]] Hf Ho.
  - discriminate.
  - inversion Ho. simpl. lia.
Defined.

(** X7. A marked piece belongs to one of the findings given.  When that
    finding has a fragment, the piece is as long a part of the text as
    the fragment, taken where the lower-cased fragment occurs in the
    lower-cased text (so on Basic Latin text it reads the fragment up to
    case); when it has none, the piece is the range of its offset.
    Findings without fragment and offset mark nothing: with such findings
    only, the text is one plain piece, or no piece when it is empty. *)
Theorem marked_segments : forall toLowerCase sql findings,
  exists segs,
    buildSegments toLowerCase sql findings = Returns segs
    /\ (forall seg f, In seg segs -> s_finding seg = Some f ->
          In f findings
          /\ match fragment f with
             | Some (c :: t) =>
                 exists idx,
                   s_text seg = slice sql idx (idx + List.length (c :: t))
                   /\ firstn (List.length (toLowerCase (c :: t)))
                        (skipn idx (toLowerCase sql)) = toLowerCase (c :: t)
                   /\ (toLowerCase sql = map lowerLatin sql ->
                       toLowerCase (c :: t) = map lowerLatin (c :: t) ->
                       map lowerLatin (s_text seg) = map lowerLatin (c :: t))
             | _ =>
                 exists o, offset f = Some o
                           /\ s_text seg = slice sql (start o) (stop o)
             end)
    /\ ((forall f, In f findings ->
           truthy (fragment f) = false /\ offset f = None) ->
        segs = if 0 <? List.length sql then [mkSegment sql None] else []).
Proof.
  intros toLowerCase sql findings.
  destruct (buildSegments_returns toLowerCase sql findings) as (ranges & _ & E & H).
  eexists. split; [exact E|]. rewrite Forall_forall in H. split.
  - intros seg f Hin Hf.
    destruct (segmentsFrom_marked _ _ _ _ _ Hin Hf) as (r & Hr & <- & Ht).
    apply removeOverlaps_In in Hr. apply (proj1 (sortRanges_In _ _)) in Hr.
    destruct (H r Hr) as [Hfin Hof]. split; [exact Hfin|].
    unfold rangeOf in Hof.
    destruct (fragment (r_finding r)) as [[|c t]|] eqn:Ef.
    + eexists. split; [exact Hof|exact Ht].
    + destruct Hof as [He Hp]. exists (r_start r). rewrite <- He.
      split; [exact Ht|]. split; [exact Hp|].
      intros Hs Hn. rewrite Ht, He, <- slice_map, slice_prefix.
      rewrite Hs, Hn, length_map in Hp. exact Hp.
    + eexists. split; [exact Hof|exact Ht].
  - intros Hnone.
    assert (ranges = []) as ->.
    { destruct ranges as [|r rest]; [reflexivity|].
      destruct (H r (or_introl eq_refl)) as [Hfin Hof].
      destruct (Hnone _ Hfin) as [Hfrag Hoff]. unfold rangeOf in Hof.
      destruct (fragment (r_finding r)) as [[|c t]|]; try discriminate;
        rewrite Hoff in Hof; discriminate. }
    reflexivity.
Qed.

(** X8. The text shown with the findings of an analysis is the text given
    to be shown, whatever that text, the analysed text, the case
    conversion and the parser are: the pieces [buildSegments] makes of it
    with the findings [analyze] returned spell it. *)
Theorem analysis_shown_whole : forall toLowerCase toUpperCase astify rev sql shown,
  exists r segs,
    analyzeOf rev toLowerCase toUpperCase astify sql = Returns r
    /\ buildSegments toLowerCase shown (findings r) = Returns segs
    /\ concat (map s_text segs) = shown.
Proof.
  intros toLowerCase toUpperCase astify rev sql shown.
  destruct (located_anywhere toLowerCase toUpperCase astify rev sql) as (r & Er & Hr).
  destruct (buildSegments_concat toLowerCase shown (findings r)) as (segs & Es & Hc).
  { intros f o Hf _ Ho. rewrite Forall_forall in Hr. specialize (Hr f Hf).
    unfold wellLocated in Hr. rewrite Ho in Hr.
    destruct Hr as (needle & _ & Hl). apply locate_span in Hl. lia. }
  exists r, segs. auto.
Qed.

(** X9. On a text that is not blank, the findings [analyze] returns are
    the deduplicated findings of the rules over the tree followed by the
    deduplicated findings of the rules over the text: no rule over the
    tree shares an id with a rule over the text.  The findings with the
    id of a rule over the text are therefore the same whatever the parser
    does. *)
Theorem text_findings_ignore_parser :
  forall toLowerCase toUpperCase astify rev sql,
    trim sql <> [] ->
    exists ast perr textual r,
      parseAttempts astify rev (trim sql) = Returns (ast, perr)
      /\ regexRules toLowerCase toUpperCase (trim sql) = Returns textual
      /\ analyzeOf rev toLowerCase toUpperCase astify sql = Returns r
      /\ findings r =
         dedupe (empty_set string)
           (flat_map (structuralRules toLowerCase (trim sql)) (statements ast))
         ++ dedupe (empty_set string) textual
      /\ filter (fun f => negb (isTreeId f)) (findings r)
         = dedupe (empty_set string) textual.
Proof.
  intros toLowerCase toUpperCase astify rev sql Ht.
  destruct (analyzeOf_runs toLowerCase toUpperCase astify rev sql Ht)
    as (ast & perr & fs & Ep & Er & Ea).
  destruct (regexRules_returns toLowerCase toUpperCase (trim sql))
    as (textual & Et & Hids).
  pose proof (structural_all_ids toLowerCase (trim sql) ast) as Hsids.
  exists ast, perr, textual, (mkResult fs perr).
  split; [exact Ep|]. split; [exact Et|]. split; [exact Ea|].
  assert (Hfs : fs = dedupe (empty_set string)
                       (flat_map (structuralRules toLowerCase (trim sql))
                          (statements ast))
                     ++ dedupe (empty_set string) textual).
  { unfold runRules, emitted in Er. rewrite Et in Er. cbn [bind] in Er.
    inversion Er. apply dedupe_split.
    intros f g Hf Hg E.
    rewrite Forall_forall in Hsids, Hids.
    pose proof (isTreeId_tree f (Hsids f Hf)) as H1.
    pose proof (isTreeId_text g (Hids g Hg)) as H2.
    unfold isTreeId in H1, H2. rewrite E in H2. congruence. }
  cbn [findings]. split; [exact Hfs|].
  rewrite Hfs, filter_app.
  rewrite filter_none, filter_all; [reflexivity| |].
  - apply dedupe_Forall. eapply Forall_impl; [|exact Hids].
    intros f Hf. rewrite (isTreeId_text f Hf). reflexivity.
  - apply dedupe_Forall. eapply Forall_impl; [|exact Hsids].
    intros f Hf. rewrite (isTreeId_tree f Hf). reflexivity.
Qed.

(** X9 on a query with a join, with a parser that returns its tree. *)
Lemma text_findings_ignore_parser_witness :
  exists ast perr textual r,
    parseAttempts (fun _ => Parsed (AstNode joinedQuery)) DirectFirst
      (trim joinedQueryText) = Returns (ast, perr)
    /\ regexRules toLowerCaseLatin toUpperCaseLatin (trim joinedQueryText)
       = Returns textual
    /\ analyzeOf DirectFirst toLowerCaseLatin toUpperCaseLatin
         (fun _ => Parsed (AstNode joinedQuery)) joinedQueryText = Returns r
    /\ findings r =
       dedupe (empty_set string)
         (flat_map (structuralRules toLowerCaseLatin (trim joinedQueryText))
            (statements ast))
       ++ dedupe (empty_set string) textual
    /\ filter (fun f => negb (isTreeId f)) (findings r)
       = dedupe (empty_set string) textual.
Proof.
  apply (text_findings_ignore_parser toLowerCaseLatin toUpperCaseLatin
           (fun _ => Parsed (AstNode joinedQuery)) DirectFirst joinedQueryText).
  vm_compute. discriminate.
Defined.

(** X10. White space before and after the text changes nothing: [analyze]
    returns for the padded text what it returns for the text, offsets
    included (they count from the first character that is not white
    space). *)
Theorem outer_blanks_ignored :
  forall toLowerCase toUpperCase astify rev before sql after,
    Forall (fun c => isSpace c = true) before ->
    Forall (fun c => isSpace c = true) after ->
    analyzeOf rev toLowerCase toUpperCase astify (before ++ sql ++ after)
    = analyzeOf rev toLowerCase toUpperCase astify sql.
Proof.
  intros toLowerCase toUpperCase astify rev before sql after Hb Ha.
  rewrite !analyzeOf_eq, (trim_outer_blanks before sql after Hb Ha). reflexivity.
Qed.

(** X10 with a line break and blanks around a query. *)
Lemma outer_blanks_ignored_witness :
  analyzeOf DirectFirst toLowerCaseLatin toUpperCaseLatin rejectingParser
    ([10%N; 32%N; 9%N] ++ lit "SELECT * FROM t" ++ lit "  ")
  = analyzeOf DirectFirst toLowerCaseLatin toUpperCaseLatin rejectingParser
      (lit "SELECT * FROM t").
Proof.
  apply (outer_blanks_ignored toLowerCaseLatin toUpperCaseLatin rejectingParser
           DirectFirst [10%N; 32%N; 9%N] (lit "SELECT * FROM t") (lit "  "));
    repeat (apply Forall_cons; [reflexivity|]); apply Forall_nil.
Defined.

(** X11. The nesting rule pushes one and the same finding, without
    fragment and offset; it pushes it for a SELECT it visits at depth 3 or
    more; and it pushes nothing below a node from which fewer subqueries
    nest than are needed to reach depth 3. *)
Theorem deep_nesting_threshold : forall sql n depth,
  Forall (eq F_deeply_nested_subquery) (checkNestedSubqueries sql n depth)
  /\ (isSelect n = true -> 3 <= depth ->
      In F_deeply_nested_subquery (checkNestedSubqueries sql n depth))
  /\ (depth + nesting n < 3 -> checkNestedSubqueries sql n depth = []).
Proof.
  intros sql n depth. split; [apply checkNested_all|]. split.
  - intros Hs Hd. rewrite checkNestedSubqueries_eq, Hs. cbn [negb].
    replace (3 <=? depth) with true by (symmetry; apply Nat.leb_le; exact Hd).
    left. reflexivity.
  - apply shallow_not_flagged.
Qed.

Lemma deeply_nested_source : forall toLowerCase sql n f,
  In f (structuralRules toLowerCase sql n) ->
  ruleId f = "deeply-nested-subquery"%string ->
  In f (checkNestedSubqueries sql n 0).
Proof.
  intros toLowerCase sql n f Hin Hid. unfold structuralRules in Hin.
  repeat (apply in_app_or in Hin; destruct Hin as [Hin|Hin]).
  - pose proof (checkSelectStar_ids toLowerCase sql n) as H.
    rewrite Forall_forall in H. apply H in Hin. congruence.
  - unfold checkOrderByWithoutLimit in Hin.
    destruct (negb (isSelect n)); [contradiction|].
    destruct (n_orderby n), (n_limit n); try contradiction.
    destruct Hin as [<-|[]]. rewrite ruleId_located in Hid. discriminate.
  - unfold checkCrossJoin in Hin.
    destruct (_ || _); [contradiction|].
    apply in_flat_map in Hin. destruct Hin as (item & _ & Hin).
    destruct (n_join item) as [j|]; [|contradiction].
    destruct (jsstr_eqb j _); [|contradiction].
    destruct Hin as [<-|[]]. rewrite ruleId_located in Hid. discriminate.
  - exact Hin.
  - unfold checkJoinWithoutCondition in Hin.
    destruct (_ || _); [contradiction|].
    apply in_app_or in Hin. destruct Hin as [Hin|Hin].
    + destruct (_ && _); [|contradiction].
      destruct Hin as [<-|[]]. discriminate.
    + apply in_flat_map in Hin. destruct Hin as (item & _ & Hin).
      destruct (n_join item) as [[|c t]|]; try contradiction;
        destruct (n_on item); try contradiction.
      destruct (jsstr_eqb _ _); [contradiction|].
      destruct Hin as [<-|[]]. rewrite ruleId_located in Hid. discriminate.
Qed.

Lemma Subseq_In : forall (A : Type) (a b : list A) x,
  Subseq a b -> In x a -> In x b.
Proof.
  intros A a b x H. induction H; intros Hin.
  - exact Hin.
  - right. auto.
  - destruct Hin as [<-|Hin]; [left; reflexivity|right; auto].
Qed.

Lemma runRules_shallow : forall toLowerCase toUpperCase ast sql,
  Forall (fun n => nesting n < 3) (statements ast) ->
  exists fs,
    runRules toLowerCase toUpperCase ast sql = Returns fs
    /\ withId "deeply-nested-subquery" fs = [].
Proof.
  intros toLowerCase toUpperCase ast sql Hshallow.
  destruct (regexRules_returns toLowerCase toUpperCase sql) as (textual & Etx & Hids).
  unfold runRules, emitted. rewrite Etx. cbn [bind].
  eexists. split; [reflexivity|].
  destruct (withId _ _) as [|f rest] eqn:Ew; [reflexivity|exfalso].
  assert (Hf : In f (withId "deeply-nested-subquery"
                       (dedupe (empty_set string)
                          (flat_map (structuralRules toLowerCase sql)
                             (statements ast) ++ textual))))
    by (rewrite Ew; left; reflexivity).
  unfold withId in Hf. apply filter_In in Hf. destruct Hf as [Hf Hid].
  apply hasId_true in Hid.
  apply (Subseq_In _ _ _ _ (dedupe_Subseq _ _)) in Hf.
  apply in_app_or in Hf. destruct Hf as [Hf|Hf].
  - apply in_flat_map in Hf. destruct Hf as (n & Hn & Hf).
    apply (deeply_nested_source _ _ _ _ Hf) in Hid.
    rewrite Forall_forall in Hshallow. specialize (Hshallow n Hn).
    rewrite (proj1 (shallow_not_flagged sql n) 0) in Hid by lia.
    contradiction.
  - rewrite Forall_forall in Hids. apply Hids in Hf. rewrite Hid in Hf.
    revert Hf. apply existsb_eqb_false. reflexivity.
Qed.

(** X12. When the trees the parser returns nest fewer than three
    subqueries on any path, the result of [analyze] holds no finding of
    the nesting rule. *)
Theorem shallow_queries_not_flagged : forall toLowerCase toUpperCase astify,
  (forall text v, astify text = Parsed v ->
     Forall (fun n => nesting n < 3) (statements v)) ->
  forall rev sql,
    exists r,
      analyzeOf rev toLowerCase toUpperCase astify sql = Returns r
      /\ withId "deeply-nested-subquery" (findings r) = [].
Proof.
  intros toLowerCase toUpperCase astify Hparser rev sql.
  rewrite analyzeOf_eq. destruct (trim sql) as [|c t] eqn:Et.
  - exists (mkResult [] None). split; reflexivity.
  - destruct (parseAttempts_returns astify rev (c :: t))
      as (s & _ & [(ast & Ep & Ha)|(e & Ep & _)]); rewrite Ep; cbn [bind fst snd].
    + destruct (runRules_shallow toLowerCase toUpperCase ast (c :: t))
        as (fs & Er & Hw).
      { destruct Ha as [[Ha _]|Ha]; eapply Hparser; eauto. }
      rewrite Er. cbn [bind]. eexists. split; [reflexivity|exact Hw].
    + destruct (runRules_shallow toLowerCase toUpperCase AstNull (c :: t))
        as (fs & Er & Hw); [constructor|].
      rewrite Er. cbn [bind]. eexists. split; [reflexivity|exact Hw].
Qed.

(** X12 with a parser that returns a query with one subquery. *)
Lemma shallow_queries_not_flagged_witness :
  exists r,
    analyzeOf DirectFirst toLowerCaseLatin toUpperCaseLatin
      (fun _ => Parsed (AstNode sortedSubquery)) sortedSubqueryText = Returns r
    /\ withId "deeply-nested-subquery" (findings r) = [].
Proof.
  apply (shallow_queries_not_flagged toLowerCaseLatin toUpperCaseLatin
           (fun _ => Parsed (AstNode sortedSubquery))).
  intros text v H. inversion H; subst v.
  constructor; [vm_compute; lia|constructor].
Defined.

(* ====================================================================== *)
(** ** Counting rules *)
(* ====================================================================== *)

Lemma Returns_inj : forall (A : Type) (a b : A), Returns a = Returns b -> a = b.
Proof. intros A a b H. inversion H. reflexivity. Qed.

Section Thresholds.
Variable toLowerCase : jsstr -> jsstr.
Variable toUpperCase : jsstr -> jsstr.
Variable astify : jsstr -> ParseOutcome.


(** X14. With c the number of occurrences of AS ( in the upper-cased
    trimmed text of a text that is not blank: [analyze] returns the
    finding many-ctes as a warning when c > 10, as an information when
    5 < c <= 10, and not at all when c <= 5. *)
Theorem many_ctes_thresholds : forall rev sql,
  trim sql <> [] ->
  exists c r,
    matchCount (toUpperCase (trim sql)) re_as_paren = Returns c
    /\ analyzeOf rev toLowerCase toUpperCase astify sql = Returns r
    /\ withId "many-ctes" (findings r) =
       (if 10 <? c then [F_many_ctes_warning c]
        else if 5 <? c then [F_many_ctes_info c]
             else [])
    /\ severity (F_many_ctes_warning c) = warning
    /\ severity (F_many_ctes_info c) = info.
Proof.
  intros rev sql Ht.
  destruct (matchCount_returns re_as_paren (toUpperCase (trim sql))) as [c Ec].
  destruct (analyzeOf_withId toLowerCase toUpperCase astify
              "many-ctes" 17 (rule_many_ctes toUpperCase)
              rev sql eq_refl eq_refl eq_refl Ht) as (l & r & El & Ea & Hw).
  unfold rule_many_ctes in El. cbv zeta in El. rewrite Ec in El.
  cbn [bind] in El. apply Returns_inj in El. rename El into Hl.
  exists c, r. split; [exact Ec|]. split; [exact Ea|].
  rewrite Hw, <- Hl.
  destruct (10 <? c); [|destruct (5 <? c)]; repeat split; reflexivity.
Qed.

(** X15. With n the number of casts (CAST(... AS type) and ::type, for the
    types the rule names) in the trimmed text: [analyze] returns the
    finding excessive-casts, which carries n, when n > 8, and not when
    n <= 8. *)
Theorem excessive_casts_threshold : forall rev sql,
  exists casts r,
    findAll (trim sql) re_cast = Returns casts
    /\ analyzeOf rev toLowerCase toUpperCase astify sql = Returns r
    /\ withId "excessive-casts" (findings r) =
       (if 8 <? List.length casts
        then [F_excessive_casts (List.length casts)] else [])
    /\ severity (F_excessive_casts (List.length casts)) = info.
Proof.
  intros rev sql.
  destruct (trim sql) as [|c t] eqn:Et.
  - exists [], (mkResult [] None).
    rewrite analyzeOf_eq, Et. cbn [findings]. repeat split; reflexivity.
  - destruct (findAll_returns re_cast (c :: t) eq_refl) as [casts Ec].
    destruct (analyzeOf_withId toLowerCase toUpperCase astify
                "excessive-casts" 19 rule_casts
                rev sql eq_refl eq_refl eq_refl) as (l & r & El & Ea & Hw);
      [rewrite Et; discriminate|].
    rewrite Et in El. unfold rule_casts in El. rewrite Ec in El.
    cbn [bind] in El. apply Returns_inj in El. rename El into Hl.
    exists casts, r.
    split; [exact Ec|]. split; [exact Ea|].
    rewrite Hw, <- Hl.
    destruct (8 <? List.length casts); repeat split; reflexivity.
Qed.

(** X16. However many LIKE patterns with a leading wildcard the trimmed
    text holds, [analyze] returns one finding for them: the one of the
    first match, with that match as its fragment. *)
Theorem like_first_match_only : forall rev sql first others,
  findAll (trim sql) re_like = Returns (first :: others) ->
  exists r,
    analyzeOf rev toLowerCase toUpperCase astify sql = Returns r
    /\ withId "leading-wildcard-like" (findings r) =
       [located toLowerCase (F_leading_wildcard_like first) (trim sql) first]
    /\ fragment (located toLowerCase (F_leading_wildcard_like first) (trim sql) first)
       = Some first.
Proof.
  intros rev sql first others Hs.
  assert (Ht : trim sql <> []).
  { intros E. rewrite E in Hs. vm_compute in Hs. discriminate. }
  destruct (analyzeOf_withId toLowerCase toUpperCase astify
              "leading-wildcard-like" 9 (rule_like toLowerCase)
              rev sql eq_refl eq_refl eq_refl Ht) as (l & r & El & Ea & Hw).
  unfold rule_like in El. rewrite Hs in El. cbn [bind map] in El.
  apply Returns_inj in El. rewrite <- El in Hw.
  cbn [withId filter] in Hw. rewrite hasId_located in Hw.
  change (hasId "leading-wildcard-like" (F_leading_wildcard_like first))
    with true in Hw.
  cbn [firstn] in Hw.
  exists r. split; [exact Ea|]. split; [exact Hw|].
  unfold located. destruct (locate _ _ _); reflexivity.
Qed.

End Thresholds.

(** X14 on a query with six common table expressions. *)
Lemma many_ctes_thresholds_witness :
  exists c r,
    matchCount
      (toUpperCaseLatin
         (trim (lit "WITH a AS (SELECT 1), b AS (SELECT 2), c AS (SELECT 3), d AS (SELECT 4), e AS (SELECT 5), f as (SELECT 6) SELECT 7")))
      re_as_paren = Returns c
    /\ analyzeOf DirectFirst toLowerCaseLatin toUpperCaseLatin rejectingParser
         (lit "WITH a AS (SELECT 1), b AS (SELECT 2), c AS (SELECT 3), d AS (SELECT 4), e AS (SELECT 5), f as (SELECT 6) SELECT 7")
       = Returns r
    /\ withId "many-ctes" (findings r) =
       (if 10 <? c then [F_many_ctes_warning c]
        else if 5 <? c then [F_many_ctes_info c]
             else [])
    /\ severity (F_many_ctes_warning c) = warning
    /\ severity (F_many_ctes_info c) = info.
Proof.
  apply (many_ctes_thresholds toLowerCaseLatin toUpperCaseLatin rejectingParser
           DirectFirst).
  vm_compute. discriminate.
Defined.

(** X16 on a text with two such patterns. *)
Lemma like_first_match_only_witness :
  exists r,
    analyzeOf DirectFirst toLowerCaseLatin toUpperCaseLatin rejectingParser
      (lit "SELECT a FROM t WHERE a LIKE '%x%' OR b LIKE '%y%'") = Returns r
    /\ withId "leading-wildcard-like" (findings r) =
       [located toLowerCaseLatin (F_leading_wildcard_like (lit "LIKE '%x%'"))
          (trim (lit "SELECT a FROM t WHERE a LIKE '%x%' OR b LIKE '%y%'"))
          (lit "LIKE '%x%'")]
    /\ fragment
         (located toLowerCaseLatin (F_leading_wildcard_like (lit "LIKE '%x%'"))
            (trim (lit "SELECT a FROM t WHERE a LIKE '%x%' OR b LIKE '%y%'"))
            (lit "LIKE '%x%'"))
       = Some (lit "LIKE '%x%'").
Proof.
  apply (like_first_match_only toLowerCaseLatin toUpperCaseLatin rejectingParser
           DirectFirst _ (lit "LIKE '%x%'") [lit "LIKE '%y%'"]).
  vm_compute. reflexivity.
Defined.

(* ====================================================================== *)
(** ** Trees without SELECT, and deep trees *)
(* ====================================================================== *)

Lemma structuralRules_non_select : forall toLowerCase sql n,
  isSelect n = false -> structuralRules toLowerCase sql n = [].
Proof.
  intros toLowerCase sql n H. unfold structuralRules.
  rewrite checkSelectStar_eq, checkNestedSubqueries_eq.
  unfold checkOrderByWithoutLimit, checkCrossJoin, checkJoinWithoutCondition.
  rewrite H. reflexivity.
Qed.

(** X17. A tree whose statements are not SELECT statements gives
    [runRules] nothing: the findings are those of a text that did not
    parse, the findings of the rules over the text. *)
Theorem non_select_statements_add_nothing : forall toLowerCase toUpperCase ast sql,
  Forall (fun n => isSelect n = false) (statements ast) ->
  runRules toLowerCase toUpperCase ast sql
  = runRules toLowerCase toUpperCase AstNull sql.
Proof.
  intros toLowerCase toUpperCase ast sql H. unfold runRules, emitted.
  rewrite (flat_map_nil _ _ (structuralRules toLowerCase sql) (statements ast));
    [reflexivity|].
  intros n Hn. rewrite Forall_forall in H.
  apply structuralRules_non_select, H, Hn.
Qed.

(** X17 on the tree of an INSERT statement, alone and beside a hole. *)
Lemma non_select_statements_add_nothing_witness :
  runRules toLowerCaseLatin toUpperCaseLatin
    (AstArray [Some insertNode; None]) (lit "INSERT INTO t SELECT * FROM u")
  = runRules toLowerCaseLatin toUpperCaseLatin AstNull
      (lit "INSERT INTO t SELECT * FROM u").
Proof.
  apply (non_select_statements_add_nothing toLowerCaseLatin toUpperCaseLatin
           (AstArray [Some insertNode; None])).
  repeat constructor.
Defined.

Lemma nests_incl : forall sql outer inner depth,
  nests outer inner ->
  incl (checkNestedSubqueries sql inner (S depth))
       (checkNestedSubqueries sql outer depth).
Proof.
  intros sql outer inner depth [Hs (item & Hitem & Hsub)] f Hf.
  rewrite checkNestedSubqueries_eq, Hs. cbn [negb].
  apply in_or_app. right. apply in_or_app. right.
  apply in_flat_map. exists item. split; [exact Hitem|]. rewrite Hsub. exact Hf.
Qed.

Lemma first_with_id : forall id F l,
  Forall (fun f => hasId id f = true -> f = F) l ->
  In F l -> hasId id F = true ->
  firstn 1 (withId id l) = [F].
Proof.
  intros id F l H Hin HF. induction H as [|f l Hf _ IH]; [contradiction|].
  cbn [withId filter]. destruct (hasId id f) eqn:E.
  - rewrite (Hf eq_refl). reflexivity.
  - destruct Hin as [->|Hin]; [congruence|]. apply IH, Hin.
Qed.

(** X18. A SELECT that holds a subquery in FROM, which holds one, which
    holds one (three levels, each of them a SELECT) is flagged once by
    [runRules], however many of its subqueries are that deep. *)
Theorem deep_from_chain_flagged :
  forall toLowerCase toUpperCase ast sql T S1 S2 S3,
    In T (statements ast) ->
    nests T S1 -> nests S1 S2 -> nests S2 S3 -> isSelect S3 = true ->
    exists fs,
      runRules toLowerCase toUpperCase ast sql = Returns fs
      /\ withId "deeply-nested-subquery" fs = [F_deeply_nested_subquery].
Proof.
  intros toLowerCase toUpperCase ast sql T S1 S2 S3 HT H1 H2 H3 Hs.
  destruct (regexRules_returns toLowerCase toUpperCase sql) as (textual & Etx & Hids).
  unfold runRules, emitted. rewrite Etx. cbn [bind].
  eexists. split; [reflexivity|].
  rewrite dedupe_withId. cbn [set_mem empty_set]. rewrite withId_app.
  rewrite (withId_none "deeply-nested-subquery" _ textual Hids)
    by (apply existsb_eqb_false; reflexivity).
  rewrite app_nil_r. apply first_with_id; [| |reflexivity].
  - apply Forall_forall. intros f Hf Hid. apply hasId_true in Hid.
    apply in_flat_map in Hf. destruct Hf as (n & _ & Hf).
    apply (deeply_nested_source _ _ _ _ Hf) in Hid.
    pose proof (proj1 (checkNested_all sql n) 0) as Hall.
    rewrite Forall_forall in Hall. symmetry. apply Hall, Hid.
  - apply in_flat_map. exists T. split; [exact HT|].
    unfold structuralRules. apply in_or_app. right. apply in_or_app. right.
    apply in_or_app. right. apply in_or_app. left.
    apply (nests_incl sql T S1 0 H1), (nests_incl sql S1 S2 1 H2),
          (nests_incl sql S2 S3 2 H3).
    rewrite checkNestedSubqueries_eq, Hs. left. reflexivity.
Qed.

(** X18 on a query with four levels of subqueries in FROM. *)
Lemma deep_from_chain_flagged_witness :
  exists fs,
    runRules toLowerCaseLatin toUpperCaseLatin
      (AstNode (wrapQuery (wrapQuery (wrapQuery (wrapQuery sortedQuery)))))
      (lit "SELECT a FROM (SELECT a FROM (SELECT a FROM (SELECT a FROM (SELECT a FROM t ORDER BY a) s) s) s) s")
    = Returns fs
    /\ withId "deeply-nested-subquery" fs = [F_deeply_nested_subquery].
Proof.
  apply (deep_from_chain_flagged toLowerCaseLatin toUpperCaseLatin _ _
           (wrapQuery (wrapQuery (wrapQuery (wrapQuery sortedQuery))))
           (wrapQuery (wrapQuery (wrapQuery sortedQuery)))
           (wrapQuery (wrapQuery sortedQuery))
           (wrapQuery sortedQuery)).
  - left. reflexivity.
  - split; [reflexivity|]. eexists. split; [left; reflexivity|reflexivity].
  - split; [reflexivity|]. eexists. split; [left; reflexivity|reflexivity].
  - split; [reflexivity|]. eexists. split; [left; reflexivity|reflexivity].
  - reflexivity.
Defined.

(* ====================================================================== *)
(** ** The normalizer and the two revisions of [analyze] *)
(* ====================================================================== *)

Lemma replace_no_match : forall s re tmpl,
  test re s = false -> replace s re tmpl = Returns s.
Proof.
  intros s re tmpl H. unfold test in H. unfold replace. cbn [replace_loop].
  destruct (exec re s 0); [discriminate|reflexivity].
Qed.

Lemma replaceBalancedCall_no_match : forall s funcName replacement,
  test (re_call funcName) s = false ->
  replaceBalancedCall s funcName replacement = Returns s.
Proof.
  intros s funcName replacement H. unfold test in H.
  unfold replaceBalancedCall. cbn [replaceBalancedCall_loop].
  destruct (exec (re_call funcName) s 0); [discriminate|reflexivity].
Qed.

(** X19. A text in which no type cast with ::, no call of one of the five
    dialect functions, no PIVOT and no UNPIVOT is found comes back from
    the normalizer as it is. *)
Theorem normalizer_keeps_plain_text : forall s,
  plainDialect s = true -> preprocessForParser s = Returns s.
Proof.
  intros s H. unfold plainDialect, dialectPatterns, dialectCalls in H.
  cbn [map fst app forallb] in H.
  repeat (apply andb_true_iff in H; destruct H as [?H H]).
  repeat match goal with
  | H : negb (test _ _) = true |- _ => apply negb_true_iff in H
  end.
  unfold preprocessForParser.
  rewrite replace_no_match by assumption. cbn [bind].
  repeat (rewrite replaceBalancedCall_no_match by assumption; cbn [bind]).
  repeat (rewrite replace_no_match by assumption; cbn [bind]).
  reflexivity.
Qed.

(** X19 on a query of the common dialect. *)
Lemma normalizer_keeps_plain_text_witness :
  preprocessForParser
    (lit "SELECT a, CAST(b AS INTEGER) FROM t WHERE c IN (SELECT c FROM u)")
  = Returns
      (lit "SELECT a, CAST(b AS INTEGER) FROM t WHERE c IN (SELECT c FROM u)").
Proof.
  apply (normalizer_keeps_plain_text
           (lit "SELECT a, CAST(b AS INTEGER) FROM t WHERE c IN (SELECT c FROM u)")).
  reflexivity.
Defined.



(* ====================================================================== *)
(** ** The stored theme *)
(* ====================================================================== *)

Lemma jsstr_eqb_eq : forall a b, jsstr_eqb a b = true <-> a = b.
Proof.
  intros a b. unfold jsstr_eqb.
  destruct (list_eq_dec N.eq_dec a b); split; congruence.
Qed.

Lemma validMode_name : forall mode, validMode (Some (modeName mode)) = Some mode.
Proof. intros [| |]; reflexivity. Qed.

Lemma validMode_found : forall stored mode,
  validMode stored = Some mode -> stored = Some (modeName mode).
Proof.
  intros [v|] mode H; [|discriminate]. unfold validMode in H.
  destruct (jsstr_eqb v (lit "dark")) eqn:E1;
    [apply jsstr_eqb_eq in E1; inversion H; subst; reflexivity|].
  destruct (jsstr_eqb v (lit "light")) eqn:E2;
    [apply jsstr_eqb_eq in E2; inversion H; subst; reflexivity|].
  destruct (jsstr_eqb v (lit "system")) eqn:E3;
    [apply jsstr_eqb_eq in E3; inversion H; subst; reflexivity|].
  discriminate.
Qed.

(** X21. With a storage that gives back under a key what was last stored
    under it: after [storeTheme] has stored a mode, [getStoredTheme]
    returns that mode. *)
Theorem stored_theme_round_trip :
  forall (Store : Type)
         (getItem : Store -> jsstr -> StorageCall (option jsstr))
         (setItem : Store -> jsstr -> jsstr -> StorageCall Store),
    (forall st key value st',
       setItem st key value = Done st' -> getItem st' key = Done (Some value)) ->
    forall st mode st',
      setItem st STORAGE_KEY (modeName mode) = Done st' ->
      storeTheme Store setItem st mode = Returns st'
      /\ getStoredTheme Store getItem st' = Returns mode.
Proof.
  intros Store getItem setItem Hlaw st mode st' Hset. split.
  - unfold storeTheme. rewrite Hset. reflexivity.
  - unfold getStoredTheme. rewrite (Hlaw _ _ _ _ Hset).
    cbn [callStorage bind tryCatch]. rewrite validMode_name. reflexivity.
Qed.

(** X21 with a storage kept as a list. *)
Lemma stored_theme_round_trip_witness :
  storeTheme (list (jsstr * jsstr)) listSet [(STORAGE_KEY, lit "light")] dark
  = Returns [(STORAGE_KEY, lit "dark"); (STORAGE_KEY, lit "light")]
  /\ getStoredTheme (list (jsstr * jsstr)) listGet
       [(STORAGE_KEY, lit "dark"); (STORAGE_KEY, lit "light")]
     = Returns dark.
Proof.
  apply (stored_theme_round_trip (list (jsstr * jsstr)) listGet listSet).
  - intros st key value st' H. unfold listSet in H. inversion H; subst st'.
    unfold listGet. cbn [find fst snd].
    replace (jsstr_eqb key key) with true
      by (symmetry; apply jsstr_eqb_eq; reflexivity).
    reflexivity.
  - reflexivity.
Defined.

(** X22. [getStoredTheme] and [storeTheme] return whatever the storage
    does.  [getStoredTheme] gives a mode other than system only when the
    storage holds the name of that mode under the key; when the storage
    refuses the call, holds nothing or holds any other text, it gives
    system.  When the storage refuses to store, [storeTheme] leaves it as
    it was. *)
Theorem stored_theme_fallback :
  forall (Store : Type)
         (getItem : Store -> jsstr -> StorageCall (option jsstr))
         (setItem : Store -> jsstr -> jsstr -> StorageCall Store)
         (st : Store),
    (exists mode,
       getStoredTheme Store getItem st = Returns mode
       /\ (mode <> system ->
           getItem st STORAGE_KEY = Done (Some (modeName mode)))
       /\ ((exists e, getItem st STORAGE_KEY = Refused e) -> mode = system)
       /\ (getItem st STORAGE_KEY = Done None -> mode = system)
       /\ (forall v, getItem st STORAGE_KEY = Done (Some v) ->
             v <> lit "dark" -> v <> lit "light" -> mode = system))
    /\ (forall mode,
          exists st', storeTheme Store setItem st mode = Returns st'
            /\ ((exists e, setItem st STORAGE_KEY (modeName mode) = Refused e) ->
                st' = st)).
Proof.
  intros Store getItem setItem st. split.
  - unfold getStoredTheme.
    destruct (getItem st STORAGE_KEY) as [stored|e] eqn:E;
      cbn [callStorage bind tryCatch].
    + destruct (validMode stored) as [mode|] eqn:Ev.
      * exists mode. apply validMode_found in Ev. subst stored.
        split; [reflexivity|]. split; [reflexivity|].
        split; [intros [e He]; discriminate|].
        split; [discriminate|].
        intros v Hv Hd Hl. inversion Hv; subst v.
        destruct mode; [reflexivity|contradiction|contradiction].
      * exists system. split; [reflexivity|]. split; [contradiction|]. auto.
    + exists system. split; [reflexivity|]. split; [contradiction|]. auto.
  - intros mode. unfold storeTheme.
    destruct (setItem st STORAGE_KEY (modeName mode)) as [st'|e] eqn:E;
      cbn [callStorage tryCatch].
    + exists st'. split; [reflexivity|]. intros [e He]. discriminate.
    + exists st. split; [reflexivity|]. reflexivity.
Qed.

(* ====================================================================== *)
(** ** The list of findings *)
(* ====================================================================== *)

Lemma severity_counts : forall fs,
  List.length (filter (fun f => severity_eqb (severity f) error) fs)
  + List.length (filter (fun f => severity_eqb (severity f) warning) fs)
  + List.length (filter (fun f => severity_eqb (severity f) info) fs)
  = List.length fs.
Proof.
  induction fs as [|f fs IH]; [reflexivity|].
  cbn [filter]. destruct (severity f); cbn [severity_eqb List.length]; lia.
Qed.

Lemma badgeCount_badge : forall n, badgeCount (badge n) = n.
Proof. intros [|n]; reflexivity. Qed.

(** X23. The panel is there exactly when there is a finding.  When it is
    there, the numbers of its three badges add up to the number in its
    header, which is the number of its cards, one per finding in the order
    given; and a card can be clicked only if its finding has an offset or
    a fragment that is not empty. *)
Theorem panel_counts_add_up : forall fs onFindingClick,
  (FindingsPanel fs onFindingClick = None <-> fs = [])
  /\ forall view,
       FindingsPanel fs onFindingClick = Some view ->
       headerCount view = List.length fs
       /\ badgeCount (errorBadge view) + badgeCount (warningBadge view)
          + badgeCount (infoBadge view) = headerCount view
       /\ map fst (cards view) = fs
       /\ forall f, In (f, true) (cards view) ->
            onFindingClick = true
            /\ (offset f <> None \/ exists c t, fragment f = Some (c :: t)).
Proof.
  intros fs onFindingClick. split.
  - destruct fs; cbn [FindingsPanel]; split; intros H; congruence.
  - intros view H. destruct fs as [|f0 rest]; [discriminate|].
    remember (f0 :: rest) as l eqn:El.
    assert (Hv : view =
      mkPanelView (List.length l)
        (badge (List.length (filter (fun f => severity_eqb (severity f) error) l)))
        (badge (List.length (filter (fun f => severity_eqb (severity f) warning) l)))
        (badge (List.length (filter (fun f => severity_eqb (severity f) info) l)))
        (map (fun f => (f, hasLocation f && onFindingClick)) l)).
    { rewrite El in *. cbn [FindingsPanel] in H. cbv zeta in H. congruence. }
    rewrite Hv. cbn [headerCount errorBadge warningBadge infoBadge cards].
    split; [reflexivity|]. split.
    + rewrite !badgeCount_badge. apply severity_counts.
    + split.
      * rewrite map_map. cbn [fst]. apply map_id.
      * intros f Hf. apply in_map_iff in Hf. destruct Hf as (g & Hg & _).
        assert (Hfg : g = f) by congruence. subst g.
        assert (Hb : hasLocation f && onFindingClick = true) by congruence.
        apply andb_true_iff in Hb. destruct Hb as [Hloc Hclick].
        split; [exact Hclick|]. unfold hasLocation in Hloc.
        destruct (offset f); [left; discriminate|].
        right. unfold truthy in Hloc.
        destruct (fragment f) as [[|c t]|]; try discriminate. eauto.
Qed.
